(** * express-user-data-api: cache, rate limiter and job queue

    A shallow embedding of [src/services/cache.ts],
    [src/services/rateLimiter.ts] and [src/services/queue.ts].

    Conventions shared by the three modules:
    - JavaScript numbers that hold millisecond timestamps, counters and
      durations are integers far below 2^53; they are modelled in [Z].
    - [Date.now()] is an input: every exported function takes the value
      [now] that the clock shows while the (synchronous) call runs.
    - Module-level [let] variables become fields of an explicit state that
      each function takes and returns.
    - Logging ([logDebug], [logInfo], [logWarn], [logError]) has no effect
      on the modelled state and is left out. *)

From Stdlib Require Import ZArith Lia Ascii String DecimalString.
From stdpp Require Import gmap strings list fin_maps.

Open Scope Z_scope.

(* ===================================================================== *)
(** * src/services/rateLimiter.ts *)
(* ===================================================================== *)

Module RateLimiter.

Record RateLimitEntry := mkEntry {
  requests : list Z;
  burstRequests : list Z
}.

Record RateLimitConfig := mkConfig {
  windowMs : Z;
  maxRequests : Z;
  burstWindowMs : Z;
  maxBurstRequests : Z
}.

Record RateLimitInfo := mkInfo {
  limit : Z;
  remaining : Z;
  resetTime : Z
}.

Definition RATE_LIMIT_CONFIG : RateLimitConfig :=
  {| windowMs := 60 * 1000;
     maxRequests := 10;
     burstWindowMs := 10 * 1000;
     maxBurstRequests := 5 |}.

(** The part of an Express request that the limiter reads. *)
Record Request := mkRequest {
  ip : option string;
  get : string -> option string
}.

(** JavaScript truthiness of [string | undefined]: defined and non-empty. *)
Definition truthy (o : option string) : bool :=
  match o with
  | Some s => negb (String.eqb s "")
  | None => false
  end.

(** [a || b] on [string | undefined]. *)
Definition js_or (a b : option string) : option string :=
  if truthy a then a else b.

(** [s.split(sep)[0]]: the text before the first separator. *)
Fixpoint split_head (sep : ascii) (s : string) : string :=
  match s with
  | EmptyString => EmptyString
  | String c rest =>
      if Ascii.eqb c sep then EmptyString else String c (split_head sep rest)
  end.

(** White space removed by [String.prototype.trim], for the code units
    below 256 that a header value can hold: TAB, LF, VT, FF, CR, SPACE and
    NBSP. *)
Definition is_space (c : ascii) : bool :=
  let n := nat_of_ascii c in
  ((9 <=? n)%nat && (n <=? 13)%nat) || (n =? 32)%nat || (n =? 160)%nat.

Fixpoint trim_start (s : string) : string :=
  match s with
  | EmptyString => EmptyString
  | String c rest => if is_space c then trim_start rest else s
  end.

Fixpoint trim_end (s : string) : string :=
  match s with
  | EmptyString => EmptyString
  | String c rest =>
      match trim_end rest with
      | EmptyString => if is_space c then EmptyString else String c EmptyString
      | rest' => String c rest'
      end
  end.

Definition trim (s : string) : string := trim_end (trim_start s).

Definition getClientIdentifier (req : Request) : string :=
  let forwardedFor := get req "X-Forwarded-For" in
  let realIp := get req "X-Real-IP" in
  let first := (fun s => trim (split_head "," s)) <$> forwardedFor in
  match js_or (js_or (js_or first realIp) (ip req)) (Some "unknown"%string) with
  | Some s => s
  | None => "unknown"%string
  end.

Definition cleanupExpiredRequests (now : Z) (reqs : list Z) (window : Z)
  : list Z :=
  filter (fun timestamp => now - timestamp < window) reqs.

(** The two assignments at the top of [isRateLimited], [addRequest] and
    [getRateLimitInfo]. *)
Definition prune (now : Z) (config : RateLimitConfig) (entry : RateLimitEntry)
  : RateLimitEntry :=
  {| requests := cleanupExpiredRequests now (requests entry) (windowMs config);
     burstRequests :=
       cleanupExpiredRequests now (burstRequests entry) (burstWindowMs config) |}.

(** [isRateLimited] assigns the pruned arrays to the entry it is given, so
    it returns the entry together with the verdict. *)
Definition isRateLimited (now : Z) (entry : RateLimitEntry)
    (config : RateLimitConfig) : bool * RateLimitEntry :=
  let entry := prune now config entry in
  if bool_decide (maxBurstRequests config <= Z.of_nat (length (burstRequests entry)))
  then (true, entry)
  else if bool_decide (maxRequests config <= Z.of_nat (length (requests entry)))
  then (true, entry)
  else (false, entry).

(** The two [push] calls of [addRequest]. *)
Definition recorded (now : Z) (entry : RateLimitEntry) : RateLimitEntry :=
  {| requests := requests entry ++ [now];
     burstRequests := burstRequests entry ++ [now] |}.

Definition addRequest (now : Z) (entry : RateLimitEntry)
    (config : RateLimitConfig) : RateLimitEntry :=
  let entry := recorded now entry in
  prune now config entry.

(** [Math.min(...xs, ...ys, now)]. *)
Definition js_min (xs : list Z) (last : Z) : Z := foldr Z.min last xs.

(** [Math.ceil(x / 1000)] on an integer [x]. *)
Definition ceil_div (x d : Z) : Z := - ((- x) / d).

Definition getRateLimitInfo (now : Z) (entry : RateLimitEntry)
    (config : RateLimitConfig) : RateLimitInfo * RateLimitEntry :=
  let entry := prune now config entry in
  let oldestRequest := js_min (requests entry ++ burstRequests entry) now in
  let reset := oldestRequest + windowMs config in
  ({| limit := maxRequests config;
      remaining := Z.max 0 (maxRequests config - Z.of_nat (length (requests entry)));
      resetTime := ceil_div reset 1000 |},
   entry).

Record CheckResult := mkCheck {
  allowed : bool;
  info : RateLimitInfo
}.

Definition emptyEntry : RateLimitEntry :=
  {| requests := []; burstRequests := [] |}.

(** [rateLimitStore]: the entry objects are shared with the map, so every
    assignment to a field of [entry] is visible in the store; the model
    writes the final entry back. *)
Definition checkRateLimit (now : Z) (req : Request)
    (rateLimitStore : gmap string RateLimitEntry)
  : CheckResult * gmap string RateLimitEntry :=
  let clientId := getClientIdentifier req in
  let entry :=
    match rateLimitStore !! clientId with
    | Some entry => entry
    | None => emptyEntry
    end in
  let '(isLimited, entry) := isRateLimited now entry RATE_LIMIT_CONFIG in
  let entry :=
    if negb isLimited then addRequest now entry RATE_LIMIT_CONFIG else entry in
  let '(info, entry) := getRateLimitInfo now entry RATE_LIMIT_CONFIG in
  ({| allowed := negb isLimited; info := info |},
   <[clientId := entry]> rateLimitStore).

Definition clearRateLimitStore (_ : gmap string RateLimitEntry)
  : gmap string RateLimitEntry := ∅.

(** The callback of [startRateLimitCleanup]: clients without a request in
    the last two long windows are forgotten. *)
Definition cleanupTick (now : Z) (rateLimitStore : gmap string RateLimitEntry)
  : gmap string RateLimitEntry :=
  filter (fun kv =>
            filter (fun timestamp =>
                      now - timestamp < windowMs RATE_LIMIT_CONFIG * 2)
                   (requests (snd kv)) <> [])
         rateLimitStore.

(** The stores the exported functions can produce. *)
Inductive reachable : gmap string RateLimitEntry -> Prop :=
| reach_empty : reachable ∅
| reach_check now req store :
    reachable store -> reachable (snd (checkRateLimit now req store))
| reach_cleanup now store :
    reachable store -> reachable (cleanupTick now store).

(** The entry [checkRateLimit] starts from for a client. *)
Definition entryOf (rateLimitStore : gmap string RateLimitEntry)
    (clientId : string) : RateLimitEntry :=
  match rateLimitStore !! clientId with
  | Some entry => entry
  | None => emptyEntry
  end.

(** A client's requests at the given times, in order: the verdicts and the
    store they leave. *)
Fixpoint checkAll (req : Request) (times : list Z)
    (rateLimitStore : gmap string RateLimitEntry)
  : list bool * gmap string RateLimitEntry :=
  match times with
  | [] => ([], rateLimitStore)
  | now :: rest =>
      let '(r, store) := checkRateLimit now req rateLimitStore in
      let '(verdicts, store) := checkAll req rest store in
      (allowed r :: verdicts, store)
  end.

(** Every burst timestamp of a stored entry is also in its long window. *)
Definition burstWithinLong (store : gmap string RateLimitEntry) : Prop :=
  forall clientId entry,
    store !! clientId = Some entry -> burstRequests entry ⊆ requests entry.

Record RateLimitStats := mkRateLimitStats {
  totalClients : Z;
  activeClients : Z;
  statsConfig : RateLimitConfig
}.

(** A client is active when its long window holds a request younger than
    [windowMs]. *)
Definition isActive (now : Z) (kv : string * RateLimitEntry) : Prop :=
  filter (fun timestamp => now - timestamp < windowMs RATE_LIMIT_CONFIG)
         (requests (snd kv)) <> [].

Definition getRateLimitStats (now : Z)
    (rateLimitStore : gmap string RateLimitEntry) : RateLimitStats :=
  {| totalClients := Z.of_nat (size rateLimitStore);
     activeClients := Z.of_nat (size (filter (isActive now) rateLimitStore));
     statsConfig := RATE_LIMIT_CONFIG |}.

(** The times, among [times], at which the client's request was
    admitted. *)
Fixpoint admittedTimes (req : Request) (times : list Z)
    (rateLimitStore : gmap string RateLimitEntry) : list Z :=
  match times with
  | [] => []
  | now :: rest =>
      let '(r, store) := checkRateLimit now req rateLimitStore in
      (if allowed r then [now] else []) ++ admittedTimes req rest store
  end.

(** The clock does not run backwards along [times]. *)
Fixpoint nondecreasing (times : list Z) : Prop :=
  match times with
  | [] => True
  | t :: rest => Forall (fun u => t <= u) rest /\ nondecreasing rest
  end.

(** How many of the [events] fall into the window of length [window] that
    ends at [t], that is, into (t - window, t]. *)
Definition countInWindow (window t : Z) (events : list Z) : nat :=
  length (filter (fun y => t - window < y /\ y <= t) events).

(** ** Example inputs *)

(** A client at 1.2.3.4 without proxy headers, used by the examples. *)
Definition plainRequest : Request :=
  {| ip := Some "1.2.3.4"%string; get := fun _ => None |}.

(** Five requests of [plainRequest] within five milliseconds. *)
Definition afterBurst : gmap string RateLimitEntry :=
  snd (checkAll plainRequest [0; 1; 2; 3; 4] ∅).

(** ** The specification's wording *)

(** How many of the recorded timestamps are newer than [bound]. *)
Fixpoint countNewer (bound : Z) (timestamps : list Z) : Z :=
  match timestamps with
  | [] => 0
  | t :: rest => (if bool_decide (bound < t) then 1 else 0) + countNewer bound rest
  end.

(** The decision rule: the burst window holds at least [maxBurstRequests]
    timestamps newer than [now - burstWindowMs], or the long window holds at
    least [maxRequests] timestamps newer than [now - windowMs]. *)
Definition deniedByRule (now : Z) (config : RateLimitConfig)
    (entry : RateLimitEntry) : Prop :=
  maxBurstRequests config
    <= countNewer (now - burstWindowMs config) (burstRequests entry)
  \/ maxRequests config
    <= countNewer (now - windowMs config) (requests entry).



(** "The check evaluates both windows without mutating state." *)
Definition checkIsPure : Prop :=
  forall now req store, snd (checkRateLimit now req store) = store.

End RateLimiter.

(* ===================================================================== *)
(** * JavaScript [Map<string, V>] with its insertion order *)
(* ===================================================================== *)

(** [cache.entries()] and [jobResults.values()] are walked in insertion
    order, and the first match wins, so the maps of [cache.ts] and
    [queue.ts] are kept as association lists: [set] on a present key
    replaces the value where it stands, [set] on a new key appends, and
    [delete] removes the key.  A list built from [[]] by these operations
    holds every key once. *)
Module JsMap.
Section Ops.
Context {V : Type}.

Fixpoint get (k : string) (m : list (string * V)) : option V :=
  match m with
  | [] => None
  | (k', v) :: rest => if String.eqb k' k then Some v else get k rest
  end.

Fixpoint set (k : string) (v : V) (m : list (string * V))
  : list (string * V) :=
  match m with
  | [] => [(k, v)]
  | (k', v') :: rest =>
      if String.eqb k' k then (k, v) :: rest else (k', v') :: set k v rest
  end.

Fixpoint delete (k : string) (m : list (string * V)) : list (string * V) :=
  match m with
  | [] => []
  | (k', v') :: rest =>
      if String.eqb k' k then delete k rest else (k', v') :: delete k rest
  end.

Definition has (k : string) (m : list (string * V)) : bool :=
  match get k m with Some _ => true | None => false end.

Definition size (m : list (string * V)) : Z := Z.of_nat (length m).

Definition keys (m : list (string * V)) : list string := map fst m.
Definition values (m : list (string * V)) : list V := map snd m.
End Ops.
End JsMap.

(* ===================================================================== *)
(** * src/services/cache.ts *)
(* ===================================================================== *)

Module Cache.

Definition CACHE_TTL : Z := 60 * 1000.
Definition MAX_CACHE_SIZE : Z := 100.

Record CacheEntry (T : Type) := mkCacheEntry {
  value : T;
  timestamp : Z;
  ttl : Z
}.
Arguments mkCacheEntry {T}.
Arguments value {T}.
Arguments timestamp {T}.
Arguments ttl {T}.

Record CacheStats := mkStats {
  hits : Z;
  misses : Z;
  size : Z;
  maxSize : Z;
  averageResponseTime : Z
}.

(** The three module-level variables [cache], [stats], [responseTimes]. *)
Record State (T : Type) := mkState {
  cache : list (string * CacheEntry T);
  stats : CacheStats;
  responseTimes : list Z
}.
Arguments mkState {T}.
Arguments cache {T}.
Arguments stats {T}.
Arguments responseTimes {T}.

Section Ops.
Context {T : Type}.

Definition initial : State T :=
  {| cache := [];
     stats := {| hits := 0; misses := 0; size := 0;
                 maxSize := MAX_CACHE_SIZE; averageResponseTime := 0 |};
     responseTimes := [] |}.

Definition isExpired (now : Z) (entry : CacheEntry T) : bool :=
  bool_decide (now - timestamp entry > ttl entry).

(** [Math.round(sum / n)] for an integer [sum] and a positive count. *)
Definition round_div (sum n : Z) : Z := (2 * sum + n) / (2 * n).

Definition updateStats (st : State T) : State T :=
  let s := stats st in
  let avg :=
    match responseTimes st with
    | [] => averageResponseTime s
    | rts => round_div (foldl Z.add 0 rts) (Z.of_nat (length rts))
    end in
  {| cache := cache st;
     stats := {| hits := hits s; misses := misses s;
                 size := JsMap.size (cache st);
                 maxSize := maxSize s; averageResponseTime := avg |};
     responseTimes := responseTimes st |}.

Definition removeExpiredEntries (now : Z) (st : State T) : State T :=
  let kept :=
    List.filter (fun kv => negb (bool_decide (now - timestamp (snd kv) > ttl (snd kv))))
                (cache st) in
  let removedCount := (length (cache st) - length kept)%nat in
  let st' := {| cache := kept; stats := stats st;
                responseTimes := responseTimes st |} in
  if (0 <? removedCount)%nat then updateStats st' else st'.

(** The [for] loop of [evictLRU]: the running pair
    [(oldestKey, oldestTime)]. *)
Fixpoint scanOldest (entries : list (string * CacheEntry T))
    (oldestKey : string) (oldestTime : Z) : string * Z :=
  match entries with
  | [] => (oldestKey, oldestTime)
  | (key, entry) :: rest =>
      if bool_decide (timestamp entry < oldestTime)
      then scanOldest rest key (timestamp entry)
      else scanOldest rest oldestKey oldestTime
  end.

Definition evictLRU (now : Z) (st : State T) : State T :=
  if bool_decide (JsMap.size (cache st) >= MAX_CACHE_SIZE) then
    let '(oldestKey, _) := scanOldest (cache st) "" now in
    if negb (String.eqb oldestKey "") then
      {| cache := JsMap.delete oldestKey (cache st); stats := stats st;
         responseTimes := responseTimes st |}
    else st
  else st.

Definition recordResponseTime (responseTime : Z) (st : State T) : State T :=
  let rts := responseTimes st ++ [responseTime] in
  let rts :=
    if (100 <? length rts)%nat then drop (length rts - 100) rts else rts in
  updateStats {| cache := cache st; stats := stats st; responseTimes := rts |}.

Definition bumpMisses (st : State T) : State T :=
  let s := stats st in
  {| cache := cache st;
     stats := {| hits := hits s; misses := misses s + 1; size := size s;
                 maxSize := maxSize s;
                 averageResponseTime := averageResponseTime s |};
     responseTimes := responseTimes st |}.

Definition bumpHits (st : State T) : State T :=
  let s := stats st in
  {| cache := cache st;
     stats := {| hits := hits s + 1; misses := misses s; size := size s;
                 maxSize := maxSize s;
                 averageResponseTime := averageResponseTime s |};
     responseTimes := responseTimes st |}.

Definition withCache (c : list (string * CacheEntry T)) (st : State T)
  : State T :=
  {| cache := c; stats := stats st; responseTimes := responseTimes st |}.

Definition getFromCache (now : Z) (key : string) (st : State T)
  : option T * State T :=
  let startTime := now in
  match JsMap.get key (cache st) with
  | None =>
      (None, recordResponseTime (now - startTime) (bumpMisses st))
  | Some entry =>
      if isExpired now entry then
        let st := withCache (JsMap.delete key (cache st)) st in
        (None, recordResponseTime (now - startTime) (bumpMisses st))
      else
        let entry := {| value := value entry; timestamp := now;
                        ttl := ttl entry |} in
        let st := withCache (JsMap.set key entry (cache st)) st in
        (Some (value entry),
         recordResponseTime (now - startTime) (bumpHits st))
  end.

(** [ttl = None] is the call that leaves the third argument out. *)
Definition setCache (now : Z) (key : string) (v : T) (ttl : option Z)
    (st : State T) : State T :=
  let startTime := now in
  let ttl := match ttl with Some t => t | None => CACHE_TTL end in
  let st := removeExpiredEntries now st in
  let st := evictLRU now st in
  let entry := {| value := v; timestamp := now; ttl := ttl |} in
  let st := withCache (JsMap.set key entry (cache st)) st in
  recordResponseTime (now - startTime) st.

Definition deleteFromCache (now : Z) (key : string) (st : State T)
  : bool * State T :=
  let startTime := now in
  let existed := JsMap.has key (cache st) in
  let st := withCache (JsMap.delete key (cache st)) st in
  (existed, recordResponseTime (now - startTime) st).

Definition clearCache (now : Z) (st : State T) : State T :=
  let startTime := now in
  let s := stats st in
  let st :=
    {| cache := [];
       stats := {| hits := 0; misses := 0; size := 0; maxSize := maxSize s;
                   averageResponseTime := averageResponseTime s |};
       responseTimes := [] |} in
  recordResponseTime (now - startTime) st.

Definition getCacheStats (now : Z) (st : State T) : CacheStats * State T :=
  let st := updateStats (removeExpiredEntries now st) in
  (stats st, st).

Definition getCacheKeys (now : Z) (st : State T) : list string * State T :=
  let st := removeExpiredEntries now st in
  (JsMap.keys (cache st), st).

(** A caller's script: the four operations named by the capacity
    property, each at the time it is issued. *)
Inductive Op :=
| OpSet (now : Z) (key : string) (v : T) (ttl : option Z)
| OpGet (now : Z) (key : string)
| OpDelete (now : Z) (key : string)
| OpClear (now : Z).

Definition apply (op : Op) (st : State T) : State T :=
  match op with
  | OpSet now key v ttl => setCache now key v ttl st
  | OpGet now key => snd (getFromCache now key st)
  | OpDelete now key => snd (deleteFromCache now key st)
  | OpClear now => clearCache now st
  end.

Definition run (ops : list Op) (st : State T) : State T :=
  foldl (fun st op => apply op st) st ops.

(** The entries the sweep of [removeExpiredEntries] keeps. *)
Definition isLive (now : Z) (kv : string * CacheEntry T) : bool :=
  negb (isExpired now (snd kv)).

Definition liveEntries (now : Z) (st : State T)
  : list (string * CacheEntry T) :=
  List.filter (isLive now) (cache st).

(** ** The specification's wording *)

(** The clock does not run backwards from [from] through [times] to
    [to]. *)
Fixpoint ascending (from : Z) (times : list Z) (to : Z) : Prop :=
  match times with
  | [] => from <= to
  | t :: rest => from <= t /\ ascending t rest to
  end.

(** "A get performed once ttl has elapsed since the entry's insertion
    reports the key absent, regardless of intervening get calls." *)
Definition ttlVisibility : Prop :=
  forall (st : State T) (key : string) (v : T) (ttl : Z)
         (insertedAt : Z) (gets : list Z) (now : Z),
    ascending insertedAt gets now ->
    ttl <= now - insertedAt ->
    fst (getFromCache now key
           (run (map (fun t => OpGet t key) gets)
                (setCache insertedAt key v (Some ttl) st)))
    = None.

(** Every get of [gets], and the one at [to], comes at most [ttl] after
    the access before it; the first access is the write at [from]. *)
Fixpoint hitsInTime (ttl from : Z) (gets : list Z) (to : Z) : Prop :=
  match gets with
  | [] => to - from <= ttl
  | t :: rest => t - from <= ttl /\ hitsInTime ttl t rest to
  end.

(** The time of the last write of [key] in a script: the insertion time
    of the entry the script leaves under [key]. *)
Definition lastWrite (key : string) (ops : list Op)
  : option Z :=
  foldl (fun found op =>
           match op with
           | OpSet now k _ _ => if String.eqb k key then Some now else found
           | _ => found
           end) None ops.

(** ** Shapes of scripts *)

Definition isGet (op : Op) : bool :=
  match op with OpGet _ _ => true | _ => false end.

Definition isClear (op : Op) : bool :=
  match op with OpClear _ => true | _ => false end.

(** The clock value an operation reads. *)
Definition opTime (op : Op) : Z :=
  match op with
  | OpSet now _ _ _ => now
  | OpGet now _ => now
  | OpDelete now _ => now
  | OpClear now => now
  end.

(** Every operation reads a clock value later than the one before it,
    the first one later than [last]. *)
Fixpoint advancing (last : Z) (ops : list Op) : Prop :=
  match ops with
  | [] => True
  | op :: rest => last < opTime op /\ advancing (opTime op) rest
  end.

(** No write uses the empty string as key. *)
Definition writesNamedKeys (ops : list Op) : Prop :=
  Forall (fun op => match op with
                    | OpSet _ key _ _ => key <> ""%string
                    | _ => True
                    end) ops.

(** What a cache looks like as long as the clock has advanced between
    operations and no key is empty: within capacity, no empty key, no
    timestamp after the last operation. *)
Definition inGoodShape (last : Z) (st : State T) : Prop :=
  JsMap.size (cache st) <= MAX_CACHE_SIZE
  /\ (""%string ∉ JsMap.keys (cache st))
  /\ forall k e, (k, e) ∈ cache st -> timestamp e <= last.

End Ops.

(** Example scripts.  [fillFrom k n] writes [n] entries under the keys
    "a...a" of lengths [k], [k+1], ...; the clock is given per write. *)
Definition keyOfLength (n : nat) : string :=
  string_of_list_ascii (repeat "a"%char n).

Definition fillFrom (clock : nat -> Z) (k n : nat) : list (@Op string) :=
  map (fun i => OpSet (clock i) (keyOfLength i) "v"%string None) (seq k n).

(** A full cache: "old" is written at time 0 and read at 50 s; in between,
    ninety-nine other keys are written from 40.001 s on. *)
Definition readAfterFill : list (@Op string) :=
  OpSet 0 "old" "v"%string None
  :: fillFrom (fun i => 40000 + Z.of_nat i) 1 99
  ++ [OpGet 50000 "old"].

End Cache.

(* ===================================================================== *)
(** * src/services/queue.ts *)
(* ===================================================================== *)

(** The queue is asynchronous.  Node runs it on one thread, so its
    behaviour is a sequence of atomic steps: the synchronous body of
    [addJob] (which runs [processQueue], [executeJob] and [processJob] up
    to the first [await], that is, up to and including the call
    [processor(job)]), the continuation that runs when the promise returned
    by the processor settles, and the continuation that runs when the retry
    timer fires.  The environment chooses the order of the steps, the value
    of the clock, the text produced by [Math.random] and the outcome of each
    processor call.  The continuation of [processJob], the rest of
    [executeJob] and the [finally] callback run as consecutive microtasks
    and form one step. *)
Module Queue.

Record QueueJob := mkJob {
  id : string;
  userId : Z;
  timestamp : Z;
  retries : Z
}.

Record QueueConfig := mkQueueConfig {
  maxConcurrency : Z;
  retryAttempts : Z;
  retryDelay : Z
}.

Definition QUEUE_CONFIG : QueueConfig :=
  {| maxConcurrency := 5; retryAttempts := 3; retryDelay := 1000 |}.

(** The payload type [T] is opaque to the queue, and an [Error] is known by
    its message. *)
Definition Payload := string.
Definition Error := string.

(** An element of [jobResults]: [{ result?, error?, timestamp }]. *)
Record JobResult := mkJobResult {
  result : option Payload;
  error : option Error;
  resultTimestamp : Z
}.

Record QueueStats := mkQueueStats {
  totalJobs : Z;
  completedJobs : Z;
  failedJobs : Z;
  statActiveJobs : Z;
  statQueuedJobs : Z
}.

(** Where a suspended [executeJob] activation waits. *)
Inductive Phase :=
| AwaitProcessor (inRetry : bool)
    (** at [await processor(job)] in [processJob], called from [executeJob]
        ([false]) or from [retryJob] ([true]) *)
| AwaitTimer (delay : Z)
    (** at [await new Promise(resolve => setTimeout(resolve, delay))] *).

Record Task := mkTask {
  taskJob : QueueJob;
  taskPhase : Phase
}.

(** What the environment sees the queue do. *)
Inductive Effect :=
| Invoked (handle : nat) (job : QueueJob)   (** [processor(job)] was called *)
| TimerSet (handle : nat) (delay : Z)       (** [setTimeout(resolve, delay)] *).

Record State := mkState {
  jobQueue : list QueueJob;
  activeJobs : list (string * nat);   (** job id to its promise (a handle) *)
  jobResults : list (string * JobResult);
  queueStats : QueueStats;
  tasks : list (nat * Task);          (** suspended activations, by handle *)
  nextTask : nat;
  effects : list Effect
}.

Definition initial : State :=
  {| jobQueue := []; activeJobs := []; jobResults := [];
     queueStats := {| totalJobs := 0; completedJobs := 0; failedJobs := 0;
                      statActiveJobs := 0; statQueuedJobs := 0 |};
     tasks := []; nextTask := 0%nat; effects := [] |}.

(** [n.toString()] for an integer. *)
Definition toString (n : Z) : string := NilZero.string_of_int (Z.to_int n).

(** [rnd] stands for [Math.random().toString(36).substr(2, 9)]. *)
Definition generateJobId (now : Z) (rnd : string) : string :=
  ("job_" ++ toString now ++ "_" ++ rnd)%string.

Definition createJob (now : Z) (rnd : string) (userId : Z) : QueueJob :=
  {| id := generateJobId now rnd; userId := userId; timestamp := now;
     retries := 0 |}.

(** [s.split(sep)]. *)
Fixpoint split (sep : ascii) (s : string) : list string :=
  match s with
  | EmptyString => [EmptyString]
  | String c rest =>
      if Ascii.eqb c sep then EmptyString :: split sep rest
      else match split sep rest with
           | [] => [String c EmptyString]
           | w :: ws => String c w :: ws
           end
  end.

Definition withStats (f : QueueStats -> QueueStats) (st : State) : State :=
  {| jobQueue := jobQueue st; activeJobs := activeJobs st;
     jobResults := jobResults st; queueStats := f (queueStats st);
     tasks := tasks st; nextTask := nextTask st; effects := effects st |}.

Definition updateQueueStats (st : State) : State :=
  withStats (fun s =>
    {| totalJobs := totalJobs s; completedJobs := completedJobs s;
       failedJobs := failedJobs s;
       statActiveJobs := JsMap.size (activeJobs st);
       statQueuedJobs := Z.of_nat (length (jobQueue st)) |}) st.

Definition bumpTotal (s : QueueStats) : QueueStats :=
  {| totalJobs := totalJobs s + 1; completedJobs := completedJobs s;
     failedJobs := failedJobs s; statActiveJobs := statActiveJobs s;
     statQueuedJobs := statQueuedJobs s |}.

Definition bumpCompleted (s : QueueStats) : QueueStats :=
  {| totalJobs := totalJobs s; completedJobs := completedJobs s + 1;
     failedJobs := failedJobs s; statActiveJobs := statActiveJobs s;
     statQueuedJobs := statQueuedJobs s |}.

Definition bumpFailed (s : QueueStats) : QueueStats :=
  {| totalJobs := totalJobs s; completedJobs := completedJobs s;
     failedJobs := failedJobs s + 1; statActiveJobs := statActiveJobs s;
     statQueuedJobs := statQueuedJobs s |}.

Definition withJobQueue (q : list QueueJob) (st : State) : State :=
  {| jobQueue := q; activeJobs := activeJobs st; jobResults := jobResults st;
     queueStats := queueStats st; tasks := tasks st; nextTask := nextTask st;
     effects := effects st |}.

Definition withActiveJobs (a : list (string * nat)) (st : State) : State :=
  {| jobQueue := jobQueue st; activeJobs := a; jobResults := jobResults st;
     queueStats := queueStats st; tasks := tasks st; nextTask := nextTask st;
     effects := effects st |}.

Definition withJobResults (r : list (string * JobResult)) (st : State)
  : State :=
  {| jobQueue := jobQueue st; activeJobs := activeJobs st; jobResults := r;
     queueStats := queueStats st; tasks := tasks st; nextTask := nextTask st;
     effects := effects st |}.

Definition withTasks (t : list (nat * Task)) (st : State) : State :=
  {| jobQueue := jobQueue st; activeJobs := activeJobs st;
     jobResults := jobResults st; queueStats := queueStats st;
     tasks := t; nextTask := nextTask st; effects := effects st |}.

Definition emit (e : Effect) (st : State) : State :=
  {| jobQueue := jobQueue st; activeJobs := activeJobs st;
     jobResults := jobResults st; queueStats := queueStats st;
     tasks := tasks st; nextTask := nextTask st;
     effects := effects st ++ [e] |}.

Definition lookupTask (h : nat) (st : State) : option Task :=
  snd <$> List.find (fun ht => Nat.eqb (fst ht) h) (tasks st).

Definition dropTask (h : nat) (st : State) : State :=
  withTasks (List.filter (fun ht => negb (Nat.eqb (fst ht) h)) (tasks st)) st.

Definition putTask (h : nat) (t : Task) (st : State) : State :=
  withTasks (tasks (dropTask h st) ++ [(h, t)]) st.

(** The synchronous part of [processJob]: call the processor and suspend. *)
Definition processJob_call (h : nat) (job : QueueJob) (inRetry : bool)
    (st : State) : State :=
  putTask h {| taskJob := job; taskPhase := AwaitProcessor inRetry |}
          (emit (Invoked h job) st).

(** [retryJob] up to its [await]: either the throw of the guard, or the
    job with [retries] incremented and the delay given to [setTimeout]. *)
Definition retryJob (job : QueueJob) : Error + QueueJob * Z :=
  if bool_decide (retries job >= retryAttempts QUEUE_CONFIG) then
    inl ("Job " ++ id job ++ " exceeded maximum retry attempts")%string
  else
    let job := {| id := id job; userId := userId job;
                  timestamp := timestamp job; retries := retries job + 1 |} in
    inr (job, retryDelay QUEUE_CONFIG * retries job).

(** The [finally] callback attached in [processQueue]. *)
Definition finish (h : nat) (job : QueueJob) (st : State) : State :=
  updateQueueStats
    (withActiveJobs (JsMap.delete (id job) (activeJobs st)) (dropTask h st)).

(** The promise returned by the processor settles: the rest of
    [processJob], then the [catch] of [executeJob] or the end of
    [retryJob], then [finally]. *)
Definition settle (now : Z) (h : nat) (outcome : Payload + Error)
    (st : State) : State :=
  match lookupTask h st with
  | Some {| taskJob := job; taskPhase := AwaitProcessor inRetry |} =>
      match outcome with
      | inl res =>
          let st :=
            withJobResults
              (JsMap.set (id job)
                 {| result := Some res; error := None;
                    resultTimestamp := now |} (jobResults st)) st in
          let st := withStats bumpCompleted st in
          finish h job st
      | inr err =>
          let st :=
            withJobResults
              (JsMap.set (id job)
                 {| result := None; error := Some err;
                    resultTimestamp := now |} (jobResults st)) st in
          let st := withStats bumpFailed st in
          if inRetry then finish h job st
          else if bool_decide (retries job < retryAttempts QUEUE_CONFIG) then
            match retryJob job with
            | inl _ => finish h job st
            | inr (job, delay) =>
                putTask h {| taskJob := job; taskPhase := AwaitTimer delay |}
                        (emit (TimerSet h delay) st)
            end
          else finish h job st
      end
  | _ => st
  end.

(** The retry timer fires: [return processJob(job, processor)]. *)
Definition timerFires (h : nat) (st : State) : State :=
  match lookupTask h st with
  | Some {| taskJob := job; taskPhase := AwaitTimer _ |} =>
      processJob_call h job true st
  | _ => st
  end.

(** The predicate given to [find] in [processQueue]; it does not look at
    the element it is given. *)
Definition recentResultForUser (now : Z) (job : QueueJob)
    (results : list (string * JobResult)) : bool :=
  let recentJobs :=
    List.filter (fun kv => bool_decide (now - resultTimestamp (snd kv) < 5000))
                results in
  existsb (fun kv =>
             match nth_error (split "_" (fst kv)) 2 with
             | Some jobData => String.eqb jobData (toString (userId job))
             | None => false
             end) recentJobs.

Definition existingResult (now : Z) (job : QueueJob)
    (results : list (string * JobResult)) : option JobResult :=
  List.find (fun _ => recentResultForUser now job results)
            (JsMap.values results).

(** [executeJob(job, processor)] up to its first suspension, and the
    registration of its promise in [activeJobs]. *)
Definition startJob (job : QueueJob) (st : State) : State :=
  let h := nextTask st in
  let st :=
    {| jobQueue := jobQueue st; activeJobs := activeJobs st;
       jobResults := jobResults st; queueStats := queueStats st;
       tasks := tasks st; nextTask := S h; effects := effects st |} in
  let st := processJob_call h job false st in
  updateQueueStats (withActiveJobs (JsMap.set (id job) h (activeJobs st)) st).

(** The [while] loop of [processQueue]; [queue] is [jobQueue], which every
    iteration shortens by one. *)
Fixpoint processQueue_loop (now : Z) (queue : list QueueJob) (st : State)
  : State :=
  match queue with
  | [] => withJobQueue [] st
  | job :: rest =>
      if bool_decide (JsMap.size (activeJobs st) < maxConcurrency QUEUE_CONFIG)
      then
        let st := withJobQueue rest st in
        match existingResult now job (jobResults st) with
        | Some {| result := r; error := None; resultTimestamp := t |} =>
            let st :=
              withJobResults
                (JsMap.set (id job)
                   {| result := r; error := None; resultTimestamp := t |}
                   (jobResults st)) st in
            processQueue_loop now rest (withStats bumpCompleted st)
        | _ => processQueue_loop now rest (startJob job st)
        end
      else withJobQueue queue st
  end.

Definition processQueue (now : Z) (st : State) : State :=
  processQueue_loop now (jobQueue st) st.

(** The executor of the promise built by [addJob], up to the first call of
    [pollForResult].  The caller's promise is known by the id of its job. *)
Definition addJob (now : Z) (rnd : string) (userId : Z) (st : State)
  : string * State :=
  let job := createJob now rnd userId in
  let st := withStats bumpTotal st in
  let st := withJobQueue (jobQueue st ++ [job]) st in
  let st := updateQueueStats st in
  let st := processQueue now st in
  (id job, st).

(** One run of [pollForResult] for the caller whose job is [jobId]. *)
Inductive Poll :=
| Rejected (e : Error)
| Resolved (r : option Payload)
| Pending.

Definition pollForResult (jobId : string) (st : State) : Poll :=
  match JsMap.get jobId (jobResults st) with
  | Some {| result := r; error := Some e |} => Rejected e
  | Some {| result := r; error := None |} => Resolved r
  | None => Pending
  end.

Definition clearQueue (_ : State) : State := initial.

Inductive Event :=
| AddJob (now : Z) (rnd : string) (userId : Z)
| Settle (now : Z) (handle : nat) (outcome : Payload + Error)
| TimerFires (handle : nat).

Definition step (st : State) (ev : Event) : State :=
  match ev with
  | AddJob now rnd userId => snd (addJob now rnd userId st)
  | Settle now h outcome => settle now h outcome st
  | TimerFires h => timerFires h st
  end.

Definition run (evs : list Event) (st : State) : State := foldl step st evs.

(** How often the processor has been called, in all and for one user. *)
Definition isInvoked (e : Effect) : bool :=
  match e with Invoked _ _ => true | TimerSet _ _ => false end.

Definition invocations (st : State) : nat :=
  length (List.filter isInvoked (effects st)).

Definition invocationsFor (user : Z) (st : State) : nat :=
  length (List.filter
            (fun e => match e with
                      | Invoked _ job => Z.eqb (userId job) user
                      | TimerSet _ _ => false
                      end) (effects st)).

Definition invocationsOf (h : nat) (st : State) : nat :=
  length (List.filter
            (fun e => match e with
                      | Invoked h' _ => Nat.eqb h' h
                      | TimerSet _ _ => false
                      end) (effects st)).

Definition timersOf (h : nat) (st : State) : list Z :=
  omap (fun e => match e with
                 | TimerSet h' d => if Nat.eqb h' h then Some d else None
                 | Invoked _ _ => None
                 end) (effects st).

(** The delay [retryJob] hands to [setTimeout], when it gets that far. *)
Definition retryDelayOf (job : QueueJob) : option Z :=
  match retryJob job with
  | inr (_, delay) => Some delay
  | inl _ => None
  end.

(** ** Example inputs *)

(** Callers that ask for the same user one after the other, each at its
    own clock value and with its own random text. *)
Definition burstOf (user : Z) (calls : list (Z * string)) : list Event :=
  map (fun call => AddJob (fst call) (snd call) user) calls.

(** One caller, and a processor that fails every time it is called: the
    first call fails at 200 ms, the retry timer fires, the second call
    fails at 1400 ms. *)
Definition alwaysFailing : list Event :=
  [AddJob 0 "abc" 1;
   Settle 200 0 (inr "boom"%string);
   TimerFires 0;
   Settle 1400 0 (inr "boom"%string)].


Definition getActiveJobs (st : State) : list string :=
  JsMap.keys (activeJobs st).

Definition getQueuedJobs (st : State) : list QueueJob := jobQueue st.

Definition getJobResult (jobId : string) (st : State) : option JobResult :=
  JsMap.get jobId (jobResults st).

(** ** Shapes of schedules *)

Definition isAddJob (ev : Event) : bool :=
  match ev with AddJob _ _ _ => true | _ => false end.


Definition awaitsProcessor (ht : nat * Task) : bool :=
  match taskPhase (snd ht) with
  | AwaitProcessor _ => true
  | AwaitTimer _ => false
  end.

(** The processor calls that have been made and have not settled yet. *)
Definition inFlight (st : State) : nat :=
  length (List.filter awaitsProcessor (tasks st)).

(** How the suspended activations, the queue and [activeJobs] fit
    together as long as job ids do not repeat; [seen] are the ids handed
    out so far. *)
Definition registered (seen : list string) (st : State) : Prop :=
  NoDup (map fst (tasks st))
  /\ (forall h t, (h, t) ∈ tasks st ->
        JsMap.get (id (taskJob t)) (activeJobs st) = Some h)
  /\ NoDup (map id (jobQueue st))
  /\ (forall job, job ∈ jobQueue st ->
        JsMap.get (id job) (activeJobs st) = None /\ id job ∈ seen)
  /\ (forall k, k ∈ JsMap.keys (activeJobs st) -> k ∈ seen)
  /\ JsMap.size (activeJobs st) <= maxConcurrency QUEUE_CONFIG
  /\ (forall h t, (h, t) ∈ tasks st -> (h < nextTask st)%nat).

(** ** Bookkeeping of the suspended activations *)

(** Every handle has seen at most two processor calls; a suspended
    activation has seen one before its retry and two after; handles not
    yet given out have seen none. *)
Definition callsMatchPhase (st : State) : Prop :=
  (forall h, invocationsOf h st <= 2)%nat
  /\ (forall h, (nextTask st <= h)%nat ->
                invocationsOf h st = 0%nat /\ lookupTask h st = None)
  /\ (forall h t, lookupTask h st = Some t ->
        invocationsOf h st
        = match taskPhase t with
          | AwaitProcessor false => 1%nat
          | AwaitTimer _ => 1%nat
          | AwaitProcessor true => 2%nat
          end).

(** Every handle sets at most one retry timer, of [retryDelay] ms, and a
    suspended activation carries [retries = 0] before that timer and
    [retries = 1] from then on; handles not yet given out have set none. *)
Definition timersMatchPhase (st : State) : Prop :=
  (forall h, lookupTask h st = None ->
     timersOf h st = [] \/ timersOf h st = [retryDelay QUEUE_CONFIG])
  /\ (forall h, (nextTask st <= h)%nat ->
        timersOf h st = [] /\ lookupTask h st = None)
  /\ (forall h t, lookupTask h st = Some t ->
        match taskPhase t with
        | AwaitProcessor false =>
            retries (taskJob t) = 0 /\ timersOf h st = []
        | AwaitTimer delay =>
            delay = retryDelay QUEUE_CONFIG
            /\ retries (taskJob t) = 1
            /\ timersOf h st = [retryDelay QUEUE_CONFIG]
        | AwaitProcessor true =>
            retries (taskJob t) = 1
            /\ timersOf h st = [retryDelay QUEUE_CONFIG]
        end).

(** The jobs that wait in the queue have not been retried. *)
Definition queuedFresh (queue : list QueueJob) : Prop :=
  Forall (fun job => retries job = 0) queue.

End Queue.

(* ===================================================================== *)
(** * src/services/mockData.ts *)
(* ===================================================================== *)

(** The functions of this file are [async]: each waits for a timer and
    then runs the rest of its body without interruption.  The model is
    that rest, as one step on the module variable [users].

    The keys of [users] are the integers and, once the store has been
    emptied, -Infinity ([Math.max()] of no arguments).  Arguments that are
    not such numbers (fractions, NaN) never name a user and are left
    out. *)
Module MockData.

Inductive JsNumber :=
| Finite (z : Z)
| MinusInfinity.

#[global] Instance JsNumber_eq_dec : EqDecision JsNumber.
Proof. solve_decision. Defined.

#[global] Instance JsNumber_countable : Countable JsNumber :=
  inj_countable'
    (fun n => match n with Finite z => Some z | MinusInfinity => None end)
    (fun o => match o with Some z => Finite z | None => MinusInfinity end)
    (fun n => match n with Finite z => eq_refl | MinusInfinity => eq_refl end).

(** [Math.max(a, b)] and [a + 1] on these numbers. *)
Definition jsMax (a b : JsNumber) : JsNumber :=
  match a, b with
  | Finite x, Finite y => Finite (Z.max x y)
  | Finite x, MinusInfinity => Finite x
  | MinusInfinity, b => b
  end.

Definition plusOne (a : JsNumber) : JsNumber :=
  match a with
  | Finite x => Finite (x + 1)
  | MinusInfinity => MinusInfinity
  end.

(** Dates are milliseconds since the epoch. *)
Record User := mkUser {
  id : JsNumber;
  name : string;
  email : string;
  createdAt : option Z;
  updatedAt : option Z
}.

Definition day (n : Z) : Z := 1672531200000 + (n - 1) * 86400000.

Definition mockUser (n : Z) (name email : string) : User :=
  {| id := Finite n; name := name; email := email;
     createdAt := Some (day n); updatedAt := Some (day n) |}.

Definition mockUsers : gmap JsNumber User :=
  <[Finite 1 := mockUser 1 "John Doe" "john@example.com"]>
  (<[Finite 2 := mockUser 2 "Jane Smith" "jane@example.com"]>
  (<[Finite 3 := mockUser 3 "Alice Johnson" "alice@example.com"]>
  (<[Finite 4 := mockUser 4 "Bob Wilson" "bob@example.com"]>
  (<[Finite 5 := mockUser 5 "Carol Brown" "carol@example.com"]> ∅)))).

(** [Omit<User, "id" | "createdAt" | "updatedAt">]. *)
Record UserData := mkUserData {
  dataName : string;
  dataEmail : string
}.

(** [Partial<Omit<User, "id" | "createdAt">>]; a field that is left out
    is [None]. *)
Record UserPatch := mkUserPatch {
  patchName : option string;
  patchEmail : option string;
  patchUpdatedAt : option Z
}.

Definition getUserById (id : JsNumber) (users : gmap JsNumber User)
  : option User :=
  users !! id.

(** [Math.max(...Object.keys(users).map(Number))]. *)
Definition maxKey (users : gmap JsNumber User) : JsNumber :=
  foldr jsMax MinusInfinity (map fst (map_to_list users)).

Definition createUser (now : Z) (userData : UserData)
    (users : gmap JsNumber User) : User * gmap JsNumber User :=
  let newId := plusOne (maxKey users) in
  let newUser :=
    {| id := newId; name := dataName userData; email := dataEmail userData;
       createdAt := Some now; updatedAt := Some now |} in
  (newUser, <[newId := newUser]> users).

Definition updateUser (now : Z) (id : JsNumber) (userData : UserPatch)
    (users : gmap JsNumber User) : option User * gmap JsNumber User :=
  match users !! id with
  | None => (None, users)
  | Some existingUser =>
      let updatedUser :=
        {| id := MockData.id existingUser;
           name := default (name existingUser) (patchName userData);
           email := default (email existingUser) (patchEmail userData);
           createdAt := createdAt existingUser;
           updatedAt := Some now |} in
      (Some updatedUser, <[id := updatedUser]> users)
  end.

Definition deleteUser (id : JsNumber) (users : gmap JsNumber User)
  : bool * gmap JsNumber User :=
  match users !! id with
  | Some _ => (true, delete id users)
  | None => (false, users)
  end.

Definition getUserCount (users : gmap JsNumber User) : Z :=
  Z.of_nat (size users).

Definition resetUsers (_ : gmap JsNumber User) : gmap JsNumber User :=
  mockUsers.

(** Some key of the store is an integer. *)
Definition hasFiniteKey (users : gmap JsNumber User) : Prop :=
  exists z user, users !! Finite z = Some user.

End MockData.

(* ===================================================================== *)
(** * src/utils/logger.ts *)
(* ===================================================================== *)

Module Logger.

(** [data] is opaque to the logger; [timestamp] is the text of
    [new Date().toISOString()], supplied by the caller of the model. *)
Record LogEntry := mkLogEntry {
  timestamp : string;
  level : string;
  message : string;
  data : option string
}.

Definition createLogEntry (isoNow : string) (level message : string)
    (data : option string) : LogEntry :=
  {| timestamp := isoNow; level := level; message := message; data := data |}.

(** [logInfo], [logError], [logWarn], [logDebug]: append one entry (the
    console output is left out). *)
Definition logInfo (isoNow message : string) (data : option string)
    (logs : list LogEntry) : list LogEntry :=
  logs ++ [createLogEntry isoNow "INFO" message data].

Definition logError (isoNow message : string) (data : option string)
    (logs : list LogEntry) : list LogEntry :=
  logs ++ [createLogEntry isoNow "ERROR" message data].

Definition logWarn (isoNow message : string) (data : option string)
    (logs : list LogEntry) : list LogEntry :=
  logs ++ [createLogEntry isoNow "WARN" message data].

Definition logDebug (isoNow message : string) (data : option string)
    (logs : list LogEntry) : list LogEntry :=
  logs ++ [createLogEntry isoNow "DEBUG" message data].

(** [xs.slice(start)] for an integer [start]: a negative [start] counts
    from the end. *)
Definition slice {A : Type} (start : Z) (xs : list A) : list A :=
  if bool_decide (start < 0)
  then drop (Z.to_nat (Z.max 0 (Z.of_nat (length xs) + start))) xs
  else drop (Z.to_nat start) xs.

(** [limit ? logs.slice(-limit) : logs], for an integer or absent
    [limit]. *)
Definition getLogs (limit : option Z) (logs : list LogEntry)
  : list LogEntry :=
  match limit with
  | None => logs
  | Some n => if bool_decide (n = 0) then logs else slice (- n) logs
  end.

Definition clearLogs (_ : list LogEntry) : list LogEntry := [].

End Logger.

(* ===================================================================== *)
(** * Properties of the rate limiter *)
(* ===================================================================== *)

Module RateLimiterProofs.
Import RateLimiter.

Section Windows.
Variables (now : Z) (config : RateLimitConfig).

Lemma cleanup_length_countNewer (window : Z) (l : list Z) :
  Z.of_nat (length (cleanupExpiredRequests now l window))
  = countNewer (now - window) l.
Proof.
  unfold cleanupExpiredRequests.
  induction l as [|t l IH]; [reflexivity|].
  rewrite filter_cons. cbn [countNewer]. rewrite <- IH.
  destruct (decide (now - t < window)) as [Hin|Hout].
  - rewrite bool_decide_eq_true_2 by lia. cbn [length]. lia.
  - rewrite bool_decide_eq_false_2 by lia. lia.
Qed.

Lemma cleanup_later (later window : Z) (l : list Z) :
  now <= later ->
  cleanupExpiredRequests later (cleanupExpiredRequests now l window) window
  = cleanupExpiredRequests later l window.
Proof.
  intros Hle. unfold cleanupExpiredRequests.
  apply list_filter_filter_l. intros t Ht. lia.
Qed.

Lemma cleanup_snoc_now (window : Z) (l : list Z) :
  0 < window ->
  cleanupExpiredRequests now (l ++ [now]) window
  = cleanupExpiredRequests now l window ++ [now].
Proof.
  intros Hpos. unfold cleanupExpiredRequests.
  rewrite filter_app. f_equal.
  rewrite filter_cons, decide_True by lia. reflexivity.
Qed.

Lemma cleanup_keeps_all (window : Z) (l : list Z) :
  Forall (fun t => now - t < window) l ->
  cleanupExpiredRequests now l window = l.
Proof.
  unfold cleanupExpiredRequests.
  induction 1 as [|t l Ht _ IH]; [reflexivity|].
  rewrite filter_cons, decide_True by assumption. now rewrite IH.
Qed.

Lemma prune_later (later : Z) (entry : RateLimitEntry) :
  now <= later ->
  prune later config (prune now config entry) = prune later config entry.
Proof.
  intros Hle. unfold prune. cbn [requests burstRequests].
  now rewrite !cleanup_later.
Qed.

Lemma isRateLimited_entry (entry : RateLimitEntry) :
  snd (isRateLimited now entry config) = prune now config entry.
Proof. unfold isRateLimited. repeat case_bool_decide; reflexivity. Qed.

Lemma isRateLimited_rule (entry : RateLimitEntry) :
  fst (isRateLimited now entry config) = true
  <-> deniedByRule now config entry.
Proof.
  unfold isRateLimited, deniedByRule, prune. cbn [requests burstRequests].
  rewrite !cleanup_length_countNewer.
  repeat case_bool_decide; cbn [fst]; split;
    try (intros _; (left + right); assumption);
    try discriminate; try reflexivity.
  intros [?|?]; lia.
Qed.
End Windows.

Lemma prune_idem now config entry :
  prune now config (prune now config entry) = prune now config entry.
Proof. apply prune_later. lia. Qed.

Lemma prune_recorded now entry :
  prune now RATE_LIMIT_CONFIG (recorded now (prune now RATE_LIMIT_CONFIG entry))
  = recorded now (prune now RATE_LIMIT_CONFIG entry).
Proof.
  unfold prune, recorded. cbn [requests burstRequests].
  rewrite !cleanup_snoc_now by (cbn; lia).
  f_equal; f_equal; apply cleanup_later; lia.
Qed.

(** What one call does to the store, with the three helpers unfolded. *)
Lemma checkRateLimit_unfold now req store :
  let clientId := getClientIdentifier req in
  let pruned := prune now RATE_LIMIT_CONFIG (entryOf store clientId) in
  let isLimited :=
    fst (isRateLimited now (entryOf store clientId) RATE_LIMIT_CONFIG) in
  let entry := if isLimited then pruned else recorded now pruned in
  checkRateLimit now req store
  = ({| allowed := negb isLimited;
        info := fst (getRateLimitInfo now entry RATE_LIMIT_CONFIG) |},
     <[clientId := entry]> store).
Proof.
  cbv zeta. unfold checkRateLimit. fold (entryOf store (getClientIdentifier req)).
  pose proof (isRateLimited_entry now RATE_LIMIT_CONFIG
                (entryOf store (getClientIdentifier req))) as Hent.
  destruct (isRateLimited now _ RATE_LIMIT_CONFIG) as [isLimited e].
  cbn [fst snd] in *. subst e.
  destruct isLimited; cbn [negb]; unfold getRateLimitInfo, addRequest.
  - now rewrite prune_idem.
  - now rewrite !prune_recorded.
Qed.

Lemma checkRateLimit_allowed now req store :
  allowed (fst (checkRateLimit now req store))
  = negb (fst (isRateLimited now (entryOf store (getClientIdentifier req))
                 RATE_LIMIT_CONFIG)).
Proof. now rewrite checkRateLimit_unfold. Qed.

Lemma entryOf_insert store clientId entry :
  entryOf (<[clientId := entry]> store) clientId = entry.
Proof. unfold entryOf. now rewrite lookup_insert_eq. Qed.

(** A request that finds both windows below their bounds, with nothing to
    prune, is admitted and recorded. *)
Lemma checkRateLimit_admits now req store :
  let entry := entryOf store (getClientIdentifier req) in
  Forall (fun t => now - t < burstWindowMs RATE_LIMIT_CONFIG) (requests entry) ->
  Forall (fun t => now - t < burstWindowMs RATE_LIMIT_CONFIG) (burstRequests entry) ->
  (length (requests entry) < 10)%nat ->
  (length (burstRequests entry) < 5)%nat ->
  allowed (fst (checkRateLimit now req store)) = true
  /\ snd (checkRateLimit now req store)
     = <[getClientIdentifier req := recorded now entry]> store.
Proof.
  intros entry Hlong Hburst Hn Hm.
  assert (Hp : prune now RATE_LIMIT_CONFIG entry = entry).
  { unfold prune. rewrite !cleanup_keeps_all.
    - now destruct entry.
    - assumption.
    - eapply Forall_impl; [exact Hlong|]. cbn. intros; lia. }
  assert (Hl : fst (isRateLimited now entry RATE_LIMIT_CONFIG) = false).
  { unfold isRateLimited. rewrite Hp.
    rewrite !bool_decide_eq_false_2; [reflexivity| |]; cbn; lia. }
  rewrite checkRateLimit_unfold. cbv zeta. fold entry.
  rewrite Hl, Hp. split; reflexivity.
Qed.

Lemma checkAll_cons req now times store :
  checkAll req (now :: times) store
  = (allowed (fst (checkRateLimit now req store))
       :: fst (checkAll req times (snd (checkRateLimit now req store))),
     snd (checkAll req times (snd (checkRateLimit now req store)))).
Proof.
  cbn [checkAll]. destruct (checkRateLimit now req store) as [r s1].
  cbn [fst snd]. destruct (checkAll req times s1) as [v s2]. reflexivity.
Qed.

(** A run of requests that stays inside the burst window and below both
    bounds: every request is admitted and recorded in both windows. *)
Lemma checkAll_admits req times : forall store,
  let entry := entryOf store (getClientIdentifier req) in
  Forall (fun t =>
            Forall (fun x => t - x < burstWindowMs RATE_LIMIT_CONFIG)
                   (requests entry ++ burstRequests entry ++ times)) times ->
  (length (requests entry) + length times <= 10)%nat ->
  (length (burstRequests entry) + length times <= 5)%nat ->
  fst (checkAll req times store) = repeat true (length times)
  /\ entryOf (snd (checkAll req times store)) (getClientIdentifier req)
     = {| requests := requests entry ++ times;
          burstRequests := burstRequests entry ++ times |}.
Proof.
  induction times as [|t times IH]; intros store entry Hwin Hn Hm.
  - cbn [checkAll fst snd length repeat]. rewrite !app_nil_r.
    split; [reflexivity|]. subst entry.
    now destruct (entryOf store (getClientIdentifier req)).
  - rewrite checkAll_cons. cbn [fst snd length repeat].
    apply Forall_cons in Hwin as [Ht Hrest].
    rewrite !Forall_app in Ht. destruct Ht as (Htl & Htb & _).
    destruct (checkRateLimit_admits t req store) as [Ha Hs];
      fold entry; try assumption; cbn [length] in *; try lia.
    fold entry in Hs. rewrite Ha, Hs.
    destruct (IH (<[getClientIdentifier req := recorded t entry]> store))
      as [Hv He]; rewrite ?entryOf_insert; cbn [recorded requests burstRequests].
    + eapply Forall_impl; [exact Hrest|]. cbn beta. intros u Hu.
      rewrite !Forall_app in Hu. destruct Hu as (Hul & Hub & Hut).
      apply Forall_cons in Hut as [Hu0 Hut].
      rewrite !Forall_app. repeat split; try assumption;
        repeat constructor; assumption.
    + rewrite length_app. cbn [length]. lia.
    + rewrite length_app. cbn [length]. lia.
    + rewrite Hv, He. rewrite entryOf_insert.
      cbn [recorded requests burstRequests].
      now rewrite <- !app_assoc.
Qed.

(** C7. A request is denied exactly when the burst window already holds at
    least maxBurstRequests timestamps newer than now - burstWindowMs or the
    long window already holds at least maxRequests timestamps newer than
    now - windowMs.  In particular, five requests of a new client within one
    second are all admitted, and a sixth is denied exactly as long as fewer
    than ten seconds have passed since the first. *)
Theorem rate_limit_decision_rule (now : Z) (req : Request)
    (store : gmap string RateLimitEntry) :
  (allowed (fst (checkRateLimit now req store)) = false
   <-> deniedByRule now RATE_LIMIT_CONFIG
         (entryOf store (getClientIdentifier req)))
  /\ (forall t1 t2 t3 t4 t5 : Z,
        store !! getClientIdentifier req = None ->
        t1 <= t2 <= t3 -> t3 <= t4 <= t5 -> t5 <= t1 + 1000 -> t5 <= now ->
        let burst := checkAll req [t1; t2; t3; t4; t5] store in
        fst burst = [true; true; true; true; true]
        /\ (allowed (fst (checkRateLimit now req (snd burst))) = false
            <-> now < t1 + 10 * 1000)).
Proof.
  split.
  - rewrite checkRateLimit_allowed, <- isRateLimited_rule.
    destruct (fst (isRateLimited _ _ _)); cbn; split; congruence.
  - intros t1 t2 t3 t4 t5 Hfresh H123 H345 Hsec Hnow burst.
    assert (He0 : entryOf store (getClientIdentifier req) = emptyEntry)
      by (unfold entryOf; now rewrite Hfresh).
    destruct (checkAll_admits req [t1; t2; t3; t4; t5] store) as [Hv He];
      rewrite ?He0; cbn [emptyEntry requests burstRequests app length];
      try lia.
    { repeat constructor; cbn; lia. }
    fold burst in Hv, He. rewrite He0 in He.
    cbn [emptyEntry requests burstRequests app] in He.
    split; [exact Hv|].
    rewrite <- Bool.not_true_iff_false, checkRateLimit_allowed.
    rewrite Bool.negb_true_iff, Bool.not_false_iff_true, He.
    rewrite isRateLimited_rule. unfold deniedByRule.
    cbn [requests burstRequests countNewer RATE_LIMIT_CONFIG
         maxBurstRequests maxRequests burstWindowMs windowMs].
    repeat case_bool_decide; lia.
Qed.

Lemma rate_limit_decision_rule_witness :
  fst (checkAll plainRequest [0; 200; 400; 600; 800] ∅)
  = [true; true; true; true; true]
  /\ (allowed (fst (checkRateLimit 9999 plainRequest
                      (snd (checkAll plainRequest [0; 200; 400; 600; 800] ∅))))
       = false <-> 9999 < 0 + 10 * 1000).
Proof.
  destruct (rate_limit_decision_rule 9999 plainRequest ∅) as [_ Hburst].
  apply (Hburst 0 200 400 600 800); try lia.
  apply lookup_empty.
Defined.

(** ** What a call does to the store (C9, C10) *)

(** C9, as stated, fails: the first check of a new client already leaves an
    entry for it in the store. *)
Lemma check_is_not_pure : ~ checkIsPure.
Proof.
  intros Hpure. specialize (Hpure 0 plainRequest ∅).
  apply (f_equal (fun store => store !! "1.2.3.4"%string)) in Hpure.
  vm_compute in Hpure. discriminate.
Qed.

(** C9, amended.  A check rewrites the entry of the calling client and of
    no other client: expired timestamps are pruned from both windows, and
    when the request is admitted the current time is appended to both; the
    verdict is the decision taken on the entry as it was before the call. *)
Theorem checkRateLimit_state_change (now : Z) (req : Request)
    (store : gmap string RateLimitEntry) :
  let clientId := getClientIdentifier req in
  let pruned := prune now RATE_LIMIT_CONFIG (entryOf store clientId) in
  let r := checkRateLimit now req store in
  (forall other, other <> clientId -> snd r !! other = store !! other)
  /\ snd r !! clientId
     = Some (if allowed (fst r) then recorded now pruned else pruned)
  /\ (allowed (fst r) = false
      <-> deniedByRule now RATE_LIMIT_CONFIG (entryOf store clientId)).
Proof.
  cbv zeta. split; [|split].
  - rewrite checkRateLimit_unfold. cbn [fst snd allowed].
    intros other Hne. now rewrite lookup_insert_ne.
  - rewrite checkRateLimit_unfold. cbn [fst snd allowed].
    rewrite lookup_insert_eq.
    now destruct (fst (isRateLimited now _ RATE_LIMIT_CONFIG)).
  - rewrite checkRateLimit_allowed, <- isRateLimited_rule.
    now destruct (fst (isRateLimited now _ RATE_LIMIT_CONFIG)).
Qed.

Lemma checkRateLimit_denied_store now req store :
  allowed (fst (checkRateLimit now req store)) = false ->
  snd (checkRateLimit now req store)
  = <[getClientIdentifier req :=
        prune now RATE_LIMIT_CONFIG (entryOf store (getClientIdentifier req))]>
      store.
Proof.
  rewrite checkRateLimit_unfold. cbn [fst snd allowed].
  destruct (fst (isRateLimited now _ RATE_LIMIT_CONFIG)); [reflexivity|].
  discriminate.
Qed.

Lemma checkRateLimit_after_prune now later req store :
  now <= later ->
  checkRateLimit later req
    (<[getClientIdentifier req :=
         prune now RATE_LIMIT_CONFIG (entryOf store (getClientIdentifier req))]>
       store)
  = checkRateLimit later req store.
Proof.
  intros Hle. rewrite !checkRateLimit_unfold. cbv zeta.
  rewrite entryOf_insert, insert_insert_eq.
  rewrite (prune_later now RATE_LIMIT_CONFIG later) by assumption.
  assert (Hlim : forall e,
    fst (isRateLimited later (prune now RATE_LIMIT_CONFIG e) RATE_LIMIT_CONFIG)
    = fst (isRateLimited later e RATE_LIMIT_CONFIG)).
  { intros e. unfold isRateLimited.
    now rewrite (prune_later now RATE_LIMIT_CONFIG later) by assumption. }
  now rewrite Hlim.
Qed.

Lemma cleanup_dropped now window (l : list Z) t :
  t ∈ l -> t ∉ cleanupExpiredRequests now l window -> window <= now - t.
Proof.
  unfold cleanupExpiredRequests. rewrite list_elem_of_filter.
  intros Hin Hout. destruct (decide (now - t < window)); [|lia].
  exfalso. apply Hout. now split.
Qed.

(** C10. Denied requests consume no budget: after any run of requests of
    one client that were all denied, each window of the client holds a
    sub-sequence of what it held before (nothing was appended), every
    timestamp that went missing had left its window by the time of one of
    these requests, other clients are untouched, and a request at any later
    time gets the verdict, the report and the resulting store it would have
    got had the denied requests never been made. *)
Theorem denied_requests_consume_no_budget (req : Request) (times : list Z)
    (later : Z) (store : gmap string RateLimitEntry) :
  fst (checkAll req times store) = repeat false (length times) ->
  Forall (fun t => t <= later) times ->
  let clientId := getClientIdentifier req in
  let store' := snd (checkAll req times store) in
  (requests (entryOf store' clientId) `sublist_of` requests (entryOf store clientId)
   /\ burstRequests (entryOf store' clientId)
        `sublist_of` burstRequests (entryOf store clientId))
  /\ (forall t,
        (t ∈ requests (entryOf store clientId) ->
         t ∉ requests (entryOf store' clientId) ->
         exists now, now ∈ times /\ windowMs RATE_LIMIT_CONFIG <= now - t)
        /\ (t ∈ burstRequests (entryOf store clientId) ->
            t ∉ burstRequests (entryOf store' clientId) ->
            exists now, now ∈ times
                        /\ burstWindowMs RATE_LIMIT_CONFIG <= now - t))
  /\ (forall other, other <> clientId -> store' !! other = store !! other)
  /\ checkRateLimit later req store' = checkRateLimit later req store.
Proof.
  cbv zeta. revert store.
  induction times as [|t1 times IH]; intros store Hdenied Hle.
  - cbn [checkAll snd]. repeat split; try reflexivity; intros; contradiction.
  - rewrite checkAll_cons in *. cbn [fst snd length repeat] in *.
    apply Forall_cons in Hle as [Ht Hle].
    injection Hdenied as Hfirst Hrest.
    pose proof (checkRateLimit_denied_store t1 req store Hfirst) as Hs.
    destruct (IH _ Hrest Hle) as ((Hl & Hb) & Hgone & Hother & Hlater).
    rewrite Hs in Hl, Hb, Hgone, Hother, Hlater. rewrite Hs. clear Hs.
    rewrite entryOf_insert in Hl, Hb, Hgone.
    split; [|split; [|split]].
    + split; (etransitivity; [eassumption|]); apply sublist_filter.
    + intros t. destruct (Hgone t) as [Hgl Hgb]. split; intros Hin Hout.
      * destruct (decide (t ∈ requests (prune t1 RATE_LIMIT_CONFIG
                                           (entryOf store (getClientIdentifier req)))))
          as [Hkept|Hdropped].
        -- destruct (Hgl Hkept Hout) as (now & Hnow & Hold).
           exists now. split; [now apply list_elem_of_further|exact Hold].
        -- exists t1. split; [apply list_elem_of_here|].
           eapply cleanup_dropped; [exact Hin|exact Hdropped].
      * destruct (decide (t ∈ burstRequests (prune t1 RATE_LIMIT_CONFIG
                                                (entryOf store (getClientIdentifier req)))))
          as [Hkept|Hdropped].
        -- destruct (Hgb Hkept Hout) as (now & Hnow & Hold).
           exists now. split; [now apply list_elem_of_further|exact Hold].
        -- exists t1. split; [apply list_elem_of_here|].
           eapply cleanup_dropped; [exact Hin|exact Hdropped].
    + intros other Hne. rewrite Hother by assumption.
      now rewrite lookup_insert_ne.
    + rewrite Hlater. now apply checkRateLimit_after_prune.
Qed.

Lemma denied_requests_consume_no_budget_witness :
  checkRateLimit 8 plainRequest
    (snd (checkAll plainRequest [5; 6; 7] afterBurst))
  = checkRateLimit 8 plainRequest afterBurst.
Proof.
  apply (denied_requests_consume_no_budget plainRequest [5; 6; 7] 8 afterBurst).
  - vm_compute. reflexivity.
  - repeat constructor; lia.
Defined.

(** ** The reset time (C8) *)

Section JsMin.




End JsMin.

Lemma prune_burstWithinLong now entry :
  burstRequests entry ⊆ requests entry ->
  burstRequests (prune now RATE_LIMIT_CONFIG entry)
    ⊆ requests (prune now RATE_LIMIT_CONFIG entry).
Proof.
  intros Hsub t. unfold prune, cleanupExpiredRequests.
  cbn [requests burstRequests RATE_LIMIT_CONFIG windowMs burstWindowMs].
  rewrite !list_elem_of_filter. intros [Hin Ht]. split; [lia|auto].
Qed.

Lemma reachable_burstWithinLong store :
  reachable store -> burstWithinLong store.
Proof.
  induction 1 as [|now req store _ IH|now store _ IH]; intros clientId entry.
  - now rewrite lookup_empty.
  - rewrite checkRateLimit_unfold. cbn [snd].
    destruct (decide (clientId = getClientIdentifier req)) as [->|Hne].
    + rewrite lookup_insert_eq. intros [= <-].
      assert (Hold : burstRequests (entryOf store (getClientIdentifier req))
                       ⊆ requests (entryOf store (getClientIdentifier req))).
      { unfold entryOf.
        destruct (store !! getClientIdentifier req) eqn:Hl; [eauto|].
        reflexivity. }
      apply (prune_burstWithinLong now) in Hold.
      destruct (fst (isRateLimited now _ RATE_LIMIT_CONFIG)); [exact Hold|].
      cbn [recorded requests burstRequests]. intros t.
      rewrite !elem_of_app. intros [Ht|Ht]; [left; apply Hold, Ht|now right].
    + rewrite lookup_insert_ne by congruence. apply IH.
  - unfold cleanupTick. rewrite map_lookup_filter_Some. intros [Hl _]. eauto.
Qed.




End RateLimiterProofs.

(* ===================================================================== *)
(** * Properties of the insertion-ordered map *)
(* ===================================================================== *)

Module JsMapFacts.
Section Facts.
Context {V : Type}.
Implicit Types (m : list (string * V)) (k : string) (v : V).

Lemma get_set k k' v m :
  JsMap.get k (JsMap.set k' v m)
  = if String.eqb k' k then Some v else JsMap.get k m.
Proof.
  induction m as [|[k0 v0] m IH]; cbn [JsMap.set JsMap.get].
  - reflexivity.
  - destruct (String.eqb_spec k0 k') as [->|Hne]; cbn [JsMap.get].
    + destruct (String.eqb k' k); reflexivity.
    + rewrite IH. destruct (String.eqb_spec k0 k) as [->|Hne'];
        [|reflexivity].
      destruct (String.eqb_spec k' k); [congruence|reflexivity].
Qed.

Lemma get_delete k k' m :
  JsMap.get k (JsMap.delete k' m)
  = if String.eqb k' k then None else JsMap.get k m.
Proof.
  induction m as [|[k0 v0] m IH]; cbn [JsMap.delete JsMap.get].
  - now destruct (String.eqb k' k).
  - destruct (String.eqb_spec k0 k') as [->|Hne]; cbn [JsMap.get].
    + rewrite IH. destruct (String.eqb k' k); reflexivity.
    + rewrite IH. destruct (String.eqb_spec k0 k) as [->|Hne'];
        [|reflexivity].
      destruct (String.eqb_spec k' k); [congruence|reflexivity].
Qed.

Lemma get_Some_elem k v m : JsMap.get k m = Some v -> (k, v) ∈ m.
Proof.
  induction m as [|[k0 v0] m IH]; cbn [JsMap.get]; [discriminate|].
  destruct (String.eqb_spec k0 k) as [->|Hne].
  - intros [= ->]. apply list_elem_of_here.
  - intros H. apply list_elem_of_further, IH, H.
Qed.

Lemma get_None_keys k m : JsMap.get k m = None <-> k ∉ JsMap.keys m.
Proof.
  unfold JsMap.keys.
  induction m as [|[k0 v0] m IH]; cbn [JsMap.get map fst].
  - split; [intros _; apply not_elem_of_nil|reflexivity].
  - rewrite not_elem_of_cons.
    destruct (String.eqb_spec k0 k) as [->|Hne].
    + split; [discriminate|intros [? _]; congruence].
    + rewrite IH. split; [intros ?; split; congruence|intros [_ ?]; assumption].
Qed.

Lemma elem_get k v m :
  NoDup (JsMap.keys m) -> (k, v) ∈ m -> JsMap.get k m = Some v.
Proof.
  unfold JsMap.keys.
  induction m as [|[k0 v0] m IH]; cbn [JsMap.get map fst];
    intros Hnd Hin.
  - now apply elem_of_nil in Hin.
  - apply NoDup_cons in Hnd as [Hk0 Hnd].
    apply elem_of_cons in Hin as [[= -> ->]|Hin].
    + now rewrite String.eqb_refl.
    + destruct (String.eqb_spec k0 k) as [->|Hne]; [|now apply IH].
      exfalso. apply Hk0. apply list_elem_of_fmap. now exists (k, v).
Qed.

Lemma keys_filter_sublist (P : string * V -> bool) m :
  JsMap.keys (List.filter P m) `sublist_of` JsMap.keys m.
Proof.
  unfold JsMap.keys.
  induction m as [|kv m IH]; cbn [List.filter map]; [constructor|].
  destruct (P kv); cbn [map]; [now apply sublist_skip|now apply sublist_cons].
Qed.

Lemma NoDup_keys_filter (P : string * V -> bool) m :
  NoDup (JsMap.keys m) -> NoDup (JsMap.keys (List.filter P m)).
Proof. intros Hnd. eapply sublist_NoDup; [exact Hnd|apply keys_filter_sublist]. Qed.

Lemma elem_filter (P : string * V -> bool) kv m :
  kv ∈ List.filter P m <-> kv ∈ m /\ P kv = true.
Proof. rewrite !list_elem_of_In. apply List.filter_In. Qed.

(** On a map (unique keys), a filter keeps or drops the entry of a key
    according to the predicate alone. *)
Lemma get_filter (P : string * V -> bool) k m :
  NoDup (JsMap.keys m) ->
  JsMap.get k (List.filter P m)
  = match JsMap.get k m with
    | Some v => if P (k, v) then Some v else None
    | None => None
    end.
Proof.
  intros Hnd. destruct (JsMap.get k m) as [v|] eqn:Hget.
  - destruct (P (k, v)) eqn:HP.
    + apply elem_get; [now apply NoDup_keys_filter|].
      apply elem_filter. split; [now apply get_Some_elem|assumption].
    + destruct (JsMap.get k (List.filter P m)) as [v'|] eqn:Hget';
        [|reflexivity].
      apply get_Some_elem, elem_filter in Hget' as [Hin HP'].
      apply (elem_get _ _ _ Hnd) in Hin. congruence.
  - apply get_None_keys. apply get_None_keys in Hget.
    intros Hin. apply Hget.
    eapply elem_of_sublist; [exact Hin|apply keys_filter_sublist].
Qed.

Lemma length_set k v m :
  (length (JsMap.set k v m) <= S (length m))%nat.
Proof.
  induction m as [|[k0 v0] m IH]; cbn [JsMap.set length]; [lia|].
  destruct (String.eqb k0 k); cbn [length]; lia.
Qed.

Lemma length_delete k m : (length (JsMap.delete k m) <= length m)%nat.
Proof.
  induction m as [|[k0 v0] m IH]; cbn [JsMap.delete length]; [lia|].
  destruct (String.eqb k0 k); cbn [length]; lia.
Qed.

Lemma length_delete_present k m :
  k ∈ JsMap.keys m -> (length (JsMap.delete k m) < length m)%nat.
Proof.
  unfold JsMap.keys.
  induction m as [|[k0 v0] m IH]; cbn [JsMap.delete length map fst].
  - intros H. now apply elem_of_nil in H.
  - intros H. destruct (String.eqb_spec k0 k) as [->|Hne].
    + pose proof (length_delete k m). lia.
    + apply elem_of_cons in H as [?|H]; [congruence|].
      cbn [length]. specialize (IH H). lia.
Qed.
Lemma keys_set k v m :
  JsMap.keys (JsMap.set k v m)
  = if JsMap.has k m then JsMap.keys m else JsMap.keys m ++ [k].
Proof.
  unfold JsMap.keys, JsMap.has.
  induction m as [|[k0 v0] m IH]; cbn [JsMap.set JsMap.get map fst app].
  - reflexivity.
  - destruct (String.eqb_spec k0 k) as [->|Hne]; cbn [map fst].
    + reflexivity.
    + rewrite IH. now destruct (JsMap.get k m).
Qed.

Lemma keys_delete_sublist k m :
  JsMap.keys (JsMap.delete k m) `sublist_of` JsMap.keys m.
Proof.
  unfold JsMap.keys.
  induction m as [|[k0 v0] m IH]; cbn [JsMap.delete map fst]; [constructor|].
  destruct (String.eqb k0 k); cbn [map fst];
    [now apply sublist_cons|now apply sublist_skip].
Qed.

Lemma NoDup_keys_set k v m :
  NoDup (JsMap.keys m) -> NoDup (JsMap.keys (JsMap.set k v m)).
Proof.
  intros Hnd. rewrite keys_set. unfold JsMap.has.
  destruct (JsMap.get k m) eqn:Hget; [assumption|].
  apply get_None_keys in Hget.
  apply NoDup_app. split; [assumption|]. split.
  - intros x Hx [->|[]%elem_of_nil]%elem_of_cons. contradiction.
  - apply NoDup_singleton.
Qed.

Lemma NoDup_keys_delete k m :
  NoDup (JsMap.keys m) -> NoDup (JsMap.keys (JsMap.delete k m)).
Proof.
  intros Hnd. eapply sublist_NoDup; [exact Hnd|apply keys_delete_sublist].
Qed.
End Facts.
End JsMapFacts.

(* ===================================================================== *)
(** * Properties of the cache *)
(* ===================================================================== *)

Module CacheProofs.
Import Cache.

Section Generic.
Context {T : Type}.
Implicit Types (st : State T) (entry : CacheEntry T).

Lemma cache_recordResponseTime rt st :
  cache (recordResponseTime rt st) = cache st.
Proof. reflexivity. Qed.

Lemma hits_recordResponseTime rt st :
  hits (stats (recordResponseTime rt st)) = hits (stats st).
Proof. reflexivity. Qed.

Lemma misses_recordResponseTime rt st :
  misses (stats (recordResponseTime rt st)) = misses (stats st).
Proof. reflexivity. Qed.

Lemma cache_removeExpiredEntries now st :
  cache (removeExpiredEntries now st) = List.filter (isLive now) (cache st).
Proof.
  unfold removeExpiredEntries.
  destruct (0 <? _)%nat; reflexivity.
Qed.

Lemma cache_evictLRU now st :
  cache (evictLRU now st)
  = if bool_decide (JsMap.size (cache st) >= MAX_CACHE_SIZE) then
      if negb (String.eqb (fst (scanOldest (cache st) "" now)) "")
      then JsMap.delete (fst (scanOldest (cache st) "" now)) (cache st)
      else cache st
    else cache st.
Proof.
  unfold evictLRU. case_bool_decide; [|reflexivity].
  destruct (scanOldest (cache st) "" now) as [oldestKey oldestTime].
  cbn [fst]. destruct (negb _); reflexivity.
Qed.

Lemma cache_setCache now key v ttl0 st :
  cache (setCache now key v ttl0 st)
  = JsMap.set key
      {| value := v; timestamp := now;
         ttl := match ttl0 with Some t => t | None => CACHE_TTL end |}
      (cache (evictLRU now (removeExpiredEntries now st))).
Proof. reflexivity. Qed.

(** The scan returns a lower bound of all timestamps and of the start
    value; it either keeps the start pair, or names an entry that has
    the returned timestamp, which is then below the start value. *)
Lemma scanOldest_spec (entries : list (string * CacheEntry T)) :
  forall oldestKey oldestTime,
    let r := scanOldest entries oldestKey oldestTime in
    snd r <= oldestTime
    /\ (forall k e, (k, e) ∈ entries -> snd r <= timestamp e)
    /\ (r = (oldestKey, oldestTime)
        \/ exists e, (fst r, e) ∈ entries /\ timestamp e = snd r
                     /\ snd r < oldestTime).
Proof.
  induction entries as [|[key entry] rest IH]; intros k0 t0; cbn zeta.
  - cbn [scanOldest snd]. split; [lia|]. split; [|now left].
    intros k e Hin. now apply elem_of_nil in Hin.
  - cbn [scanOldest]. case_bool_decide as Hlt.
    + destruct (IH key (timestamp entry)) as (Hle & Hall & Hwho).
      split; [lia|]. split.
      * intros k e [[= -> ->]|Hin]%elem_of_cons; [exact Hle|eauto].
      * right. destruct Hwho as [->|(e & Hin & Hts & Hlt')].
        -- exists entry. cbn [fst snd].
           split; [apply list_elem_of_here|]. split; [reflexivity|lia].
        -- exists e. split; [now apply list_elem_of_further|].
           split; [assumption|lia].
    + destruct (IH k0 t0) as (Hle & Hall & Hwho).
      split; [lia|]. split.
      * intros k e [[= -> ->]|Hin]%elem_of_cons; [lia|eauto].
      * destruct Hwho as [->|(e & Hin & Hts & Hlt')]; [now left|].
        right. exists e. split; [now apply list_elem_of_further|].
        split; assumption.
Qed.

(** [evictLRU] leaves the map alone or deletes one key, which then
    belongs to an entry of least timestamp. *)
Lemma evictLRU_cases now st :
  cache (evictLRU now st) = cache st
  \/ exists k e,
       cache (evictLRU now st) = JsMap.delete k (cache st)
       /\ MAX_CACHE_SIZE <= JsMap.size (cache st)
       /\ k <> ""%string
       /\ (k, e) ∈ cache st
       /\ forall k' e', (k', e') ∈ cache st -> timestamp e <= timestamp e'.
Proof.
  rewrite cache_evictLRU. case_bool_decide as Hfull; [|now left].
  destruct (String.eqb_spec (fst (scanOldest (cache st) "" now)) "")
    as [Heq|Hne]; cbn [negb]; [now left|].
  right.
  destruct (scanOldest_spec (cache st) ""%string now) as (_ & Hall & Hwho).
  destruct Hwho as [Hstart|(e & Hin & Hts & _)].
  - rewrite Hstart in Hne. now cbn in Hne.
  - exists (fst (scanOldest (cache st) "" now)), e.
    split; [reflexivity|]. split; [lia|]. split; [assumption|].
    split; [assumption|]. intros k' e' Hin'. rewrite Hts. eauto.
Qed.

(** When the map is full, holds no empty key and some timestamp lies
    before the current time, a key is deleted. *)
Lemma evictLRU_evicts now st :
  MAX_CACHE_SIZE <= JsMap.size (cache st) ->
  ""%string ∉ JsMap.keys (cache st) ->
  (exists k e, (k, e) ∈ cache st /\ timestamp e < now) ->
  exists k e,
    cache (evictLRU now st) = JsMap.delete k (cache st)
    /\ (k, e) ∈ cache st
    /\ forall k' e', (k', e') ∈ cache st -> timestamp e <= timestamp e'.
Proof.
  intros Hfull Hkeys (k1 & e1 & Hin1 & Hold).
  rewrite cache_evictLRU. rewrite bool_decide_eq_true_2 by lia.
  destruct (scanOldest_spec (cache st) ""%string now) as (_ & Hall & Hwho).
  destruct Hwho as [Hstart|(e & Hin & Hts & _)].
  - specialize (Hall _ _ Hin1). rewrite Hstart in Hall. cbn in Hall. lia.
  - exists (fst (scanOldest (cache st) "" now)), e.
    destruct (String.eqb_spec (fst (scanOldest (cache st) "" now)) "")
      as [Heq|Hne]; cbn [negb].
    + exfalso. apply Hkeys. rewrite <- Heq. unfold JsMap.keys.
      apply list_elem_of_fmap. now exists (fst (scanOldest (cache st) "" now), e).
    + split; [reflexivity|]. split; [assumption|].
      intros k' e' Hin'. rewrite Hts. eauto.
Qed.

Lemma getFromCache_hit (now : Z) (key : string) (st : State T) v from ttl0 :
  JsMap.get key (cache st)
  = Some {| value := v; timestamp := from; ttl := ttl0 |} ->
  now - from <= ttl0 ->
  fst (getFromCache now key st) = Some v
  /\ JsMap.get key (cache (snd (getFromCache now key st)))
     = Some {| value := v; timestamp := now; ttl := ttl0 |}.
Proof.
  intros Hget Hle. unfold getFromCache. rewrite Hget.
  unfold isExpired. cbn [timestamp ttl].
  rewrite bool_decide_eq_false_2 by lia. cbn [fst snd value ttl].
  split; [reflexivity|].
  rewrite cache_recordResponseTime. cbn [cache withCache bumpHits].
  rewrite JsMapFacts.get_set, String.eqb_refl. reflexivity.
Qed.

Lemma hits_keep_value (key : string) (v : T) (ttl0 : Z) (gets : list Z) :
  forall (from now : Z) (st : State T),
    JsMap.get key (cache st)
    = Some {| value := v; timestamp := from; ttl := ttl0 |} ->
    hitsInTime ttl0 from gets now ->
    fst (getFromCache now key (run (map (fun t => OpGet t key) gets) st))
    = Some v.
Proof.
  induction gets as [|t gets IH]; intros from now st Hget Hin;
    cbn [hitsInTime] in Hin.
  - now apply (getFromCache_hit now key st v from ttl0).
  - destruct Hin as [Hle Hrest]. cbn [map].
    change (run (OpGet t key :: ?ops) st)
      with (run ops (snd (getFromCache t key st))).
    apply (IH t); [|exact Hrest].
    now apply (getFromCache_hit t key st v from ttl0).
Qed.

(** C4. The ttl of an entry is counted from its last hit, not from its
    insertion: after a write, a get that follows the access before it by
    at most ttl returns the value, however long ago the entry was written.
    With gets in time order and ttl or more elapsed since the insertion
    this contradicts the visibility rule. *)
Theorem hits_restart_ttl (st : State T) (key : string) (v : T)
    (ttl0 insertedAt : Z) (gets : list Z) (now : Z) :
  hitsInTime ttl0 insertedAt gets now ->
  fst (getFromCache now key
         (run (map (fun t => OpGet t key) gets)
              (setCache insertedAt key v (Some ttl0) st)))
  = Some v
  /\ (ascending insertedAt gets now -> ttl0 <= now - insertedAt ->
      ~ @ttlVisibility T).
Proof.
  intros Hin.
  assert (Hsome : fst (getFromCache now key
                         (run (map (fun t => OpGet t key) gets)
                              (setCache insertedAt key v (Some ttl0) st)))
                  = Some v).
  { apply (hits_keep_value key v ttl0 gets insertedAt); [|exact Hin].
    rewrite cache_setCache, JsMapFacts.get_set, String.eqb_refl.
    reflexivity. }
  split; [exact Hsome|].
  intros Hasc Hold Hclaim.
  rewrite (Hclaim st key v ttl0 insertedAt gets now Hasc Hold) in Hsome.
  discriminate.
Qed.
(** What one get does: it returns the value of a key exactly when the key
    is present and at most ttl milliseconds have passed since the timestamp
    of its entry; a hit sets that timestamp to the time of the get,
    setCache sets it to the time of the write; otherwise the get returns
    null, counts a miss and leaves the key absent. *)
Theorem getFromCache_visibility (now : Z) (key : string) (st : State T) :
  let r := getFromCache now key st in
  (forall v, fst r = Some v
             <-> exists entry,
                   JsMap.get key (cache st) = Some entry
                   /\ value entry = v
                   /\ now - timestamp entry <= ttl entry)
  /\ (forall entry,
        JsMap.get key (cache st) = Some entry ->
        now - timestamp entry <= ttl entry ->
        JsMap.get key (cache (snd r))
        = Some {| value := value entry; timestamp := now; ttl := ttl entry |}
        /\ hits (stats (snd r)) = hits (stats st) + 1
        /\ misses (stats (snd r)) = misses (stats st))
  /\ (fst r = None ->
      JsMap.get key (cache (snd r)) = None
      /\ misses (stats (snd r)) = misses (stats st) + 1
      /\ hits (stats (snd r)) = hits (stats st))
  /\ (forall insertedAt v ttl0,
        JsMap.get key (cache (setCache insertedAt key v (Some ttl0) st))
        = Some {| value := v; timestamp := insertedAt; ttl := ttl0 |}).
Proof.
  cbv zeta. split; [|split; [|split]].
  - intros v. unfold getFromCache.
    destruct (JsMap.get key (cache st)) as [entry|] eqn:Hget.
    + unfold isExpired. case_bool_decide as Hexp; cbn [fst snd value].
      * split; [discriminate|]. intros (e & [= <-] & _ & Hle). lia.
      * split.
        -- intros [= <-]. exists entry. repeat split. lia.
        -- intros (e & [= <-] & <- & _). reflexivity.
    + cbn [fst]. split; [discriminate|]. intros (e & [=] & _).
  - intros entry Hget Hle. unfold getFromCache. rewrite Hget.
    unfold isExpired. rewrite bool_decide_eq_false_2 by lia. cbn [snd].
    rewrite cache_recordResponseTime, hits_recordResponseTime,
      misses_recordResponseTime.
    cbn [cache stats withCache bumpHits hits misses value ttl].
    rewrite JsMapFacts.get_set, String.eqb_refl. repeat split.
  - unfold getFromCache.
    destruct (JsMap.get key (cache st)) as [entry|] eqn:Hget.
    + destruct (isExpired now entry); cbn [fst snd]; [|discriminate].
      intros _.
      rewrite cache_recordResponseTime, hits_recordResponseTime,
        misses_recordResponseTime.
      cbn [cache stats withCache bumpMisses hits misses].
      rewrite JsMapFacts.get_delete, String.eqb_refl. repeat split.
    + cbn [fst snd]. intros _.
      rewrite cache_recordResponseTime, hits_recordResponseTime,
        misses_recordResponseTime.
      cbn [cache stats bumpMisses hits misses]. repeat split. exact Hget.
  - intros t0 v ttl0. rewrite cache_setCache, JsMapFacts.get_set.
    now rewrite String.eqb_refl.
Qed.

(** With "expired" and "last access" both read off the one timestamp
    field: setCache removes every expired entry; it removes a live entry
    only when the live entries alone fill the cache, and then that entry
    has the oldest timestamp of all live entries and is the only live
    entry removed. *)
Theorem setCache_eviction_policy (now : Z) (key : string) (v : T)
    (ttl0 : option Z) (st : State T) :
  NoDup (JsMap.keys (cache st)) ->
  let st' := setCache now key v ttl0 st in
  (forall k e,
      JsMap.get k (cache st) = Some e -> isExpired now e = true ->
      k <> key -> JsMap.get k (cache st') = None)
  /\ (forall k e,
        JsMap.get k (cache st) = Some e -> isExpired now e = false ->
        k <> key -> JsMap.get k (cache st') = None ->
        MAX_CACHE_SIZE <= Z.of_nat (length (liveEntries now st))
        /\ (forall k' e',
              JsMap.get k' (cache st) = Some e' ->
              isExpired now e' = false ->
              timestamp e <= timestamp e')
        /\ (forall k' e',
              JsMap.get k' (cache st) = Some e' ->
              isExpired now e' = false ->
              k' <> k -> k' <> key ->
              JsMap.get k' (cache st') = Some e'))
  /\ (MAX_CACHE_SIZE <= Z.of_nat (length (liveEntries now st)) ->
      ""%string ∉ JsMap.keys (cache st) ->
      (exists k e, JsMap.get k (cache st) = Some e
                   /\ isExpired now e = false /\ timestamp e < now) ->
      exists k e,
        JsMap.get k (cache st) = Some e
        /\ isExpired now e = false
        /\ (forall k' e',
              JsMap.get k' (cache st) = Some e' ->
              isExpired now e' = false ->
              timestamp e <= timestamp e')
        /\ (k = key \/ JsMap.get k (cache st') = None)).
Proof.
  intros Hnd st'. subst st'.
  set (st1 := removeExpiredEntries now st).
  assert (Hc1 : cache st1 = liveEntries now st)
    by apply cache_removeExpiredEntries.
  assert (Hnd1 : NoDup (JsMap.keys (cache st1)))
    by (rewrite Hc1; now apply JsMapFacts.NoDup_keys_filter).
  assert (Hget1 : forall k,
    JsMap.get k (cache st1)
    = match JsMap.get k (cache st) with
      | Some e => if isExpired now e then None else Some e
      | None => None
      end).
  { intros k. rewrite Hc1. unfold liveEntries.
    rewrite JsMapFacts.get_filter by assumption.
    destruct (JsMap.get k (cache st)) as [e|]; [|reflexivity].
    unfold isLive. cbn [snd]. now destruct (isExpired now e). }
  assert (Hfinal : forall k, k <> key ->
    JsMap.get k (cache (setCache now key v ttl0 st))
    = JsMap.get k (cache (evictLRU now st1))).
  { intros k Hne. rewrite cache_setCache, JsMapFacts.get_set.
    destruct (String.eqb_spec key k); [congruence|reflexivity]. }
  split; [|split].
  - intros k e Hget Hexp Hne. rewrite Hfinal by assumption.
    assert (Hk1 : JsMap.get k (cache st1) = None)
      by (now rewrite Hget1, Hget, Hexp).
    destruct (evictLRU_cases now st1) as [->|(k0 & e0 & -> & _)];
      [assumption|].
    rewrite JsMapFacts.get_delete. now destruct (String.eqb k0 k).
  - intros k e Hget Hlive Hne Hgone. rewrite Hfinal in Hgone by assumption.
    assert (Hk1 : JsMap.get k (cache st1) = Some e)
      by (now rewrite Hget1, Hget, Hlive).
    destruct (evictLRU_cases now st1)
      as [Hsame|(k0 & e0 & Hdel & Hfull & _ & Hin0 & Hmin)];
      [congruence|].
    rewrite Hdel, JsMapFacts.get_delete in Hgone.
    destruct (String.eqb_spec k0 k) as [Heq|Hne0]; [|congruence].
    subst k0. clear Hgone.
    apply (JsMapFacts.elem_get _ _ _ Hnd1) in Hin0.
    assert (e0 = e) by congruence. subst e0.
    split; [|split].
    + unfold JsMap.size in Hfull. now rewrite Hc1 in Hfull.
    + intros k' e' Hget' Hlive'. apply (Hmin k').
      apply JsMapFacts.get_Some_elem. now rewrite Hget1, Hget', Hlive'.
    + intros k' e' Hget' Hlive' Hnek Hnekey.
      rewrite Hfinal, Hdel, JsMapFacts.get_delete by assumption.
      destruct (String.eqb_spec k k'); [congruence|].
      now rewrite Hget1, Hget', Hlive'.
  - intros Hfull Hkeys (k1 & e1 & Hget & Hlive & Hold).
    destruct (evictLRU_evicts now st1) as (k0 & e0 & Hdel & Hin0 & Hmin).
    + unfold JsMap.size. now rewrite Hc1.
    + intros Hin. apply Hkeys. rewrite Hc1 in Hin.
      eapply elem_of_sublist; [exact Hin|apply JsMapFacts.keys_filter_sublist].
    + exists k1, e1. split; [|assumption].
      apply JsMapFacts.get_Some_elem. now rewrite Hget1, Hget, Hlive.
    + apply (JsMapFacts.elem_get _ _ _ Hnd1) in Hin0.
      rewrite Hget1 in Hin0.
      destruct (JsMap.get k0 (cache st)) as [e|] eqn:Hget0; [|discriminate].
      destruct (isExpired now e) eqn:Hlive0; [discriminate|].
      injection Hin0 as ->.
      exists k0, e0. repeat split; try assumption.
      * intros k' e' Hget' Hlive'. apply (Hmin k').
        apply JsMapFacts.get_Some_elem. now rewrite Hget1, Hget', Hlive'.
      * destruct (decide (k0 = key)) as [?|Hne]; [now left|right].
        rewrite Hfinal, Hdel, JsMapFacts.get_delete by assumption.
        now rewrite String.eqb_refl.
Qed.

(** A write keeps the cache within its capacity when no key is the
    empty string and every stored timestamp lies before the time of the
    write. *)
Lemma setCache_within_capacity now key v ttl0 st :
  JsMap.size (cache st) <= MAX_CACHE_SIZE ->
  ""%string ∉ JsMap.keys (cache st) ->
  (forall k e, (k, e) ∈ cache st -> timestamp e < now) ->
  JsMap.size (cache (setCache now key v ttl0 st)) <= MAX_CACHE_SIZE.
Proof.
  intros Hsize Hkeys Hold.
  rewrite cache_setCache. unfold JsMap.size in *.
  set (st1 := removeExpiredEntries now st).
  pose proof (cache_removeExpiredEntries now st) as Hc1. fold st1 in Hc1.
  assert (Hlen1 : (length (cache st1) <= length (cache st))%nat)
    by (rewrite Hc1; apply List.filter_length_le).
  pose proof (JsMapFacts.length_set key
    {| value := v; timestamp := now;
       ttl := match ttl0 with Some t => t | None => CACHE_TTL end |}
    (cache (evictLRU now st1))) as Hset.
  destruct (decide (MAX_CACHE_SIZE <= Z.of_nat (length (cache st1))))
    as [Hfull|Hroom].
  - destruct (evictLRU_evicts now st1) as (k0 & e0 & Hdel & Hin0 & _).
    + exact Hfull.
    + intros Hin. apply Hkeys. rewrite Hc1 in Hin.
      eapply elem_of_sublist; [exact Hin|apply JsMapFacts.keys_filter_sublist].
    + destruct (cache st1) as [|[k1 e1] rest] eqn:Hcache;
        [cbn in Hfull; unfold MAX_CACHE_SIZE in Hfull; lia|].
      exists k1, e1. split; [apply list_elem_of_here|].
      apply (Hold k1).
      assert (Hin : (k1, e1) ∈ List.filter (isLive now) (cache st))
        by (rewrite <- Hc1; apply list_elem_of_here).
      now apply JsMapFacts.elem_filter in Hin as [Hin _].
    + rewrite Hdel in Hset.
      assert (Hk0 : k0 ∈ JsMap.keys (cache st1)).
      { unfold JsMap.keys. apply list_elem_of_fmap. now exists (k0, e0). }
      apply JsMapFacts.length_delete_present in Hk0.
      rewrite Hdel. lia.
  - rewrite cache_evictLRU, bool_decide_eq_false_2 by (unfold JsMap.size; lia).
    rewrite cache_evictLRU, bool_decide_eq_false_2 in Hset
      by (unfold JsMap.size; lia).
    lia.
Qed.
Lemma filter_all_true {A : Type} (f : A -> bool) (l : list A) :
  Forall (fun x => f x = true) l -> List.filter f l = l.
Proof.
  induction 1 as [|x l Hx _ IH]; [reflexivity|].
  cbn [List.filter]. now rewrite Hx, IH.
Qed.

Lemma scanOldest_idle (entries : list (string * CacheEntry T)) :
  forall oldestKey oldestTime,
    Forall (fun kv => oldestTime <= timestamp (snd kv)) entries ->
    scanOldest entries oldestKey oldestTime = (oldestKey, oldestTime).
Proof.
  induction entries as [|[k e] rest IH]; intros ok ot Hall; [reflexivity|].
  apply Forall_cons in Hall as [Hle Hrest]. cbn [snd] in Hle.
  cbn [scanOldest]. rewrite bool_decide_eq_false_2 by lia. now apply IH.
Qed.

Lemma setCache_same_instant (now : Z) (key : string) (v : T)
    (ttl0 : option Z) (st : State T) :
  Forall (fun kv => now <= timestamp (snd kv) /\ 0 <= ttl (snd kv))
         (cache st) ->
  cache (setCache now key v ttl0 st)
  = JsMap.set key {| value := v; timestamp := now;
                     ttl := default CACHE_TTL ttl0 |} (cache st).
Proof.
  intros Hall.
  assert (Hsweep : cache (removeExpiredEntries now st) = cache st).
  { rewrite cache_removeExpiredEntries. apply filter_all_true.
    eapply Forall_impl; [exact Hall|]. intros [k e] [Hts Httl].
    cbn [snd] in Hts, Httl. unfold isLive, isExpired. cbn [snd].
    rewrite bool_decide_eq_false_2 by lia. reflexivity. }
  rewrite cache_setCache, cache_evictLRU, Hsweep.
  rewrite scanOldest_idle
    by (eapply Forall_impl; [exact Hall|]; intros kv [Hts _]; exact Hts).
  cbn [fst String.eqb negb].
  destruct ttl0; now case_bool_decide.
Qed.

Lemma setCache_oldest_unnamed (now : Z) (key : string) (v : T)
    (ttl0 : option Z) (st : State T) (oldest : CacheEntry T) :
  Forall (fun kv => isExpired now (snd kv) = false) (cache st) ->
  (""%string, oldest) ∈ cache st ->
  (forall k e, (k, e) ∈ cache st -> k <> ""%string ->
               timestamp oldest < timestamp e) ->
  cache (setCache now key v ttl0 st)
  = JsMap.set key {| value := v; timestamp := now;
                     ttl := default CACHE_TTL ttl0 |} (cache st).
Proof.
  intros Hall Hin Hleast.
  assert (Hsweep : cache (removeExpiredEntries now st) = cache st).
  { rewrite cache_removeExpiredEntries. apply filter_all_true.
    eapply Forall_impl; [exact Hall|]. intros kv Hkv.
    unfold isLive. now rewrite Hkv. }
  rewrite cache_setCache, cache_evictLRU, Hsweep.
  assert (Hkey : fst (scanOldest (cache st) "" now) = ""%string).
  { destruct (scanOldest_spec (cache st) "" now) as (_ & Hlow & Hwhich).
    cbv zeta in Hlow, Hwhich.
    destruct Hwhich as [->|(e & He & Hts & _)]; [reflexivity|].
    destruct (String.eqb_spec (fst (scanOldest (cache st) "" now)) "")
      as [Heq|Hne]; [exact Heq|].
    pose proof (Hleast _ _ He Hne). pose proof (Hlow _ _ Hin). lia. }
  rewrite Hkey. cbn [String.eqb negb].
  destruct ttl0; now case_bool_decide.
Qed.
End Generic.

(** The keys of the cache stay pairwise distinct under every operation,
    so the hypothesis of [setCache_eviction_policy] holds in every state a
    caller can produce. *)
Lemma run_keys_NoDup {T : Type} (ops : list (@Op T)) : forall st : State T,
  NoDup (JsMap.keys (cache st)) -> NoDup (JsMap.keys (cache (run ops st))).
Proof.
  induction ops as [|op ops IH]; intros st Hnd; [exact Hnd|].
  change (run (op :: ops) st) with (run ops (apply op st)).
  apply IH. destruct op as [now key v ttl0|now key|now key|now];
    cbn [apply].
  - rewrite cache_setCache. apply JsMapFacts.NoDup_keys_set.
    destruct (evictLRU_cases now (removeExpiredEntries now st))
      as [->|(k & e & -> & _)].
    + rewrite cache_removeExpiredEntries.
      now apply JsMapFacts.NoDup_keys_filter.
    + apply JsMapFacts.NoDup_keys_delete.
      rewrite cache_removeExpiredEntries.
      now apply JsMapFacts.NoDup_keys_filter.
  - unfold getFromCache.
    destruct (JsMap.get key (cache st)) as [entry|]; [|exact Hnd].
    destruct (isExpired now entry); cbn [snd];
      rewrite cache_recordResponseTime; cbn [cache withCache bumpMisses bumpHits].
    + now apply JsMapFacts.NoDup_keys_delete.
    + now apply JsMapFacts.NoDup_keys_set.
  - cbn [deleteFromCache snd]. rewrite cache_recordResponseTime.
    cbn [cache withCache]. now apply JsMapFacts.NoDup_keys_delete.
  - cbn. constructor.
Qed.

(** A full cache of a hundred keys "a", "aa", ... written at times 1 to
    100: the write of a new key at time 200 removes "a", and nothing else. *)
Lemma setCache_eviction_policy_witness :
  MAX_CACHE_SIZE
    <= Z.of_nat (length (liveEntries 200 (run (fillFrom Z.of_nat 1 100) initial)))
  /\ (forall k' e',
        JsMap.get k' (cache (run (fillFrom Z.of_nat 1 100) initial)) = Some e' ->
        isExpired 200 e' = false ->
        1 <= timestamp e')
  /\ (forall k' e',
        JsMap.get k' (cache (run (fillFrom Z.of_nat 1 100) initial)) = Some e' ->
        isExpired 200 e' = false ->
        k' <> "a"%string -> k' <> "new"%string ->
        JsMap.get k'
          (cache (setCache 200 "new" "v"%string None
                    (run (fillFrom Z.of_nat 1 100) initial)))
        = Some e').
Proof.
  assert (Hnd : NoDup (JsMap.keys (cache (run (fillFrom Z.of_nat 1 100) initial)))).
  { apply (bool_decide_unpack _). vm_compute. exact I. }
  destruct (setCache_eviction_policy 200 "new" "v"%string None
              (run (fillFrom Z.of_nat 1 100) initial) Hnd) as (_ & Hlru & _).
  apply (Hlru "a"%string {| value := "v"%string; timestamp := 1; ttl := 60000 |}).
  - vm_compute. reflexivity.
  - vm_compute. reflexivity.
  - discriminate.
  - vm_compute. reflexivity.
Defined.

(** At exactly ttl after the write the entry is still returned; one
    millisecond later it is not. *)
Example get_at_ttl_boundary :
  fst (getFromCache 60000 "user:1"
         (setCache 0 "user:1" "v"%string (Some 60000) initial)) = Some "v"%string
  /\ fst (getFromCache 60001 "user:1"
            (setCache 0 "user:1" "v"%string (Some 60000) initial)) = None.
Proof. split; vm_compute; reflexivity. Qed.

Lemma getFromCache_visibility_witness :
  fst (getFromCache 50000 "user:1"
         (setCache 0 "user:1" "v"%string (Some 60000) initial)) = Some "v"%string.
Proof.
  apply (proj1 (getFromCache_visibility 50000 "user:1"
                  (setCache 0 "user:1" "v"%string (Some 60000) initial))).
  exists {| value := "v"%string; timestamp := 0; ttl := 60000 |}.
  repeat split. cbn. lia.
Defined.

(** A key written at time 0 with a ttl of 60 s and read at 50 s is still
    returned at 100 s. *)
Lemma hits_restart_ttl_witness :
  fst (getFromCache 100000 "user:1"
         (run (map (fun t => OpGet t "user:1"%string) [50000])
              (setCache 0 "user:1" "v"%string (Some 60000) initial)))
  = Some "v"%string
  /\ ~ @ttlVisibility string.
Proof.
  destruct (hits_restart_ttl initial "user:1"%string "v"%string 60000 0
              [50000] 100000) as [Hserved Hclaim].
  - cbn. lia.
  - split; [exact Hserved|]. apply Hclaim; cbn; lia.
Defined.

(** C5. The eviction of setCache misses the entry it should remove.
    When every entry carries the time of the write (writes within one
    millisecond), or when the least recently used entry has the empty key,
    a write into a full cache evicts nothing.  And an entry that was
    written longer ago than its ttl but read since is kept and served,
    while the write evicts an entry younger than its ttl. *)
Theorem eviction_misses_its_target :
  (forall (T : Type) (now : Z) (key : string) (v : T) (ttl0 : option Z)
          (st : State T),
      Forall (fun kv => now <= timestamp (snd kv) /\ 0 <= ttl (snd kv))
             (cache st) ->
      cache (setCache now key v ttl0 st)
      = JsMap.set key {| value := v; timestamp := now;
                         ttl := default CACHE_TTL ttl0 |} (cache st))
  /\ (forall (T : Type) (now : Z) (key : string) (v : T) (ttl0 : option Z)
             (st : State T) (oldest : CacheEntry T),
        Forall (fun kv => isExpired now (snd kv) = false) (cache st) ->
        (""%string, oldest) ∈ cache st ->
        (forall k e, (k, e) ∈ cache st -> k <> ""%string ->
                     timestamp oldest < timestamp e) ->
        cache (setCache now key v ttl0 st)
        = JsMap.set key {| value := v; timestamp := now;
                           ttl := default CACHE_TTL ttl0 |} (cache st))
  /\ (let st := run readAfterFill initial in
      let st' := setCache 100000 "new" "v"%string None st in
      JsMap.size (cache st) = MAX_CACHE_SIZE
      /\ lastWrite "old" readAfterFill = Some 0
      /\ 100000 - 0 > CACHE_TTL
      /\ fst (getFromCache 100000 "old" st') = Some "v"%string
      /\ lastWrite "a" readAfterFill = Some 40001
      /\ 100000 - 40001 <= CACHE_TTL
      /\ JsMap.get "a" (cache st)
         = Some {| value := "v"%string; timestamp := 40001; ttl := CACHE_TTL |}
      /\ JsMap.get "a" (cache st') = None).
Proof.
  split; [|split].
  - intros T. apply setCache_same_instant.
  - intros T. apply setCache_oldest_unnamed.
  - vm_compute. repeat split; discriminate.
Qed.

(** A hundred keys written in the same millisecond fill the cache; the
    next write in that millisecond evicts none of them. *)
Lemma eviction_misses_its_target_witness :
  JsMap.size (cache (run (fillFrom (fun _ => 7) 1 100) initial))
  = MAX_CACHE_SIZE
  /\ cache (setCache 7 "new" "v"%string None
              (run (fillFrom (fun _ => 7) 1 100) initial))
     = JsMap.set "new" {| value := "v"%string; timestamp := 7;
                          ttl := default CACHE_TTL None |}
         (cache (run (fillFrom (fun _ => 7) 1 100) initial)).
Proof.
  split; [vm_compute; reflexivity|].
  apply (proj1 eviction_misses_its_target string 7 "new"%string "v"%string
           None (run (fillFrom (fun _ => 7) 1 100) initial)).
  apply (bool_decide_unpack _). vm_compute. exact I.
Defined.

(** C6. The capacity bound is broken by a hundred and one writes when the
    oldest entry has the empty key, and also when all writes fall into the
    same millisecond: in both cases evictLRU finds nothing to delete. *)
Theorem capacity_exceeded :
  JsMap.size (cache (run (fillFrom Z.of_nat 0 101) initial)) = 101
  /\ JsMap.size (cache (run (fillFrom (fun _ => 7) 1 101) initial)) = 101
  /\ size (stats (run (fillFrom Z.of_nat 0 101) initial)) = 101
  /\ MAX_CACHE_SIZE = 100.
Proof. repeat split; vm_compute; reflexivity. Qed.

End CacheProofs.

(* ===================================================================== *)
(** * Properties of the job queue *)
(* ===================================================================== *)

Module QueueProofs.
Import Queue.

(** ** Callers that arrive before any result exists (C1) *)

(** With an empty queue, no stored result and a free slot, the synchronous
    part of [addJob] calls the processor for the new job. *)
Lemma addJob_calls_processor now rnd user st :
  jobQueue st = [] ->
  jobResults st = [] ->
  JsMap.size (activeJobs st) < maxConcurrency QUEUE_CONFIG ->
  let st' := snd (addJob now rnd user st) in
  effects st' = effects st ++ [Invoked (nextTask st) (createJob now rnd user)]
  /\ jobQueue st' = []
  /\ jobResults st' = []
  /\ activeJobs st'
     = JsMap.set (generateJobId now rnd) (nextTask st) (activeJobs st).
Proof.
  intros Hq Hr Hfree. destruct st as [q a r s t n e].
  cbn [jobQueue jobResults activeJobs] in Hq, Hr, Hfree. subst q r.
  unfold addJob, processQueue. cbn [snd].
  cbn [withStats withJobQueue updateQueueStats jobQueue activeJobs jobResults
       queueStats tasks nextTask effects app processQueue_loop].
  rewrite bool_decide_eq_true_2 by exact Hfree.
  cbn. repeat split.
Qed.

Lemma invocationsFor_snoc user st st' h job :
  effects st' = effects st ++ [Invoked h job] ->
  userId job = user ->
  invocationsFor user st' = S (invocationsFor user st).
Proof.
  intros He Hu. unfold invocationsFor. rewrite He, List.filter_app, length_app.
  cbn [List.filter]. rewrite Hu, Z.eqb_refl. cbn [length]. lia.
Qed.

Lemma invocations_snoc st st' h job :
  effects st' = effects st ++ [Invoked h job] ->
  invocations st' = S (invocations st).
Proof.
  intros He. unfold invocations. rewrite He, List.filter_app, length_app.
  cbn [List.filter isInvoked length]. lia.
Qed.

Lemma run_cons ev evs st : run (ev :: evs) st = run evs (step st ev).
Proof. reflexivity. Qed.

Lemma burst_invokes_each user calls : forall st,
  jobQueue st = [] ->
  jobResults st = [] ->
  JsMap.size (activeJobs st) + Z.of_nat (length calls)
    <= maxConcurrency QUEUE_CONFIG ->
  let st' := run (burstOf user calls) st in
  invocationsFor user st' = (invocationsFor user st + length calls)%nat
  /\ invocations st' = (invocations st + length calls)%nat
  /\ jobQueue st' = []
  /\ jobResults st' = [].
Proof.
  induction calls as [|[now rnd] calls IH]; intros st Hq Hr Hfree.
  - cbn. repeat split; try assumption; lia.
  - cbn zeta. cbn [burstOf map fst snd]. fold (burstOf user calls).
    rewrite run_cons. cbn [step length] in *.
    destruct (addJob_calls_processor now rnd user st Hq Hr)
      as (He & Hq' & Hr' & Ha'); [lia|].
    destruct (IH (snd (addJob now rnd user st)) Hq' Hr')
      as (Hn & Hm & Hq'' & Hr'').
    + rewrite Ha'. unfold JsMap.size in *.
      pose proof (JsMapFacts.length_set (generateJobId now rnd) (nextTask st)
                    (activeJobs st)). lia.
    + rewrite Hn, Hm.
      rewrite (invocationsFor_snoc user st _ _ _ He) by reflexivity.
      rewrite (invocations_snoc st _ _ _ He).
      repeat split; try assumption; lia.
Qed.

(** C1. Callers that ask for the same user while no result is stored do
    not share a fetch: as long as a slot is free (up to five callers), each
    call of addJob calls the processor once more, and every caller is left
    polling. *)
Theorem addJob_burst_invokes_processor_per_caller (user : Z)
    (calls : list (Z * string)) :
  (length calls <= 5)%nat ->
  let st := run (burstOf user calls) initial in
  invocationsFor user st = length calls
  /\ invocations st = length calls
  /\ forall jobId, pollForResult jobId st = Pending.
Proof.
  intros Hlen st.
  destruct (burst_invokes_each user calls initial) as (Hn & Hm & _ & Hr);
    try reflexivity.
  { unfold JsMap.size.
    cbn [initial activeJobs length QUEUE_CONFIG maxConcurrency]. lia. }
  fold st in Hn, Hm, Hr. split; [exact Hn|]. split; [exact Hm|].
  intros jobId. unfold pollForResult. now rewrite Hr.
Qed.

(** Two callers in the same millisecond ask for user 1: two fetches. *)
Lemma addJob_burst_invokes_processor_per_caller_witness :
  invocationsFor 1 (run (burstOf 1 [(0, "abc"%string); (0, "abd"%string)]) initial)
  = 2%nat
  /\ invocations (run (burstOf 1 [(0, "abc"%string); (0, "abd"%string)]) initial)
     = 2%nat
  /\ forall jobId,
       pollForResult jobId
         (run (burstOf 1 [(0, "abc"%string); (0, "abd"%string)]) initial)
       = Pending.
Proof.
  apply (addJob_burst_invokes_processor_per_caller 1
           [(0, "abc"%string); (0, "abd"%string)]).
  cbn. lia.
Defined.

(** ** Retries (C2, C3) *)

Section Handles.
Implicit Types (l : list (nat * Task)) (h : nat) (t : Task).

Lemma find_after_put l h h' t :
  List.find (fun ht => Nat.eqb (fst ht) h')
    (List.filter (fun ht => negb (Nat.eqb (fst ht) h)) l ++ [(h, t)])
  = if Nat.eqb h h' then Some (h, t)
    else List.find (fun ht => Nat.eqb (fst ht) h') l.
Proof.
  induction l as [|[a b] l IH]; cbn [List.filter List.find app fst].
  - reflexivity.
  - destruct (Nat.eqb_spec a h) as [->|Hah]; cbn [negb].
    + rewrite IH. destruct (Nat.eqb h h'); reflexivity.
    + cbn [app List.find fst]. rewrite IH.
      destruct (Nat.eqb_spec a h') as [->|Hah']; [|reflexivity].
      destruct (Nat.eqb_spec h h'); [congruence|reflexivity].
Qed.

Lemma find_after_drop l h h' :
  List.find (fun ht => Nat.eqb (fst ht) h')
    (List.filter (fun ht => negb (Nat.eqb (fst ht) h)) l)
  = if Nat.eqb h h' then None
    else List.find (fun ht => Nat.eqb (fst ht) h') l.
Proof.
  induction l as [|[a b] l IH]; cbn [List.filter List.find fst].
  - now destruct (Nat.eqb h h').
  - destruct (Nat.eqb_spec a h) as [->|Hah]; cbn [negb].
    + rewrite IH. destruct (Nat.eqb h h'); reflexivity.
    + cbn [List.find fst]. rewrite IH.
      destruct (Nat.eqb_spec a h') as [->|Hah']; [|reflexivity].
      destruct (Nat.eqb_spec h h'); [congruence|reflexivity].
Qed.

Lemma lookupTask_putTask h h' t st :
  lookupTask h' (putTask h t st)
  = if Nat.eqb h h' then Some t else lookupTask h' st.
Proof.
  unfold lookupTask, putTask, dropTask. cbn [tasks withTasks].
  rewrite find_after_put. now destruct (Nat.eqb h h').
Qed.

Lemma lookupTask_dropTask h h' st :
  lookupTask h' (dropTask h st)
  = if Nat.eqb h h' then None else lookupTask h' st.
Proof.
  unfold lookupTask, dropTask. cbn [tasks withTasks].
  rewrite find_after_drop. now destruct (Nat.eqb h h').
Qed.

Lemma invocationsOf_emit h e st :
  invocationsOf h (emit e st)
  = (invocationsOf h st
     + match e with
       | Invoked h' _ => if Nat.eqb h' h then 1 else 0
       | TimerSet _ _ => 0
       end)%nat.
Proof.
  unfold invocationsOf, emit. cbn [effects].
  rewrite List.filter_app, length_app. f_equal.
  destruct e as [h' job|h' d]; cbn [List.filter]; [|reflexivity].
  now destruct (Nat.eqb h' h).
Qed.
End Handles.

(** The bookkeeping looks at [tasks], [nextTask] and [effects] only. *)
Lemma callsMatchPhase_frame st st' :
  tasks st' = tasks st -> nextTask st' = nextTask st ->
  effects st' = effects st ->
  callsMatchPhase st -> callsMatchPhase st'.
Proof.
  unfold callsMatchPhase, invocationsOf, lookupTask.
  intros -> -> -> Hinv. exact Hinv.
Qed.

Lemma callsMatchPhase_initial : callsMatchPhase initial.
Proof.
  repeat split; cbn; try lia. intros h t [=].
Qed.

Lemma callsMatchPhase_dropTask h st :
  callsMatchPhase st -> callsMatchPhase (dropTask h st).
Proof.
  intros (Hbound & Hfresh & Hphase). split; [|split].
  - exact Hbound.
  - intros h' Hh'. destruct (Hfresh h' Hh') as [H0 Hnone].
    split; [exact H0|]. rewrite lookupTask_dropTask.
    now destruct (Nat.eqb h h').
  - intros h' t. rewrite lookupTask_dropTask.
    destruct (Nat.eqb h h'); [discriminate|]. apply Hphase.
Qed.

Lemma callsMatchPhase_finish h job st :
  callsMatchPhase st -> callsMatchPhase (finish h job st).
Proof.
  intros Hinv. apply (callsMatchPhase_frame (dropTask h st)); try reflexivity.
  now apply callsMatchPhase_dropTask.
Qed.

Lemma callsMatchPhase_startJob job st :
  callsMatchPhase st -> callsMatchPhase (startJob job st).
Proof.
  intros (Hbound & Hfresh & Hphase).
  destruct (Hfresh (nextTask st) (Nat.le_refl _)) as [H0 Hnone].
  set (st0 := {| jobQueue := jobQueue st; activeJobs := activeJobs st;
                 jobResults := jobResults st; queueStats := queueStats st;
                 tasks := tasks st; nextTask := S (nextTask st);
                 effects := effects st |}).
  apply (callsMatchPhase_frame (processJob_call (nextTask st) job false st0));
    try reflexivity.
  unfold processJob_call. split; [|split].
  - intros h. change (invocationsOf h (putTask ?a ?b ?s)) with (invocationsOf h s).
    rewrite invocationsOf_emit.
    change (invocationsOf h st0) with (invocationsOf h st).
    destruct (Nat.eqb_spec (nextTask st) h) as [<-|Hne].
    + rewrite H0. lia.
    + specialize (Hbound h). lia.
  - intros h Hh. cbn [nextTask putTask withTasks emit st0] in Hh.
    change (invocationsOf h (putTask ?a ?b ?s)) with (invocationsOf h s).
    rewrite invocationsOf_emit, lookupTask_putTask.
    change (invocationsOf h st0) with (invocationsOf h st).
    destruct (Nat.eqb_spec (nextTask st) h) as [<-|Hne]; [lia|].
    destruct (Hfresh h) as [Hh0 Hhn]; [lia|]. split; [lia|exact Hhn].
  - intros h t.
    change (invocationsOf h (putTask ?a ?b ?s)) with (invocationsOf h s).
    rewrite invocationsOf_emit, lookupTask_putTask.
    change (invocationsOf h st0) with (invocationsOf h st).
    destruct (Nat.eqb_spec (nextTask st) h) as [<-|Hne].
    + intros [= <-]. cbn [taskPhase]. rewrite H0. reflexivity.
    + intros Ht. rewrite Nat.add_0_r. now apply Hphase.
Qed.

Lemma callsMatchPhase_settle now h outcome st :
  callsMatchPhase st -> callsMatchPhase (settle now h outcome st).
Proof.
  intros Hinv. unfold settle.
  destruct (lookupTask h st) as [[job [inRetry|delay]]|] eqn:Hlook;
    try exact Hinv.
  destruct outcome as [res|err].
  - apply callsMatchPhase_finish.
    eapply callsMatchPhase_frame; [..|exact Hinv]; reflexivity.
  - set (st1 := withStats bumpFailed _).
    assert (Hinv1 : callsMatchPhase st1)
      by (eapply callsMatchPhase_frame; [..|exact Hinv]; reflexivity).
    assert (Hlook1 : lookupTask h st1 = lookupTask h st) by reflexivity.
    destruct inRetry; [now apply callsMatchPhase_finish|].
    case_bool_decide; [|now apply callsMatchPhase_finish].
    destruct (retryJob job) as [msg|[job' delay]];
      [now apply callsMatchPhase_finish|].
    destruct Hinv1 as (Hbound & Hfresh & Hphase).
    pose proof (Hphase h _ (eq_trans Hlook1 Hlook)) as Hone.
    cbn [taskPhase] in Hone.
    split; [|split].
    + intros h'.
      change (invocationsOf h' (putTask ?a ?b ?s)) with (invocationsOf h' s).
      rewrite invocationsOf_emit, Nat.add_0_r. apply Hbound.
    + intros h' Hh'. cbn [nextTask putTask withTasks emit] in Hh'.
      change (invocationsOf h' (putTask ?a ?b ?s)) with (invocationsOf h' s).
      rewrite invocationsOf_emit, Nat.add_0_r, lookupTask_putTask.
      destruct (Hfresh h' Hh') as [H0 Hnone]. split; [exact H0|].
      destruct (Nat.eqb_spec h h') as [->|Hne]; [|exact Hnone].
      rewrite Hlook1, Hlook in Hnone. discriminate.
    + intros h' t.
      change (invocationsOf h' (putTask ?a ?b ?s)) with (invocationsOf h' s).
      rewrite invocationsOf_emit, Nat.add_0_r, lookupTask_putTask.
      destruct (Nat.eqb_spec h h') as [<-|Hne].
      * intros [= <-]. exact Hone.
      * apply Hphase.
Qed.

Lemma callsMatchPhase_timerFires h st :
  callsMatchPhase st -> callsMatchPhase (timerFires h st).
Proof.
  intros Hinv. unfold timerFires.
  destruct (lookupTask h st) as [[job [inRetry|delay]]|] eqn:Hlook;
    try exact Hinv.
  destruct Hinv as (Hbound & Hfresh & Hphase).
  pose proof (Hphase h _ Hlook) as Hone. cbn [taskPhase] in Hone.
  unfold processJob_call. split; [|split].
  - intros h'.
    change (invocationsOf h' (putTask ?a ?b ?s)) with (invocationsOf h' s).
    rewrite invocationsOf_emit.
    destruct (Nat.eqb_spec h h') as [<-|Hne]; [lia|].
    specialize (Hbound h'). lia.
  - intros h' Hh'. cbn [nextTask putTask withTasks emit] in Hh'.
    change (invocationsOf h' (putTask ?a ?b ?s)) with (invocationsOf h' s).
    rewrite invocationsOf_emit, lookupTask_putTask.
    destruct (Hfresh h' Hh') as [H0 Hnone].
    destruct (Nat.eqb_spec h h') as [->|Hne]; [congruence|].
    split; [lia|exact Hnone].
  - intros h' t.
    change (invocationsOf h' (putTask ?a ?b ?s)) with (invocationsOf h' s).
    rewrite invocationsOf_emit, lookupTask_putTask.
    destruct (Nat.eqb_spec h h') as [<-|Hne].
    + intros [= <-]. cbn [taskPhase]. lia.
    + intros Ht. rewrite Nat.add_0_r. now apply Hphase.
Qed.

Lemma callsMatchPhase_processQueue_loop now queue : forall st,
  callsMatchPhase st -> callsMatchPhase (processQueue_loop now queue st).
Proof.
  induction queue as [|job rest IH]; intros st Hinv; cbn [processQueue_loop].
  - eapply callsMatchPhase_frame; [..|exact Hinv]; reflexivity.
  - case_bool_decide;
      [|eapply callsMatchPhase_frame; [..|exact Hinv]; reflexivity].
    assert (Hinv0 : callsMatchPhase (withJobQueue rest st))
      by (eapply callsMatchPhase_frame; [..|exact Hinv]; reflexivity).
    destruct (existingResult now job _) as [[r [e|] t]|];
      try (apply IH; now apply callsMatchPhase_startJob).
    apply IH. eapply callsMatchPhase_frame; [..|exact Hinv0]; reflexivity.
Qed.

Lemma callsMatchPhase_step st ev :
  callsMatchPhase st -> callsMatchPhase (step st ev).
Proof.
  intros Hinv. destruct ev as [now rnd user|now h outcome|h]; cbn [step].
  - unfold addJob, processQueue. cbn [snd].
    apply callsMatchPhase_processQueue_loop.
    eapply callsMatchPhase_frame; [..|exact Hinv]; reflexivity.
  - now apply callsMatchPhase_settle.
  - now apply callsMatchPhase_timerFires.
Qed.

Lemma callsMatchPhase_run evs : forall st,
  callsMatchPhase st -> callsMatchPhase (run evs st).
Proof.
  induction evs as [|ev evs IH]; intros st Hinv; [exact Hinv|].
  rewrite run_cons. apply IH. now apply callsMatchPhase_step.
Qed.

(** C2. A job is never given to the processor more than twice, whatever
    the order of events and the outcomes: one first call and one retry,
    not the three retries that retryAttempts announces.  With a processor
    that always fails, the caller's poll already finds the error after the
    first call; the second call is the last, and nothing is left running. *)
Theorem retry_stops_after_second_call :
  (forall evs h, (invocationsOf h (run evs initial) <= 2)%nat)
  /\ (let st := run (take 2 alwaysFailing) initial in
      invocations st = 1%nat
      /\ pollForResult (generateJobId 0 "abc") st = Rejected "boom")
  /\ (let st := run alwaysFailing initial in
      invocations st = 2%nat
      /\ timersOf 0 st = [1000]
      /\ tasks st = [] /\ activeJobs st = [] /\ jobQueue st = []
      /\ pollForResult (generateJobId 0 "abc") st = Rejected "boom").
Proof.
  split.
  - intros evs h.
    destruct (callsMatchPhase_run evs initial callsMatchPhase_initial)
      as (Hbound & _).
    apply Hbound.
  - split; vm_compute; repeat split.
Qed.

(** Taken by itself, retryJob computes a delay of retryDelay times the
    number of the retry (1000, 2000, 3000 ms for retries = 0, 1, 2); the
    theorem after the next lemmas shows that only retries = 0 occurs. *)
Theorem retry_delay_is_linear (job : QueueJob) :
  0 <= retries job < retryAttempts QUEUE_CONFIG ->
  retryDelayOf job = Some (retryDelay QUEUE_CONFIG * (retries job + 1))
  /\ (2 <= retries job ->
      retryDelay QUEUE_CONFIG * (retries job + 1)
      < retryDelay QUEUE_CONFIG * 2 ^ retries job).
Proof.
  cbn [QUEUE_CONFIG retryAttempts retryDelay]. intros Hrange. split.
  - unfold retryDelayOf, retryJob. cbn [QUEUE_CONFIG retryAttempts retryDelay].
    rewrite bool_decide_eq_false_2 by lia. reflexivity.
  - intros H2. assert (Ha : retries job = 2) by lia. rewrite Ha. reflexivity.
Qed.

Lemma retry_delay_is_linear_witness :
  retryDelayOf {| id := "job_0_abc"; userId := 1; timestamp := 0; retries := 2 |}
  = Some (1000 * (2 + 1))
  /\ (2 <= 2 -> 1000 * (2 + 1) < 1000 * 2 ^ 2).
Proof.
  apply (retry_delay_is_linear
           {| id := "job_0_abc"; userId := 1; timestamp := 0; retries := 2 |}).
  cbn. lia.
Defined.

(** Through addJob a job reaches retryJob only with retries = 0: the one
    timer it sets is 1000 ms, and the second failure sets none. *)
Example only_one_retry_timer :
  timersOf 0 (run (take 2 alwaysFailing) initial) = [1000]
  /\ timersOf 0 (run alwaysFailing initial) = [1000]
  /\ lookupTask 0 (run alwaysFailing initial) = None.
Proof. vm_compute. repeat split. Qed.

(** ** The second failure of a job (C3) *)

Lemma timersOf_emit h e st :
  timersOf h (emit e st)
  = timersOf h st
    ++ match e with
       | TimerSet h' d => if Nat.eqb h' h then [d] else []
       | Invoked _ _ => []
       end.
Proof.
  unfold timersOf, emit. cbn [effects]. rewrite omap_app. f_equal.
  destruct e as [h' job|h' d]; cbn; [reflexivity|].
  now destruct (Nat.eqb h' h).
Qed.

Lemma timersMatchPhase_frame st st' :
  tasks st' = tasks st -> nextTask st' = nextTask st ->
  effects st' = effects st ->
  timersMatchPhase st -> timersMatchPhase st'.
Proof.
  unfold timersMatchPhase, timersOf, lookupTask.
  intros -> -> -> Hinv. exact Hinv.
Qed.

Lemma timersMatchPhase_initial : timersMatchPhase initial.
Proof.
  split; [|split].
  - intros h _. now left.
  - intros h _. now split.
  - intros h t [=].
Qed.

Lemma timersMatchPhase_any h st :
  timersMatchPhase st ->
  timersOf h st = [] \/ timersOf h st = [retryDelay QUEUE_CONFIG].
Proof.
  intros (Hnone & _ & Hphase).
  destruct (lookupTask h st) as [t|] eqn:Hlook; [|now apply Hnone].
  specialize (Hphase h t Hlook).
  destruct (taskPhase t) as [[|]|d]; intuition.
Qed.

Lemma timersMatchPhase_dropTask h st :
  timersMatchPhase st -> timersMatchPhase (dropTask h st).
Proof.
  intros Hinv. pose proof (timersMatchPhase_any h st Hinv) as Hany.
  destruct Hinv as (Hnone & Hfresh & Hphase). split; [|split].
  - intros h'. rewrite lookupTask_dropTask.
    destruct (Nat.eqb_spec h h') as [<-|Hne]; [intros _; exact Hany|].
    apply Hnone.
  - intros h' Hh'. destruct (Hfresh h' Hh') as [H0 Hn].
    split; [exact H0|]. rewrite lookupTask_dropTask.
    now destruct (Nat.eqb h h').
  - intros h' t. rewrite lookupTask_dropTask.
    destruct (Nat.eqb h h'); [discriminate|]. apply Hphase.
Qed.

Lemma timersMatchPhase_finish h job st :
  timersMatchPhase st -> timersMatchPhase (finish h job st).
Proof.
  intros Hinv. apply (timersMatchPhase_frame (dropTask h st)); try reflexivity.
  now apply timersMatchPhase_dropTask.
Qed.

Lemma timersMatchPhase_startJob job st :
  retries job = 0 ->
  timersMatchPhase st -> timersMatchPhase (startJob job st).
Proof.
  intros Hjob (Hnone & Hfresh & Hphase).
  destruct (Hfresh (nextTask st) (Nat.le_refl _)) as [H0 Hn0].
  set (st0 := {| jobQueue := jobQueue st; activeJobs := activeJobs st;
                 jobResults := jobResults st; queueStats := queueStats st;
                 tasks := tasks st; nextTask := S (nextTask st);
                 effects := effects st |}).
  apply (timersMatchPhase_frame (processJob_call (nextTask st) job false st0));
    try reflexivity.
  unfold processJob_call. split; [|split].
  - intros h. rewrite lookupTask_putTask.
    change (timersOf h (putTask ?a ?b ?s)) with (timersOf h s).
    rewrite timersOf_emit, app_nil_r.
    destruct (Nat.eqb (nextTask st) h); [discriminate|]. apply Hnone.
  - intros h Hh. cbn [nextTask putTask withTasks emit st0] in Hh.
    change (timersOf h (putTask ?a ?b ?s)) with (timersOf h s).
    rewrite timersOf_emit, app_nil_r, lookupTask_putTask.
    destruct (Nat.eqb_spec (nextTask st) h) as [<-|Hne]; [lia|].
    apply Hfresh. lia.
  - intros h t. rewrite lookupTask_putTask.
    change (timersOf h (putTask ?a ?b ?s)) with (timersOf h s).
    rewrite timersOf_emit, app_nil_r.
    destruct (Nat.eqb_spec (nextTask st) h) as [<-|Hne].
    + intros [= <-]. cbn [taskPhase taskJob]. now split.
    + apply Hphase.
Qed.

Lemma timersMatchPhase_settle now h outcome st :
  timersMatchPhase st -> timersMatchPhase (settle now h outcome st).
Proof.
  intros Hinv. unfold settle.
  destruct (lookupTask h st) as [[job [inRetry|delay]]|] eqn:Hlook;
    try exact Hinv.
  destruct outcome as [res|err].
  - apply timersMatchPhase_finish.
    eapply timersMatchPhase_frame; [..|exact Hinv]; reflexivity.
  - set (st1 := withStats bumpFailed _).
    assert (Hinv1 : timersMatchPhase st1)
      by (eapply timersMatchPhase_frame; [..|exact Hinv]; reflexivity).
    assert (Hlook1 : lookupTask h st1 = lookupTask h st) by reflexivity.
    destruct inRetry; [now apply timersMatchPhase_finish|].
    case_bool_decide; [|now apply timersMatchPhase_finish].
    destruct Hinv1 as (Hnone & Hfresh & Hphase).
    pose proof (Hphase h _ (eq_trans Hlook1 Hlook)) as [Hr0 Ht0].
    cbn [taskPhase taskJob] in Hr0, Ht0.
    unfold retryJob. rewrite Hr0.
    rewrite bool_decide_eq_false_2 by (cbn; lia).
    split; [|split].
    + intros h'. rewrite lookupTask_putTask.
      change (timersOf h' (putTask ?a ?b ?s)) with (timersOf h' s).
      rewrite timersOf_emit.
      destruct (Nat.eqb_spec h h') as [<-|Hne]; [discriminate|].
      rewrite app_nil_r. apply Hnone.
    + intros h' Hh'. cbn [nextTask putTask withTasks emit] in Hh'.
      change (timersOf h' (putTask ?a ?b ?s)) with (timersOf h' s).
      rewrite timersOf_emit, lookupTask_putTask.
      destruct (Hfresh h' Hh') as [H0 Hn].
      destruct (Nat.eqb_spec h h') as [->|Hne].
      * rewrite Hlook1, Hlook in Hn. discriminate.
      * rewrite app_nil_r. now split.
    + intros h' t. rewrite lookupTask_putTask.
      change (timersOf h' (putTask ?a ?b ?s)) with (timersOf h' s).
      rewrite timersOf_emit.
      destruct (Nat.eqb_spec h h') as [<-|Hne].
      * intros [= <-]. cbn [taskPhase taskJob retries]. rewrite Ht0.
        repeat split.
      * rewrite app_nil_r. apply Hphase.
Qed.

Lemma timersMatchPhase_timerFires h st :
  timersMatchPhase st -> timersMatchPhase (timerFires h st).
Proof.
  intros Hinv. unfold timerFires.
  destruct (lookupTask h st) as [[job [inRetry|delay]]|] eqn:Hlook;
    try exact Hinv.
  destruct Hinv as (Hnone & Hfresh & Hphase).
  pose proof (Hphase h _ Hlook) as (Hd & Hr & Ht).
  cbn [taskPhase taskJob] in Hd, Hr, Ht.
  unfold processJob_call. split; [|split].
  - intros h'. rewrite lookupTask_putTask.
    change (timersOf h' (putTask ?a ?b ?s)) with (timersOf h' s).
    rewrite timersOf_emit, app_nil_r.
    destruct (Nat.eqb h h'); [discriminate|]. apply Hnone.
  - intros h' Hh'. cbn [nextTask putTask withTasks emit] in Hh'.
    change (timersOf h' (putTask ?a ?b ?s)) with (timersOf h' s).
    rewrite timersOf_emit, app_nil_r, lookupTask_putTask.
    destruct (Hfresh h' Hh') as [H0 Hn].
    destruct (Nat.eqb_spec h h') as [->|Hne]; [congruence|]. now split.
  - intros h' t. rewrite lookupTask_putTask.
    change (timersOf h' (putTask ?a ?b ?s)) with (timersOf h' s).
    rewrite timersOf_emit, app_nil_r.
    destruct (Nat.eqb_spec h h') as [<-|Hne].
    + intros [= <-]. cbn [taskPhase taskJob]. now split.
    + apply Hphase.
Qed.

Lemma timersMatchPhase_processQueue_loop now queue : forall st,
  queuedFresh queue ->
  timersMatchPhase st ->
  timersMatchPhase (processQueue_loop now queue st)
  /\ queuedFresh (jobQueue (processQueue_loop now queue st)).
Proof.
  induction queue as [|job rest IH]; intros st Hq Hinv; cbn [processQueue_loop].
  - split; [|constructor].
    eapply timersMatchPhase_frame; [..|exact Hinv]; reflexivity.
  - case_bool_decide.
    2:{ split; [|exact Hq].
        eapply timersMatchPhase_frame; [..|exact Hinv]; reflexivity. }
    apply Forall_cons in Hq as [Hjob Hrest].
    assert (Hinv0 : timersMatchPhase (withJobQueue rest st))
      by (eapply timersMatchPhase_frame; [..|exact Hinv]; reflexivity).
    destruct (existingResult now job _) as [[r [e|] t]|];
      try (apply IH; [exact Hrest|now apply timersMatchPhase_startJob]).
    apply IH; [exact Hrest|].
    eapply timersMatchPhase_frame; [..|exact Hinv0]; reflexivity.
Qed.

Lemma timersMatchPhase_step st ev :
  timersMatchPhase st /\ queuedFresh (jobQueue st) ->
  timersMatchPhase (step st ev) /\ queuedFresh (jobQueue (step st ev)).
Proof.
  intros [Hinv Hq]. destruct ev as [now rnd user|now h outcome|h]; cbn [step].
  - unfold addJob, processQueue. cbn [snd].
    apply timersMatchPhase_processQueue_loop.
    + cbn [jobQueue updateQueueStats withStats withJobQueue].
      apply Forall_app. split; [exact Hq|]. now repeat constructor.
    + eapply timersMatchPhase_frame; [..|exact Hinv]; reflexivity.
  - split; [now apply timersMatchPhase_settle|].
    unfold settle.
    destruct (lookupTask h st) as [[job [inRetry|delay]]|]; try exact Hq.
    destruct outcome as [res|err]; [exact Hq|].
    destruct inRetry; [exact Hq|].
    case_bool_decide; [|exact Hq].
    destruct (retryJob job) as [msg|[job' d]]; exact Hq.
  - split; [now apply timersMatchPhase_timerFires|].
    unfold timerFires.
    destruct (lookupTask h st) as [[job [inRetry|delay]]|]; exact Hq.
Qed.

Lemma timersMatchPhase_run evs : forall st,
  timersMatchPhase st /\ queuedFresh (jobQueue st) ->
  timersMatchPhase (run evs st) /\ queuedFresh (jobQueue (run evs st)).
Proof.
  induction evs as [|ev evs IH]; intros st Hinv; [exact Hinv|].
  rewrite run_cons. apply IH. now apply timersMatchPhase_step.
Qed.

(** Effects are only ever appended. *)
Lemma effects_processQueue_loop now queue : forall st,
  exists more, effects (processQueue_loop now queue st) = effects st ++ more.
Proof.
  induction queue as [|job rest IH]; intros st; cbn [processQueue_loop].
  - exists []. now rewrite app_nil_r.
  - case_bool_decide; [|exists []; now rewrite app_nil_r].
    destruct (existingResult now job _) as [[r [e|] t]|].
    2:{ destruct (IH (withStats bumpCompleted
                        (withJobResults
                           (JsMap.set (id job)
                              {| result := r; error := None;
                                 resultTimestamp := t |}
                              (jobResults (withJobQueue rest st)))
                           (withJobQueue rest st)))) as [more Hm].
        exists more. exact Hm. }
    all: destruct (IH (startJob job (withJobQueue rest st))) as [more Hm];
      exists (Invoked (nextTask st) job :: more); rewrite Hm;
      cbn [startJob processJob_call effects updateQueueStats withStats
           withActiveJobs putTask withTasks emit withJobQueue nextTask];
      now rewrite <- app_assoc.
Qed.

Lemma effects_step st ev :
  exists more, effects (step st ev) = effects st ++ more.
Proof.
  destruct ev as [now rnd user|now h outcome|h]; cbn [step].
  - unfold addJob, processQueue. cbn [snd].
    destruct (effects_processQueue_loop now
                (jobQueue (updateQueueStats
                   (withJobQueue (jobQueue (withStats bumpTotal st)
                                  ++ [createJob now rnd user])
                      (withStats bumpTotal st))))
                (updateQueueStats
                   (withJobQueue (jobQueue (withStats bumpTotal st)
                                  ++ [createJob now rnd user])
                      (withStats bumpTotal st)))) as [more Hm].
    exists more. exact Hm.
  - unfold settle.
    destruct (lookupTask h st) as [[job [inRetry|delay]]|];
      try (exists []; now rewrite app_nil_r).
    destruct outcome as [res|err]; [exists []; now rewrite app_nil_r|].
    destruct inRetry; [exists []; now rewrite app_nil_r|].
    case_bool_decide; [|exists []; now rewrite app_nil_r].
    destruct (retryJob job) as [msg|[job' d]];
      [exists []; now rewrite app_nil_r|].
    exists [TimerSet h d]. reflexivity.
  - unfold timerFires.
    destruct (lookupTask h st) as [[job [inRetry|delay]]|];
      try (exists []; now rewrite app_nil_r).
    exists [Invoked h job]. reflexivity.
Qed.

Lemma effects_run evs : forall st,
  exists more, effects (run evs st) = effects st ++ more.
Proof.
  induction evs as [|ev evs IH]; intros st.
  - exists []. now rewrite app_nil_r.
  - rewrite run_cons. destruct (IH (step st ev)) as [more Hm].
    destruct (effects_step st ev) as [more0 Hm0].
    exists (more0 ++ more). now rewrite Hm, Hm0, app_assoc.
Qed.

Lemma run_app evs later st : run (evs ++ later) st = run later (run evs st).
Proof. unfold run. apply foldl_app. Qed.

(** C3. On every schedule, when the retried call of a job fails (its
    attempt count is 1, below retryAttempts = 3), no backoff follows: the
    only timer the job ever sets is the one of retryDelay * 2^0 before its
    first retry, no timer of retryDelay * 2^1 is set, and the processor is
    not called a third time whatever happens later.  No handle ever sets
    another timer than that first one. *)
Theorem second_failure_ends_the_job (evs later : list Event) (h : nat)
    (job : QueueJob) (now : Z) (err : Error) :
  lookupTask h (run evs initial)
  = Some {| taskJob := job; taskPhase := AwaitProcessor true |} ->
  let st' := run later (settle now h (inr err) (run evs initial)) in
  retries job = 1
  /\ retries job < retryAttempts QUEUE_CONFIG
  /\ timersOf h st' = [retryDelay QUEUE_CONFIG * 2 ^ 0]
  /\ invocationsOf h st' = 2%nat
  /\ (forall h', timersOf h' st' = []
                 \/ timersOf h' st' = [retryDelay QUEUE_CONFIG * 2 ^ 0]).
Proof.
  intros Hlook st'.
  assert (Hst' : st' = run (evs ++ Settle now h (inr err) :: later) initial).
  { subst st'. now rewrite run_app, run_cons. }
  destruct (timersMatchPhase_run evs initial) as [(_ & _ & Hphase) _].
  { split; [exact timersMatchPhase_initial|constructor]. }
  destruct (Hphase h _ Hlook) as [Hr Ht]. cbn [taskPhase taskJob] in Hr, Ht.
  destruct (callsMatchPhase_run evs initial callsMatchPhase_initial)
    as (_ & _ & Hcalls).
  pose proof (Hcalls h _ Hlook) as Htwo. cbn [taskPhase] in Htwo.
  destruct (timersMatchPhase_run (evs ++ Settle now h (inr err) :: later) initial)
    as [Hinv' _].
  { split; [exact timersMatchPhase_initial|constructor]. }
  destruct (callsMatchPhase_run (evs ++ Settle now h (inr err) :: later) initial
              callsMatchPhase_initial) as (Hbound & _).
  rewrite <- Hst' in Hinv', Hbound.
  destruct (effects_run (Settle now h (inr err) :: later) (run evs initial))
    as [more Hmore].
  rewrite run_cons in Hmore. cbn [step] in Hmore. fold st' in Hmore.
  change (retryDelay QUEUE_CONFIG * 2 ^ 0) with (retryDelay QUEUE_CONFIG).
  split; [exact Hr|]. split; [rewrite Hr; reflexivity|]. split; [|split].
  - destruct (timersMatchPhase_any h st' Hinv') as [Hnil|Hone]; [|exact Hone].
    exfalso. unfold timersOf in Hnil, Ht. rewrite Hmore, omap_app, Ht in Hnil.
    discriminate.
  - specialize (Hbound h).
    assert (2 <= invocationsOf h st')%nat; [|lia].
    unfold invocationsOf in *. rewrite Hmore, List.filter_app, length_app. lia.
  - intros h'. now apply timersMatchPhase_any.
Qed.

(** One caller whose processor fails twice; the retry timer firing
    again, a late completion and a new caller change nothing. *)
Lemma second_failure_ends_the_job_witness :
  retries {| id := "job_0_abc"; userId := 1; timestamp := 0; retries := 1 |} = 1
  /\ retries {| id := "job_0_abc"; userId := 1; timestamp := 0; retries := 1 |}
     < retryAttempts QUEUE_CONFIG
  /\ timersOf 0
       (run [TimerFires 0; Settle 9000 0 (inl "late"%string);
                       AddJob 9500 "xyz" 2]
                    (settle 1400 0 (inr "boom"%string)
                       (run (take 3 alwaysFailing) initial))) = [retryDelay QUEUE_CONFIG * 2 ^ 0]
  /\ invocationsOf 0
       (run [TimerFires 0; Settle 9000 0 (inl "late"%string);
                       AddJob 9500 "xyz" 2]
                    (settle 1400 0 (inr "boom"%string)
                       (run (take 3 alwaysFailing) initial))) = 2%nat
  /\ (forall h', timersOf h'
       (run [TimerFires 0; Settle 9000 0 (inl "late"%string);
                       AddJob 9500 "xyz" 2]
                    (settle 1400 0 (inr "boom"%string)
                       (run (take 3 alwaysFailing) initial))) = []
                 \/ timersOf h'
       (run [TimerFires 0; Settle 9000 0 (inl "late"%string);
                       AddJob 9500 "xyz" 2]
                    (settle 1400 0 (inr "boom"%string)
                       (run (take 3 alwaysFailing) initial))) = [retryDelay QUEUE_CONFIG * 2 ^ 0]).
Proof.
  apply (second_failure_ends_the_job (take 3 alwaysFailing)
           [TimerFires 0; Settle 9000 0 (inl "late"%string);
            AddJob 9500 "xyz" 2] 0%nat
           {| id := "job_0_abc"; userId := 1; timestamp := 0; retries := 1 |}
           1400 "boom"%string).
  vm_compute. reflexivity.
Defined.

End QueueProofs.

(* ===================================================================== *)
(** * Further properties of the rate limiter *)
(* ===================================================================== *)

Module RateLimiterMore.
Import RateLimiter RateLimiterProofs.

(** ** Client identification *)

Lemma js_or_truthy a b : truthy b = true -> truthy (js_or a b) = true.
Proof. unfold js_or. destruct (truthy a) eqn:Ha; auto. Qed.

(** The first entry of X-Forwarded-For, trimmed, wins when it is not
    empty; otherwise X-Real-IP when not empty; otherwise the socket
    address when not empty; otherwise "unknown". *)
Lemma getClientIdentifier_precedence (req : Request) :
  let forwarded :=
    (fun s => trim (split_head "," s)) <$> get req "X-Forwarded-For" in
  getClientIdentifier req
  = if truthy forwarded then default ""%string forwarded
    else if truthy (get req "X-Real-IP")
    then default ""%string (get req "X-Real-IP")
    else if truthy (ip req) then default ""%string (ip req)
    else "unknown"%string.
Proof.
  cbv zeta. unfold getClientIdentifier, js_or.
  destruct (get req "X-Forwarded-For") as [f|], (get req "X-Real-IP") as [r|],
    (ip req) as [i|];
    cbn [fmap option_fmap option_map];
    repeat (match goal with
            | |- context [truthy (Some ?s)] =>
                let H := fresh "H" in
                destruct (truthy (Some s)) eqn:H; try rewrite !H
            | |- context [truthy None] => change (truthy None) with false
            end; cbv iota);
    first [reflexivity | discriminate].
Qed.

(** The key under which a request is counted is never the empty string:
    an empty or missing header falls through to the next source, and when
    the first X-Forwarded-For entry, X-Real-IP and the socket address are
    all missing or empty the key is the text "unknown". *)
Theorem getClientIdentifier_nonempty (req : Request) :
  getClientIdentifier req <> ""%string
  /\ (truthy ((fun s => trim (split_head "," s)) <$> get req "X-Forwarded-For")
      = false ->
      truthy (get req "X-Real-IP") = false ->
      truthy (ip req) = false ->
      getClientIdentifier req = "unknown"%string).
Proof.
  split.
  - unfold getClientIdentifier.
    set (chain := js_or _ (Some "unknown"%string)).
    assert (Ht : truthy chain = true) by (apply js_or_truthy; reflexivity).
    destruct chain as [s|]; [|discriminate].
    cbn [truthy] in Ht. intros ->. discriminate.
  - intros Hf Hr Hi. pose proof (getClientIdentifier_precedence req) as Hp.
    cbv zeta in Hp. now rewrite Hf, Hr, Hi in Hp.
Qed.

(** ** Bounds kept by the stored windows *)

Lemma not_limited_lengths now entry :
  fst (isRateLimited now entry RATE_LIMIT_CONFIG) = false ->
  (length (requests (prune now RATE_LIMIT_CONFIG entry)) < 10)%nat
  /\ (length (burstRequests (prune now RATE_LIMIT_CONFIG entry)) < 5)%nat.
Proof.
  unfold isRateLimited.
  cbn [RATE_LIMIT_CONFIG maxRequests maxBurstRequests].
  repeat case_bool_decide; cbn [fst]; try discriminate. intros _. lia.
Qed.

Lemma entry_after_check now req store :
  entryOf (snd (checkRateLimit now req store)) (getClientIdentifier req)
  = if allowed (fst (checkRateLimit now req store))
    then recorded now (prune now RATE_LIMIT_CONFIG
                         (entryOf store (getClientIdentifier req)))
    else prune now RATE_LIMIT_CONFIG (entryOf store (getClientIdentifier req)).
Proof.
  rewrite checkRateLimit_unfold. cbn [fst snd allowed].
  rewrite entryOf_insert.
  now destruct (fst (isRateLimited now _ RATE_LIMIT_CONFIG)).
Qed.

Lemma admitted_lengths now req store :
  allowed (fst (checkRateLimit now req store)) = true ->
  let entry :=
    entryOf (snd (checkRateLimit now req store)) (getClientIdentifier req) in
  (length (requests entry) <= 10)%nat
  /\ (length (burstRequests entry) <= 5)%nat.
Proof.
  intros Ha. cbv zeta. rewrite entry_after_check, Ha.
  rewrite checkRateLimit_allowed in Ha. apply Bool.negb_true_iff in Ha.
  apply not_limited_lengths in Ha as [Hl Hb].
  cbn [recorded requests burstRequests]. rewrite !length_app. cbn [length]. lia.
Qed.

(** No stored window ever grows beyond its bound: in every store the
    limiter can reach, each client's long window holds at most maxRequests
    timestamps and its burst window at most maxBurstRequests. *)
Theorem stored_windows_bounded (store : gmap string RateLimitEntry) :
  reachable store ->
  forall clientId entry,
    store !! clientId = Some entry ->
    Z.of_nat (length (requests entry)) <= maxRequests RATE_LIMIT_CONFIG
    /\ Z.of_nat (length (burstRequests entry))
       <= maxBurstRequests RATE_LIMIT_CONFIG.
Proof.
  cbn [RATE_LIMIT_CONFIG maxRequests maxBurstRequests].
  induction 1 as [|now req store _ IH|now store _ IH]; intros clientId entry.
  - now rewrite lookup_empty.
  - destruct (decide (clientId = getClientIdentifier req)) as [->|Hne].
    + intros Hlook.
      assert (He : entryOf (snd (checkRateLimit now req store))
                     (getClientIdentifier req) = entry)
        by (unfold entryOf; now rewrite Hlook).
      destruct (allowed (fst (checkRateLimit now req store))) eqn:Ha.
      * destruct (admitted_lengths now req store Ha) as [Hl Hb].
        cbv zeta in Hl, Hb. rewrite He in Hl, Hb. lia.
      * rewrite entry_after_check, Ha in He. subst entry.
        assert (Hold :
          Z.of_nat (length (requests (entryOf store (getClientIdentifier req)))) <= 10
          /\ Z.of_nat (length (burstRequests (entryOf store (getClientIdentifier req)))) <= 5).
        { unfold entryOf.
          destruct (store !! getClientIdentifier req) eqn:Hl; [eauto|].
          cbn. lia. }
        unfold prune, cleanupExpiredRequests. cbn [requests burstRequests].
        pose proof (length_filter
          (fun t => now - t < windowMs RATE_LIMIT_CONFIG)
          (requests (entryOf store (getClientIdentifier req)))).
        pose proof (length_filter
          (fun t => now - t < burstWindowMs RATE_LIMIT_CONFIG)
          (burstRequests (entryOf store (getClientIdentifier req)))).
        lia.
    + rewrite checkRateLimit_unfold. cbn [snd].
      rewrite lookup_insert_ne by congruence. apply IH.
  - unfold cleanupTick. rewrite map_lookup_filter_Some. intros [Hl _]. eauto.
Qed.

Lemma afterBurst_reachable : reachable afterBurst.
Proof.
  unfold afterBurst. rewrite !checkAll_cons. cbn [checkAll snd].
  repeat apply reach_check. apply reach_empty.
Qed.

Lemma stored_windows_bounded_witness :
  afterBurst !! "1.2.3.4"%string
  = Some {| requests := [0; 1; 2; 3; 4]; burstRequests := [0; 1; 2; 3; 4] |}
  /\ Z.of_nat (length (requests {| requests := [0; 1; 2; 3; 4];
                                   burstRequests := [0; 1; 2; 3; 4] |}))
     <= maxRequests RATE_LIMIT_CONFIG
  /\ Z.of_nat (length (burstRequests {| requests := [0; 1; 2; 3; 4];
                                        burstRequests := [0; 1; 2; 3; 4] |}))
     <= maxBurstRequests RATE_LIMIT_CONFIG.
Proof.
  split; [vm_compute; reflexivity|].
  apply (stored_windows_bounded afterBurst afterBurst_reachable
           "1.2.3.4"%string).
  vm_compute. reflexivity.
Defined.

(** ** The report *)

(** The report of an admitted request is exact: limit is maxRequests and
    remaining is maxRequests minus the number of timestamps in the long
    window after the call, between 0 and maxRequests - 1.  The report of a
    denied request can still show remaining > 0: that happens exactly when
    the long window is below its bound, so that the burst window denied. *)
Theorem remaining_is_exact (now : Z) (req : Request)
    (store : gmap string RateLimitEntry) :
  let r := fst (checkRateLimit now req store) in
  let after :=
    entryOf (snd (checkRateLimit now req store)) (getClientIdentifier req) in
  limit (info r) = maxRequests RATE_LIMIT_CONFIG
  /\ 0 <= remaining (info r) <= maxRequests RATE_LIMIT_CONFIG
  /\ (allowed r = true ->
      remaining (info r)
      = maxRequests RATE_LIMIT_CONFIG - Z.of_nat (length (requests after))
      /\ remaining (info r) <= maxRequests RATE_LIMIT_CONFIG - 1)
  /\ (allowed r = false ->
      (0 < remaining (info r)
       <-> Z.of_nat (length (requests after)) < maxRequests RATE_LIMIT_CONFIG)).
Proof.
  cbv zeta.
  pose proof (entry_after_check now req store) as Hafter.
  pose proof (admitted_lengths now req store) as Hadm.
  revert Hafter Hadm. rewrite checkRateLimit_unfold.
  cbn [fst snd allowed info]. rewrite entryOf_insert.
  set (isLimited := fst (isRateLimited now _ RATE_LIMIT_CONFIG)).
  set (entry := if isLimited then _ else _).
  intros _ Hadm.
  assert (Hp : prune now RATE_LIMIT_CONFIG entry = entry).
  { subst entry. destruct isLimited; [apply prune_idem|apply prune_recorded]. }
  unfold getRateLimitInfo. rewrite Hp.
  cbn [fst limit remaining RATE_LIMIT_CONFIG maxRequests].
  split; [reflexivity|]. split; [lia|]. split.
  - intros Ha. specialize (Hadm Ha). cbv zeta in Hadm.
    destruct Hadm as [Hl _].
    assert (Hpos : (0 < length (requests entry))%nat).
    { subst entry. destruct isLimited; [discriminate|].
      cbn [recorded requests]. rewrite length_app. cbn [length]. lia. }
    lia.
  - intros _. lia.
Qed.

(** A client the store does not know is admitted, whatever the time; it
    is left with the one timestamp of this request in both windows, and
    the report shows maxRequests - 1 remaining requests. *)
Theorem unknown_client_is_admitted (now : Z) (req : Request)
    (store : gmap string RateLimitEntry) :
  store !! getClientIdentifier req = None ->
  let r := checkRateLimit now req store in
  allowed (fst r) = true
  /\ snd r !! getClientIdentifier req
     = Some {| requests := [now]; burstRequests := [now] |}
  /\ remaining (info (fst r)) = maxRequests RATE_LIMIT_CONFIG - 1
  /\ resetTime (info (fst r))
     = ceil_div (now + windowMs RATE_LIMIT_CONFIG) 1000.
Proof.
  intros Hnone. cbv zeta. rewrite checkRateLimit_unfold.
  assert (He : entryOf store (getClientIdentifier req) = emptyEntry)
    by (unfold entryOf; now rewrite Hnone).
  rewrite He. cbn [fst snd allowed info]. rewrite lookup_insert_eq.
  change (fst (isRateLimited now emptyEntry RATE_LIMIT_CONFIG)) with false.
  cbn [negb]. change (prune now RATE_LIMIT_CONFIG emptyEntry) with emptyEntry.
  change (recorded now emptyEntry) with (mkEntry [now] [now]).
  assert (Hp : prune now RATE_LIMIT_CONFIG (mkEntry [now] [now])
               = mkEntry [now] [now]).
  { change (mkEntry [now] [now])
      with (recorded now (prune now RATE_LIMIT_CONFIG emptyEntry)).
    apply prune_recorded. }
  unfold getRateLimitInfo. rewrite Hp.
  cbn [fst remaining resetTime requests burstRequests app js_min foldr length
       RATE_LIMIT_CONFIG maxRequests windowMs].
  repeat split. f_equal. lia.
Qed.

Lemma unknown_client_is_admitted_witness :
  allowed (fst (checkRateLimit 1700 plainRequest ∅)) = true
  /\ snd (checkRateLimit 1700 plainRequest ∅) !! getClientIdentifier plainRequest
     = Some {| requests := [1700]; burstRequests := [1700] |}
  /\ remaining (info (fst (checkRateLimit 1700 plainRequest ∅)))
     = maxRequests RATE_LIMIT_CONFIG - 1
  /\ resetTime (info (fst (checkRateLimit 1700 plainRequest ∅)))
     = ceil_div (1700 + windowMs RATE_LIMIT_CONFIG) 1000.
Proof.
  apply (unknown_client_is_admitted 1700 plainRequest ∅). apply lookup_empty.
Defined.

(** ** What the two windows guarantee over a run of requests *)

Lemma checkAll_snoc req times now store :
  snd (checkAll req (times ++ [now]) store)
  = snd (checkRateLimit now req (snd (checkAll req times store))).
Proof.
  revert store. induction times as [|t times IH]; intros store.
  - cbn [app]. rewrite checkAll_cons. reflexivity.
  - cbn [app]. rewrite !checkAll_cons. cbn [snd]. apply IH.
Qed.

Lemma admittedTimes_cons req now times store :
  admittedTimes req (now :: times) store
  = (if allowed (fst (checkRateLimit now req store)) then [now] else [])
    ++ admittedTimes req times (snd (checkRateLimit now req store)).
Proof.
  cbn [admittedTimes]. now destruct (checkRateLimit now req store).
Qed.

Lemma admittedTimes_snoc req times now store :
  admittedTimes req (times ++ [now]) store
  = admittedTimes req times store
    ++ (if allowed (fst (checkRateLimit now req (snd (checkAll req times store))))
        then [now] else []).
Proof.
  revert store. induction times as [|t times IH]; intros store.
  - cbn [app checkAll snd]. rewrite admittedTimes_cons. cbn [admittedTimes].
    now rewrite app_nil_r.
  - cbn [app]. rewrite !admittedTimes_cons, checkAll_cons. cbn [snd].
    now rewrite IH, app_assoc.
Qed.

Lemma nondecreasing_snoc times x :
  nondecreasing (times ++ [x]) -> nondecreasing times /\ Forall (fun t => t <= x) times.
Proof.
  induction times as [|t times IH]; cbn [app nondecreasing].
  - intros _. split; [exact I|constructor].
  - intros [Hall Hrest]. apply Forall_app in Hall as [Hall Hx].
    apply Forall_cons in Hx as [Hx _].
    destruct (IH Hrest) as [Hnd Hle]. repeat split; try assumption.
    now constructor.
Qed.

Lemma cleanup_app now window (l1 l2 : list Z) :
  cleanupExpiredRequests now (l1 ++ l2) window
  = cleanupExpiredRequests now l1 window ++ cleanupExpiredRequests now l2 window.
Proof. unfold cleanupExpiredRequests. apply filter_app. Qed.

(** Pruned at a time no earlier than every request so far, the stored
    windows are the admitted requests that are still inside. *)
Lemma windows_hold_recent_admissions req store times :
  store !! getClientIdentifier req = None ->
  forall x, Forall (fun t => t <= x) times ->
  prune x RATE_LIMIT_CONFIG
    (entryOf (snd (checkAll req times store)) (getClientIdentifier req))
  = prune x RATE_LIMIT_CONFIG
      {| requests := admittedTimes req times store;
         burstRequests := admittedTimes req times store |}.
Proof.
  intros Hnone. induction times as [|t times IH] using rev_ind; intros x Hle.
  - cbn [checkAll snd admittedTimes]. unfold entryOf. now rewrite Hnone.
  - apply Forall_app in Hle as [Hle Ht]. apply Forall_cons in Ht as [Ht _].
    rewrite checkAll_snoc, admittedTimes_snoc, entry_after_check.
    specialize (IH x Hle).
    set (prev := entryOf (snd (checkAll req times store)) (getClientIdentifier req)) in *.
    destruct (allowed (fst (checkRateLimit t req (snd (checkAll req times store))))).
    + assert (IHl := f_equal requests IH).
      assert (IHb := f_equal burstRequests IH).
      unfold prune in *. cbn [recorded requests burstRequests] in *.
      rewrite !cleanup_app, !cleanup_later by assumption.
      now rewrite IHl, IHb.
    + rewrite app_nil_r, prune_later by assumption. exact IH.
Qed.

Lemma filter_length_mono (P Q : Z -> Prop) `{!forall y, Decision (P y)}
    `{!forall y, Decision (Q y)} (l : list Z) :
  (forall y, P y -> Q y) -> (length (filter P l) <= length (filter Q l))%nat.
Proof.
  intros Himp. induction l as [|y l IH]; [reflexivity|].
  rewrite !filter_cons.
  destruct (decide (P y)) as [HP|HP], (decide (Q y)) as [HQ|HQ];
    cbn [length]; try lia.
  exfalso. auto.
Qed.

(** The guarantee of the limiter.  For a client that starts unknown and
    whose requests arrive with a clock that does not run backwards, every
    time span of burstWindowMs contains at most maxBurstRequests admitted
    requests, and every span of windowMs at most maxRequests, wherever the
    span is placed. *)
Theorem sliding_windows_never_exceeded (req : Request) (times : list Z)
    (store : gmap string RateLimitEntry) (t : Z) :
  store !! getClientIdentifier req = None ->
  nondecreasing times ->
  Z.of_nat (countInWindow (burstWindowMs RATE_LIMIT_CONFIG) t
              (admittedTimes req times store))
    <= maxBurstRequests RATE_LIMIT_CONFIG
  /\ Z.of_nat (countInWindow (windowMs RATE_LIMIT_CONFIG) t
                 (admittedTimes req times store))
      <= maxRequests RATE_LIMIT_CONFIG.
Proof.
  intros Hnone. cbn [RATE_LIMIT_CONFIG maxRequests maxBurstRequests].
  induction times as [|x times IH] using rev_ind; intros Hnd.
  - cbn. lia.
  - apply nondecreasing_snoc in Hnd as [Hnd Hle].
    specialize (IH Hnd). rewrite admittedTimes_snoc.
    destruct (allowed (fst (checkRateLimit x req (snd (checkAll req times store)))))
      eqn:Ha; [|now rewrite app_nil_r].
    assert (Hinv := windows_hold_recent_admissions req store (times ++ [x])
                      Hnone x).
    rewrite checkAll_snoc, admittedTimes_snoc, Ha, entry_after_check, Ha in Hinv.
    rewrite prune_recorded in Hinv.
    destruct (admitted_lengths x req (snd (checkAll req times store)) Ha)
      as [Hl Hb].
    cbv zeta in Hl, Hb. rewrite entry_after_check, Ha in Hl, Hb.
    rewrite Hinv in Hl, Hb by (apply Forall_app; split;
                                 [assumption|repeat constructor; lia]).
    unfold prune, cleanupExpiredRequests in Hl, Hb.
    cbn [requests burstRequests] in Hl, Hb.
    unfold countInWindow in *.
    set (A := admittedTimes req times store ++ [x]) in *.
    assert (Hwithin : x <= t ->
      (length (filter (fun y => (t - burstWindowMs RATE_LIMIT_CONFIG < y /\ y <= t)%Z) A)
       <= 5)%nat
      /\ (length (filter (fun y => (t - windowMs RATE_LIMIT_CONFIG < y /\ y <= t)%Z) A)
          <= 10)%nat).
    { intros Hxt. split.
      - etransitivity; [|exact Hb].
        apply filter_length_mono. intros y [Hy1 Hy2]. lia.
      - etransitivity; [|exact Hl].
        apply filter_length_mono. intros y [Hy1 Hy2]. lia. }
    assert (Hbeyond : forall window, 0 < window -> ~ (t - window < x /\ x <= t) ->
      length (filter (fun y => t - window < y /\ y <= t) A)
      = length (filter (fun y => t - window < y /\ y <= t)
                  (admittedTimes req times store))).
    { intros window Hpos Hout. subst A.
      rewrite filter_app, length_app, filter_cons, decide_False by exact Hout.
      rewrite filter_nil. cbn [length]. lia. }
    destruct (decide (x <= t)) as [Hxt|Hxt].
    + destruct (Hwithin Hxt) as [H5 H10].
      split; [apply (Nat2Z.inj_le _ 5)|apply (Nat2Z.inj_le _ 10)]; assumption.
    + rewrite !Hbeyond by (cbn; lia). exact IH.
Qed.

(** Twelve requests, one every 100 ms. *)
Lemma sliding_windows_never_exceeded_witness :
  Z.of_nat (countInWindow (burstWindowMs RATE_LIMIT_CONFIG) 1100
              (admittedTimes plainRequest
                 [0; 100; 200; 300; 400; 500; 600; 700; 800; 900; 1000; 1100] ∅))
    <= maxBurstRequests RATE_LIMIT_CONFIG
  /\ Z.of_nat (countInWindow (windowMs RATE_LIMIT_CONFIG) 1100
                 (admittedTimes plainRequest
                    [0; 100; 200; 300; 400; 500; 600; 700; 800; 900; 1000; 1100] ∅))
      <= maxRequests RATE_LIMIT_CONFIG.
Proof.
  apply (sliding_windows_never_exceeded plainRequest
           [0; 100; 200; 300; 400; 500; 600; 700; 800; 900; 1000; 1100] ∅ 1100).
  - apply lookup_empty.
  - cbn [nondecreasing]. repeat split; repeat constructor; lia.
Defined.

(** ** Clients do not interfere *)

(** Requests of two different clients commute: whichever is checked
    first, each gets the same verdict and report, and the store ends up
    the same. *)
Theorem different_clients_commute (nowA nowB : Z) (reqA reqB : Request)
    (store : gmap string RateLimitEntry) :
  getClientIdentifier reqA <> getClientIdentifier reqB ->
  let a_first := checkRateLimit nowA reqA store in
  let b_second := checkRateLimit nowB reqB (snd a_first) in
  let b_first := checkRateLimit nowB reqB store in
  let a_second := checkRateLimit nowA reqA (snd b_first) in
  fst a_first = fst a_second
  /\ fst b_first = fst b_second
  /\ snd b_second = snd a_second.
Proof.
  intros Hne. cbv zeta. rewrite !checkRateLimit_unfold. cbn [fst snd].
  assert (HA : entryOf (<[getClientIdentifier reqB :=
                 if fst (isRateLimited nowB (entryOf store (getClientIdentifier reqB))
                           RATE_LIMIT_CONFIG)
                 then prune nowB RATE_LIMIT_CONFIG (entryOf store (getClientIdentifier reqB))
                 else recorded nowB (prune nowB RATE_LIMIT_CONFIG
                                       (entryOf store (getClientIdentifier reqB)))]> store)
                (getClientIdentifier reqA)
               = entryOf store (getClientIdentifier reqA)).
  { unfold entryOf. now rewrite lookup_insert_ne by congruence. }
  assert (HB : entryOf (<[getClientIdentifier reqA :=
                 if fst (isRateLimited nowA (entryOf store (getClientIdentifier reqA))
                           RATE_LIMIT_CONFIG)
                 then prune nowA RATE_LIMIT_CONFIG (entryOf store (getClientIdentifier reqA))
                 else recorded nowA (prune nowA RATE_LIMIT_CONFIG
                                       (entryOf store (getClientIdentifier reqA)))]> store)
                (getClientIdentifier reqB)
               = entryOf store (getClientIdentifier reqB)).
  { unfold entryOf. now rewrite lookup_insert_ne by congruence. }
  rewrite HA, HB. repeat split.
  apply insert_insert_ne. congruence.
Qed.

Lemma different_clients_commute_witness :
  snd (checkRateLimit 7 (mkRequest (Some "5.6.7.8"%string) (fun _ => None))
         (snd (checkRateLimit 5 plainRequest afterBurst)))
  = snd (checkRateLimit 5 plainRequest
           (snd (checkRateLimit 7 (mkRequest (Some "5.6.7.8"%string) (fun _ => None))
                   afterBurst))).
Proof.
  apply (different_clients_commute 5 7 plainRequest
           (mkRequest (Some "5.6.7.8"%string) (fun _ => None)) afterBurst).
  vm_compute. discriminate.
Defined.

(** ** The background sweep and the statistics *)

(** The verdict and the report depend on the stored entry only through
    what is left of it after pruning at the time of the request. *)
Lemma result_depends_on_pruned_entry now req store1 store2 :
  prune now RATE_LIMIT_CONFIG (entryOf store1 (getClientIdentifier req))
  = prune now RATE_LIMIT_CONFIG (entryOf store2 (getClientIdentifier req)) ->
  fst (checkRateLimit now req store1) = fst (checkRateLimit now req store2).
Proof.
  intros Hp. rewrite !checkRateLimit_unfold. cbn [fst].
  assert (Hl : fst (isRateLimited now (entryOf store1 (getClientIdentifier req))
                      RATE_LIMIT_CONFIG)
               = fst (isRateLimited now (entryOf store2 (getClientIdentifier req))
                        RATE_LIMIT_CONFIG)).
  { unfold isRateLimited. now rewrite Hp. }
  now rewrite Hl, Hp.
Qed.

Lemma cleanup_all_old now later window (l : list Z) :
  now <= later ->
  filter (fun timestamp => now - timestamp < window) l = [] ->
  cleanupExpiredRequests later l window = [].
Proof.
  intros Hle Hnone. unfold cleanupExpiredRequests.
  rewrite <- (list_filter_filter_l _ (fun timestamp => now - timestamp < window))
    by (intros; lia).
  now rewrite Hnone.
Qed.

(** The sweep of startRateLimitCleanup changes no decision: in a store
    the limiter can reach, a request at or after the time of the sweep
    gets the same verdict and report as without the sweep. *)
Theorem cleanup_changes_no_decision (now later : Z) (req : Request)
    (store : gmap string RateLimitEntry) :
  reachable store ->
  now <= later ->
  fst (checkRateLimit later req (cleanupTick now store))
  = fst (checkRateLimit later req store).
Proof.
  intros Hreach Hle. apply result_depends_on_pruned_entry.
  unfold entryOf, cleanupTick.
  destruct (store !! getClientIdentifier req) as [entry|] eqn:Hlook.
  - destruct (decide (filter (fun timestamp =>
                                now - timestamp < windowMs RATE_LIMIT_CONFIG * 2)
                             (requests entry) = [])) as [Hold|Hrecent].
    + rewrite map_lookup_filter_None_2.
      2:{ right. intros e' Hl'. rewrite Hlook in Hl'. injection Hl' as <-.
          cbn [snd]. intros Hkeep. now apply Hkeep. }
      pose proof (reachable_burstWithinLong _ Hreach _ _ Hlook) as Hsub.
      assert (Hreq : cleanupExpiredRequests later (requests entry)
                       (windowMs RATE_LIMIT_CONFIG) = []).
      { rewrite <- (cleanup_later now later) by assumption.
        unfold cleanupExpiredRequests at 2.
        rewrite <- (list_filter_filter_l _
          (fun timestamp => now - timestamp < windowMs RATE_LIMIT_CONFIG * 2))
          by (cbn; intros; lia).
        now rewrite Hold. }
      assert (Hburst : cleanupExpiredRequests later (burstRequests entry)
                         (burstWindowMs RATE_LIMIT_CONFIG) = []).
      { unfold cleanupExpiredRequests.
        destruct (filter _ (burstRequests entry)) as [|t rest] eqn:Hf;
          [reflexivity|].
        assert (Hin : t ∈ filter (fun timestamp =>
                        later - timestamp < burstWindowMs RATE_LIMIT_CONFIG)
                        (burstRequests entry))
          by (rewrite Hf; apply list_elem_of_here).
        apply list_elem_of_filter in Hin as [Ht Hin].
        apply Hsub in Hin.
        assert (Hin' : t ∈ cleanupExpiredRequests later (requests entry)
                             (windowMs RATE_LIMIT_CONFIG)).
        { unfold cleanupExpiredRequests. apply list_elem_of_filter.
          split; [cbn in *; lia|assumption]. }
        rewrite Hreq in Hin'. now apply elem_of_nil in Hin'. }
      unfold prune. now rewrite Hreq, Hburst.
    + now rewrite (map_lookup_filter_Some_2 _ _ _ _ Hlook Hrecent).
  - rewrite map_lookup_filter_None_2; [reflexivity|]. now left.
Qed.

Lemma cleanup_changes_no_decision_witness :
  fst (checkRateLimit 200000 plainRequest (cleanupTick 150000 afterBurst))
  = fst (checkRateLimit 200000 plainRequest afterBurst).
Proof.
  apply (cleanup_changes_no_decision 150000 200000 plainRequest afterBurst).
  - exact afterBurst_reachable.
  - lia.
Defined.

(** The statistics never count more active clients than clients, and the
    sweep forgets no client that is active at or after the time of the
    sweep: the number of active clients stays what it was. *)
Theorem cleanup_keeps_active_clients (now later : Z)
    (store : gmap string RateLimitEntry) :
  now <= later ->
  activeClients (getRateLimitStats later (cleanupTick now store))
  = activeClients (getRateLimitStats later store)
  /\ activeClients (getRateLimitStats later store)
     <= totalClients (getRateLimitStats later store)
  /\ totalClients (getRateLimitStats later (cleanupTick now store))
     <= totalClients (getRateLimitStats later store).
Proof.
  intros Hle. unfold getRateLimitStats, cleanupTick.
  cbn [activeClients totalClients]. split; [|split].
  - f_equal. f_equal. apply map_filter_filter_l.
    intros clientId entry _ Hact. unfold isActive in Hact. cbn [snd] in *.
    intros Hold. apply Hact.
    eapply (cleanup_all_old now later); [assumption|].
    rewrite <- (list_filter_filter_l _
      (fun timestamp => now - timestamp < windowMs RATE_LIMIT_CONFIG * 2))
      by (cbn; intros; lia).
    now rewrite Hold.
  - apply Nat2Z.inj_le, map_subseteq_size, map_filter_subseteq.
  - apply Nat2Z.inj_le, map_subseteq_size, map_filter_subseteq.
Qed.

Lemma cleanup_keeps_active_clients_witness :
  activeClients (getRateLimitStats 30000 (cleanupTick 20000 afterBurst))
  = activeClients (getRateLimitStats 30000 afterBurst)
  /\ activeClients (getRateLimitStats 30000 afterBurst)
     <= totalClients (getRateLimitStats 30000 afterBurst)
  /\ totalClients (getRateLimitStats 30000 (cleanupTick 20000 afterBurst))
     <= totalClients (getRateLimitStats 30000 afterBurst).
Proof.
  apply (cleanup_keeps_active_clients 20000 30000 afterBurst). lia.
Defined.

End RateLimiterMore.

(* ===================================================================== *)
(** * Further properties of the insertion-ordered map *)
(* ===================================================================== *)

Module JsMapMore.
Section Facts.
Context {V : Type}.
Implicit Types (m : list (string * V)) (k : string) (v : V).

Lemma elem_set k v m kv :
  kv ∈ JsMap.set k v m -> kv ∈ m \/ kv = (k, v).
Proof.
  induction m as [|[k0 v0] m IH]; cbn [JsMap.set].
  - intros [->|[]%elem_of_nil]%elem_of_cons. now right.
  - destruct (String.eqb k0 k).
    + intros [->|Hin]%elem_of_cons; [now right|].
      left. now apply list_elem_of_further.
    + intros [->|Hin]%elem_of_cons; [left; apply list_elem_of_here|].
      destruct (IH Hin) as [?|?]; [left|now right].
      now apply list_elem_of_further.
Qed.

Lemma elem_delete k m kv : kv ∈ JsMap.delete k m -> kv ∈ m.
Proof.
  induction m as [|[k0 v0] m IH]; cbn [JsMap.delete]; [trivial|].
  destruct (String.eqb k0 k).
  - intros Hin. apply list_elem_of_further, IH, Hin.
  - intros [->|Hin]%elem_of_cons; [apply list_elem_of_here|].
    apply list_elem_of_further, IH, Hin.
Qed.

Lemma length_set_present k v m :
  JsMap.has k m = true -> length (JsMap.set k v m) = length m.
Proof.
  intros Hhas.
  rewrite <- (length_map fst (JsMap.set k v m)), <- (length_map fst m).
  change (map fst (JsMap.set k v m)) with (JsMap.keys (JsMap.set k v m)).
  now rewrite JsMapFacts.keys_set, Hhas.
Qed.

Lemma keys_set_elem k v m k' :
  k' ∈ JsMap.keys (JsMap.set k v m) -> k' ∈ JsMap.keys m \/ k' = k.
Proof.
  rewrite JsMapFacts.keys_set. destruct (JsMap.has k m); [now left|].
  intros [?|[->|[]%elem_of_nil]%elem_of_cons]%elem_of_app; [now left|now right].
Qed.
End Facts.
End JsMapMore.

(* ===================================================================== *)
(** * Further properties of the cache *)
(* ===================================================================== *)

Module CacheMore.
Import Cache CacheProofs.

Section Generic.
Context {T : Type}.
Implicit Types (st : State T) (entry : CacheEntry T).

(** ** Reading, deleting, clearing *)

Lemma getFromCache_result now key st :
  fst (getFromCache now key st)
  = match JsMap.get key (cache st) with
    | Some entry => if isExpired now entry then None else Some (value entry)
    | None => None
    end.
Proof.
  unfold getFromCache. destruct (JsMap.get key (cache st)) as [entry|];
    [|reflexivity].
  now destruct (isExpired now entry).
Qed.

Lemma getFromCache_cache now key st :
  cache (snd (getFromCache now key st))
  = match JsMap.get key (cache st) with
    | Some entry =>
        if isExpired now entry then JsMap.delete key (cache st)
        else JsMap.set key {| value := value entry; timestamp := now;
                              ttl := ttl entry |} (cache st)
    | None => cache st
    end.
Proof.
  unfold getFromCache. destruct (JsMap.get key (cache st)) as [entry|];
    [|reflexivity].
  now destruct (isExpired now entry).
Qed.

(** A value written is read back as long as at most ttl milliseconds
    have passed since the write, and no longer; a write without ttl uses
    60 seconds.  This holds whatever the cache held before, also when the
    key was already present. *)
Theorem set_then_get (now later : Z) (key : string) (v : T)
    (ttl0 : option Z) (st : State T) :
  fst (getFromCache later key (setCache now key v ttl0 st))
  = if bool_decide (later - now <= default CACHE_TTL ttl0)
    then Some v else None.
Proof.
  rewrite getFromCache_result, cache_setCache, JsMapFacts.get_set,
    String.eqb_refl.
  unfold isExpired. cbn [timestamp ttl value].
  replace (match ttl0 with Some t => t | None => CACHE_TTL end)
    with (default CACHE_TTL ttl0) by now destruct ttl0.
  repeat case_bool_decide; try reflexivity; lia.
Qed.

(** deleteFromCache reports whether the key was present; afterwards a
    read of the key misses at any time, and every other key has the entry
    it had. *)
Theorem deleteFromCache_removes_only_the_key (now : Z) (key : string)
    (st : State T) :
  let r := deleteFromCache now key st in
  (fst r = true <-> exists entry, JsMap.get key (cache st) = Some entry)
  /\ (forall later, fst (getFromCache later key (snd r)) = None)
  /\ (forall other, other <> key ->
        JsMap.get other (cache (snd r)) = JsMap.get other (cache st)).
Proof.
  cbv zeta. unfold deleteFromCache. cbn [fst snd]. split; [|split].
  - unfold JsMap.has. destruct (JsMap.get key (cache st)) as [entry|].
    + split; [eauto|reflexivity].
    + split; [discriminate|]. intros [entry [=]].
  - intros later. rewrite getFromCache_result, cache_recordResponseTime.
    cbn [cache withCache]. now rewrite JsMapFacts.get_delete, String.eqb_refl.
  - intros other Hne. rewrite cache_recordResponseTime. cbn [cache withCache].
    rewrite JsMapFacts.get_delete.
    destruct (String.eqb_spec key other); [congruence|reflexivity].
Qed.

(** A read touches no key but the one it reads. *)
Theorem getFromCache_leaves_other_keys (now : Z) (key other : string)
    (st : State T) :
  other <> key ->
  JsMap.get other (cache (snd (getFromCache now key st)))
  = JsMap.get other (cache st).
Proof.
  intros Hne. rewrite getFromCache_cache.
  destruct (JsMap.get key (cache st)) as [entry|]; [|reflexivity].
  destruct (isExpired now entry).
  - rewrite JsMapFacts.get_delete.
    destruct (String.eqb_spec key other); [congruence|reflexivity].
  - rewrite JsMapFacts.get_set.
    destruct (String.eqb_spec key other); [congruence|reflexivity].
Qed.

(** After clearCache the cache is empty and the hit, miss and size
    counters are zero; getCacheStats reports these zeros, and every read
    misses until the next write. *)
Theorem clearCache_resets (now : Z) (st : State T) :
  let st' := clearCache now st in
  cache st' = []
  /\ (forall later,
        hits (fst (getCacheStats later st')) = 0
        /\ misses (fst (getCacheStats later st')) = 0
        /\ size (fst (getCacheStats later st')) = 0
        /\ maxSize (fst (getCacheStats later st')) = maxSize (stats st))
  /\ (forall later key,
        fst (getFromCache later key st') = None
        /\ misses (stats (snd (getFromCache later key st'))) = 1
        /\ hits (stats (snd (getFromCache later key st'))) = 0).
Proof.
  cbv zeta. split; [reflexivity|]. split.
  - intros later. repeat split.
  - intros later key. repeat split.
Qed.

(** ** Counters *)

Lemma cache_run_snoc (ops : list (@Op T)) op st :
  run (ops ++ [op]) st = apply op (run ops st).
Proof. unfold run. now rewrite foldl_app. Qed.

Lemma cache_run_cons (ops : list (@Op T)) op st :
  run (op :: ops) st = run ops (apply op st).
Proof. reflexivity. Qed.

Lemma counters_removeExpiredEntries now st :
  hits (stats (removeExpiredEntries now st)) = hits (stats st)
  /\ misses (stats (removeExpiredEntries now st)) = misses (stats st).
Proof. unfold removeExpiredEntries. destruct (0 <? _)%nat; split; reflexivity. Qed.

Lemma counters_evictLRU now st :
  stats (evictLRU now st) = stats st.
Proof.
  unfold evictLRU. case_bool_decide; [|reflexivity].
  destruct (scanOldest (cache st) "" now) as [k t].
  now destruct (negb _).
Qed.

Lemma counters_apply op st :
  isClear op = false ->
  hits (stats (apply op st)) + misses (stats (apply op st))
  = hits (stats st) + misses (stats st) + (if isGet op then 1 else 0).
Proof.
  destruct op as [now key v ttl0|now key|now key|now]; cbn [isClear isGet apply];
    intros Hc; try discriminate.
  - unfold setCache.
    rewrite hits_recordResponseTime, misses_recordResponseTime.
    cbn [stats withCache]. rewrite counters_evictLRU.
    destruct (counters_removeExpiredEntries now st) as [-> ->]. lia.
  - unfold getFromCache. destruct (JsMap.get key (cache st)) as [entry|].
    + destruct (isExpired now entry); cbn [snd];
        rewrite hits_recordResponseTime, misses_recordResponseTime;
        cbn [stats withCache bumpMisses bumpHits hits misses]; lia.
    + cbn [snd].
      rewrite hits_recordResponseTime, misses_recordResponseTime.
      cbn [stats bumpMisses hits misses]. lia.
  - cbn [deleteFromCache snd].
    rewrite hits_recordResponseTime, misses_recordResponseTime.
    cbn [stats withCache]. lia.
Qed.

(** Between two clears the counters account for every read: hits plus
    misses grows by exactly the number of getFromCache calls, and writes
    and deletes leave both counters alone. *)
Theorem hits_and_misses_count_reads (ops : list (@Op T)) (st : State T) :
  forallb (fun op => negb (isClear op)) ops = true ->
  hits (stats (run ops st)) + misses (stats (run ops st))
  = hits (stats st) + misses (stats st)
    + Z.of_nat (length (List.filter isGet ops)).
Proof.
  revert st. induction ops as [|op ops IH]; intros st Hnc.
  - cbn. lia.
  - cbn [forallb] in Hnc. apply andb_prop in Hnc as [Hop Hnc].
    apply Bool.negb_true_iff in Hop.
    rewrite cache_run_cons, IH by assumption.
    rewrite (counters_apply op st Hop). cbn [List.filter].
    destruct (isGet op); cbn [length]; lia.
Qed.

Lemma size_recordResponseTime rt st :
  size (stats (recordResponseTime rt st)) = JsMap.size (cache st).
Proof. reflexivity. Qed.

Lemma apply_ends_in_record op st :
  exists rt st0, apply op st = recordResponseTime rt st0.
Proof.
  destruct op as [now key v ttl0|now key|now key|now]; cbn [apply].
  - unfold setCache. eauto.
  - unfold getFromCache. destruct (JsMap.get key (cache st)) as [entry|];
      [destruct (isExpired now entry)|]; cbn [snd]; eauto.
  - cbn [deleteFromCache snd]. eauto.
  - unfold clearCache. eauto.
Qed.

(** The size counter is current after every operation, and the rolling
    list of response times never holds more than 100 values.  The size
    that getCacheStats reports is the number of entries not expired at the
    time of the call. *)
Theorem reported_size_is_current (ops : list (@Op T)) (op : Op)
    (now : Z) :
  let st := run (ops ++ [op]) initial in
  size (stats st) = JsMap.size (cache st)
  /\ (length (responseTimes st) <= 100)%nat
  /\ size (fst (getCacheStats now st)) = Z.of_nat (length (liveEntries now st)).
Proof.
  cbv zeta. rewrite cache_run_snoc.
  destruct (apply_ends_in_record op (run ops initial)) as (rt & st0 & ->).
  split; [now rewrite size_recordResponseTime, cache_recordResponseTime|].
  split.
  - unfold recordResponseTime. cbn [responseTimes updateStats].
    destruct (100 <? length (responseTimes st0 ++ [rt]))%nat eqn:Hlen;
      [|apply Nat.ltb_ge in Hlen; exact Hlen].
    rewrite length_drop. lia.
  - unfold getCacheStats. cbn [fst]. unfold updateStats. cbn [stats size cache].
    rewrite cache_removeExpiredEntries. reflexivity.
Qed.

(** ** The sweep *)

Lemma isLive_later t now (kv : string * CacheEntry T) :
  t <= now -> isLive now kv = true -> isLive t kv = true.
Proof.
  unfold isLive, isExpired. intros Hle.
  rewrite !Bool.negb_true_iff, !bool_decide_eq_false. lia.
Qed.

(** The sweep (the callback of startCacheCleanup, also run by every
    write) is invisible to readers: a read at or after the time of the
    sweep returns what it would have returned without the sweep. *)
Theorem sweep_is_invisible_to_reads (t now : Z) (key : string)
    (st : State T) :
  NoDup (JsMap.keys (cache st)) ->
  t <= now ->
  fst (getFromCache now key (removeExpiredEntries t st))
  = fst (getFromCache now key st).
Proof.
  intros Hnd Hle. rewrite !getFromCache_result, cache_removeExpiredEntries.
  rewrite JsMapFacts.get_filter by assumption.
  destruct (JsMap.get key (cache st)) as [entry|]; [|reflexivity].
  destruct (isLive t (key, entry)) eqn:Hlive; [reflexivity|].
  destruct (isExpired now entry) eqn:Hexp; [reflexivity|].
  assert (Hl : isLive now (key, entry) = true)
    by (unfold isLive; cbn [snd]; now rewrite Hexp).
  apply (isLive_later t) in Hl; [congruence|assumption].
Qed.

(** getCacheKeys lists exactly the keys a read at that time would hit,
    each once. *)
Theorem listed_keys_are_the_readable_ones (now : Z) (key : string)
    (st : State T) :
  NoDup (JsMap.keys (cache st)) ->
  NoDup (fst (getCacheKeys now st))
  /\ (key ∈ fst (getCacheKeys now st)
      <-> exists v, fst (getFromCache now key st) = Some v).
Proof.
  intros Hnd. unfold getCacheKeys. cbn [fst].
  rewrite cache_removeExpiredEntries. split.
  - now apply JsMapFacts.NoDup_keys_filter.
  - rewrite getFromCache_result.
    pose proof (JsMapFacts.get_filter (isLive now) key (cache st) Hnd) as Hf.
    destruct (JsMap.get key (cache st)) as [entry|] eqn:Hget.
    + unfold isLive in Hf. cbn [snd] in Hf.
      destruct (isExpired now entry).
      * cbn [negb] in Hf. apply JsMapFacts.get_None_keys in Hf.
        split; [contradiction|]. intros [v [=]].
      * cbn [negb] in Hf. split; [eauto|]. intros _.
        apply JsMapFacts.get_Some_elem in Hf. unfold JsMap.keys.
        apply list_elem_of_fmap. now exists (key, entry).
    + apply JsMapFacts.get_None_keys in Hf.
      split; [contradiction|]. intros [v [=]].
Qed.

(** ** Capacity *)

Lemma evictLRU_sub now st kv :
  kv ∈ cache (evictLRU now st) -> kv ∈ cache st.
Proof.
  destruct (evictLRU_cases now st) as [->|(k & e & -> & _)]; [trivial|].
  apply JsMapMore.elem_delete.
Qed.

Lemma inGoodShape_apply last op st :
  inGoodShape last st ->
  last < opTime op ->
  match op with OpSet _ key _ _ => key <> ""%string | _ => True end ->
  inGoodShape (opTime op) (apply op st).
Proof.
  intros (Hsize & Hkeys & Hold) Hlt Hkey.
  destruct op as [now key v ttl0|now key|now key|now]; cbn [apply opTime] in *.
  - split; [|split].
    + apply setCache_within_capacity; try assumption.
      intros k e Hin. specialize (Hold k e Hin). lia.
    + rewrite cache_setCache. intros [Hin|Heq]%JsMapMore.keys_set_elem;
        [|congruence].
      apply Hkeys. unfold JsMap.keys in *.
      apply list_elem_of_fmap in Hin as ([k e] & Hk & Hin). cbn in Hk. subst k.
      apply evictLRU_sub in Hin. rewrite cache_removeExpiredEntries in Hin.
      apply JsMapFacts.elem_filter in Hin as [Hin _].
      apply list_elem_of_fmap. now exists (""%string, e).
    + intros k e. rewrite cache_setCache.
      intros [Hin|[= -> ->]]%JsMapMore.elem_set; [|cbn [timestamp]; lia].
      apply evictLRU_sub in Hin. rewrite cache_removeExpiredEntries in Hin.
      apply JsMapFacts.elem_filter in Hin as [Hin _].
      specialize (Hold k e Hin). lia.
  - unfold inGoodShape. rewrite getFromCache_cache.
    destruct (JsMap.get key (cache st)) as [entry|] eqn:Hget.
    + destruct (isExpired now entry).
      * split; [|split].
        -- unfold JsMap.size in *.
           pose proof (JsMapFacts.length_delete key (cache st)). lia.
        -- intros Hin. apply Hkeys.
           eapply elem_of_sublist; [exact Hin|apply JsMapFacts.keys_delete_sublist].
        -- intros k e Hin%JsMapMore.elem_delete.
           specialize (Hold k e Hin). lia.
      * split; [|split].
        -- unfold JsMap.size in *. rewrite JsMapMore.length_set_present;
             [assumption|]. unfold JsMap.has. now rewrite Hget.
        -- intros [Hin| Heq]%JsMapMore.keys_set_elem; [contradiction|].
           apply Hkeys. rewrite Heq. unfold JsMap.keys.
           apply list_elem_of_fmap. exists (key, entry).
           split; [reflexivity|now apply JsMapFacts.get_Some_elem].
        -- intros k e [Hin|[= -> ->]]%JsMapMore.elem_set; [|cbn [timestamp]; lia].
           specialize (Hold k e Hin). lia.
    + split; [assumption|]. split; [assumption|].
      intros k e Hin. specialize (Hold k e Hin). lia.
  - unfold inGoodShape. cbn [deleteFromCache snd].
    rewrite cache_recordResponseTime.
    cbn [cache withCache]. split; [|split].
    + unfold JsMap.size in *.
      pose proof (JsMapFacts.length_delete key (cache st)). lia.
    + intros Hin. apply Hkeys.
      eapply elem_of_sublist; [exact Hin|apply JsMapFacts.keys_delete_sublist].
    + intros k e Hin%JsMapMore.elem_delete. specialize (Hold k e Hin). lia.
  - split; [|split].
    + change (JsMap.size (cache (clearCache now st))) with 0.
      unfold MAX_CACHE_SIZE. lia.
    + apply not_elem_of_nil.
    + intros k e Hin. now apply elem_of_nil in Hin.
Qed.

Lemma inGoodShape_run (ops : list (@Op T)) : forall last st,
  inGoodShape last st -> advancing last ops -> writesNamedKeys ops ->
  JsMap.size (cache (run ops st)) <= MAX_CACHE_SIZE.
Proof.
  induction ops as [|op ops IH]; intros last st Hinv Hadv Hkeys.
  - exact (proj1 Hinv).
  - cbn [advancing] in Hadv. destruct Hadv as [Hlt Hadv].
    apply Forall_cons in Hkeys as [Hkey Hkeys].
    rewrite cache_run_cons. apply (IH (opTime op)); try assumption.
    now apply (inGoodShape_apply last).
Qed.

(** The capacity bound holds as long as every operation reads a later
    clock value than the one before it and no write uses the empty key:
    under these two conditions the cache never holds more than
    MAX_CACHE_SIZE entries. *)
Theorem capacity_kept_while_clock_advances (ops : list (@Op T))
    (start : Z) :
  advancing start ops ->
  writesNamedKeys ops ->
  JsMap.size (cache (run ops initial)) <= MAX_CACHE_SIZE.
Proof.
  intros Hadv Hkeys. apply (inGoodShape_run ops start); try assumption.
  split; [|split].
  - change (JsMap.size (cache (@initial T))) with 0.
    unfold MAX_CACHE_SIZE. lia.
  - apply not_elem_of_nil.
  - intros k e Hin. now apply elem_of_nil in Hin.
Qed.

End Generic.

(** A hundred and fifty writes of distinct keys, one per millisecond. *)
Lemma capacity_kept_while_clock_advances_witness :
  JsMap.size (cache (run (fillFrom Z.of_nat 1 150) initial)) <= MAX_CACHE_SIZE.
Proof.
  apply (capacity_kept_while_clock_advances (fillFrom Z.of_nat 1 150) 0).
  - vm_compute. repeat split.
  - unfold writesNamedKeys, fillFrom. apply Forall_fmap, Forall_forall.
    intros i Hi%elem_of_seq. destruct i as [|i]; [lia|]. discriminate.
Defined.

Lemma sweep_is_invisible_to_reads_witness :
  fst (getFromCache 70000 "aa" (removeExpiredEntries 60002
                                  (run (fillFrom Z.of_nat 1 3) initial)))
  = fst (getFromCache 70000 "aa" (run (fillFrom Z.of_nat 1 3) initial)).
Proof.
  apply (sweep_is_invisible_to_reads 60002 70000 "aa"
           (run (fillFrom Z.of_nat 1 3) initial)).
  - apply (bool_decide_unpack _). vm_compute. exact I.
  - lia.
Defined.

Lemma listed_keys_are_the_readable_ones_witness :
  NoDup (fst (getCacheKeys 60002 (run (fillFrom Z.of_nat 1 3) initial)))
  /\ ("aa"%string ∈ fst (getCacheKeys 60002 (run (fillFrom Z.of_nat 1 3) initial))
      <-> exists v, fst (getFromCache 60002 "aa"
                          (run (fillFrom Z.of_nat 1 3) initial)) = Some v).
Proof.
  apply (listed_keys_are_the_readable_ones 60002 "aa"
           (run (fillFrom Z.of_nat 1 3) initial)).
  apply (bool_decide_unpack _). vm_compute. exact I.
Defined.

Lemma hits_and_misses_count_reads_witness :
  hits (stats (run [OpSet 0 "k" "v"%string None; OpGet 1 "k"; OpGet 2 "x";
                    OpDelete 3 "k"; OpGet 4 "k"] initial))
  + misses (stats (run [OpSet 0 "k" "v"%string None; OpGet 1 "k"; OpGet 2 "x";
                        OpDelete 3 "k"; OpGet 4 "k"] initial))
  = hits (stats (@initial string)) + misses (stats (@initial string))
    + Z.of_nat (length (List.filter isGet
        [OpSet 0 "k" "v"%string None; OpGet 1 "k"; OpGet 2 "x";
         OpDelete 3 "k"; OpGet 4 "k"])).
Proof.
  apply (hits_and_misses_count_reads
           [OpSet 0 "k" "v"%string None; OpGet 1 "k"; OpGet 2 "x";
            OpDelete 3 "k"; OpGet 4 "k"] initial).
  reflexivity.
Defined.

Lemma getFromCache_leaves_other_keys_witness :
  JsMap.get "aa" (cache (snd (getFromCache 50 "a"
                                 (run (fillFrom Z.of_nat 1 3) initial))))
  = JsMap.get "aa" (cache (run (fillFrom Z.of_nat 1 3) initial)).
Proof.
  apply (getFromCache_leaves_other_keys 50 "a" "aa"
           (run (fillFrom Z.of_nat 1 3) initial)).
  discriminate.
Defined.

End CacheMore.

(* ===================================================================== *)
(** * Further properties of the job queue *)
(* ===================================================================== *)

Module QueueMore.
Import Queue QueueProofs.

(** ** The concurrency bound *)






Section Registered.
Implicit Types (st : State) (seen : list string).








Lemma registered_seen seen seen' st :
  (forall k, k ∈ seen -> k ∈ seen') ->
  registered seen st -> registered seen' st.
Proof.
  intros Hsub (Hh & Ht & Hq & Hqa & Hk & Hsz & Hb).
  repeat split; try assumption.
  - now apply Hqa.
  - apply Hsub. now apply Hqa.
  - intros k Hin. auto.
Qed.









End Registered.



(** The condition is needed: when the clock and Math.random repeat, the
    jobs share one key of activeJobs and all of them are started. *)
Example repeated_ids_exceed_the_bound :
  inFlight (run (burstOf 1
    [(0, "a"); (0, "a"); (0, "a"); (0, "a"); (0, "a"); (0, "a"); (0, "a")]%string)
    initial) = 7%nat.
Proof. vm_compute. reflexivity. Qed.

(** ** What completions do and do not do *)

Lemma settle_keeps_queue now h outcome st :
  jobQueue (settle now h outcome st) = jobQueue st
  /\ nextTask (settle now h outcome st) = nextTask st
  /\ totalJobs (queueStats (settle now h outcome st)) = totalJobs (queueStats st).
Proof.
  unfold settle.
  destruct (lookupTask h st) as [[job [inRetry|delay]]|]; try (now repeat split).
  destruct outcome as [res|err]; [now repeat split|].
  destruct inRetry; [now repeat split|].
  case_bool_decide; [|now repeat split].
  destruct (retryJob job) as [msg|[job' delay]]; now repeat split.
Qed.

Lemma timerFires_keeps_queue h st :
  jobQueue (timerFires h st) = jobQueue st
  /\ nextTask (timerFires h st) = nextTask st
  /\ totalJobs (queueStats (timerFires h st)) = totalJobs (queueStats st).
Proof.
  unfold timerFires.
  destruct (lookupTask h st) as [[job [inRetry|delay]]|]; now repeat split.
Qed.

(** A completion starts nothing.  When a processor call settles or a
    retry timer fires, no job leaves the queue and no new activation is
    created: a job that was queued because five were active stays queued
    after they finish, until some caller calls addJob again. *)
Theorem completions_start_no_queued_job (evs : list Event) (st : State) :
  forallb (fun ev => negb (isAddJob ev)) evs = true ->
  jobQueue (run evs st) = jobQueue st
  /\ nextTask (run evs st) = nextTask st.
Proof.
  revert st. induction evs as [|ev evs IH]; intros st Hno; [now split|].
  cbn [forallb] in Hno. apply andb_prop in Hno as [Hev Hno].
  rewrite run_cons. destruct (IH (step st ev) Hno) as [-> ->].
  destruct ev as [now rnd user|now h outcome|h]; cbn [isAddJob negb step] in *;
    [discriminate| |].
  - destruct (settle_keeps_queue now h outcome st) as (-> & -> & _). now split.
  - destruct (timerFires_keeps_queue h st) as (-> & -> & _). now split.
Qed.

(** Six callers, then the five running jobs succeed: the sixth job is
    still in the queue. *)
Lemma completions_start_no_queued_job_witness :
  jobQueue (run [Settle 200 0 (inl "u"); Settle 200 1 (inl "u");
                 Settle 200 2 (inl "u"); Settle 200 3 (inl "u");
                 Settle 200 4 (inl "u")]%string
              (run (burstOf 1 [(0, "a"); (0, "b"); (0, "c"); (0, "d");
                               (0, "e"); (0, "f")]%string) initial))
  = jobQueue (run (burstOf 1 [(0, "a"); (0, "b"); (0, "c"); (0, "d");
                              (0, "e"); (0, "f")]%string) initial)
  /\ nextTask (run [Settle 200 0 (inl "u"); Settle 200 1 (inl "u");
                    Settle 200 2 (inl "u"); Settle 200 3 (inl "u");
                    Settle 200 4 (inl "u")]%string
                 (run (burstOf 1 [(0, "a"); (0, "b"); (0, "c"); (0, "d");
                                  (0, "e"); (0, "f")]%string) initial))
     = nextTask (run (burstOf 1 [(0, "a"); (0, "b"); (0, "c"); (0, "d");
                                 (0, "e"); (0, "f")]%string) initial).
Proof.
  apply (completions_start_no_queued_job
           [Settle 200 0 (inl "u"); Settle 200 1 (inl "u");
            Settle 200 2 (inl "u"); Settle 200 3 (inl "u");
            Settle 200 4 (inl "u")]%string).
  reflexivity.
Defined.

Example sixth_caller_is_left_waiting :
  map id (jobQueue (run ([Settle 200 0 (inl "u"); Settle 200 1 (inl "u");
                          Settle 200 2 (inl "u"); Settle 200 3 (inl "u");
                          Settle 200 4 (inl "u")]%string)
                      (run (burstOf 1 [(0, "a"); (0, "b"); (0, "c"); (0, "d");
                                       (0, "e"); (0, "f")]%string) initial)))
  = ["job_0_f"%string]
  /\ activeJobs (run ([Settle 200 0 (inl "u"); Settle 200 1 (inl "u");
                       Settle 200 2 (inl "u"); Settle 200 3 (inl "u");
                       Settle 200 4 (inl "u")]%string)
                   (run (burstOf 1 [(0, "a"); (0, "b"); (0, "c"); (0, "d");
                                    (0, "e"); (0, "f")]%string) initial))
     = [].
Proof. vm_compute. split; reflexivity. Qed.

Lemma lookupTask_finish h job st : lookupTask h (finish h job st) = None.
Proof.
  change (lookupTask h (finish h job st)) with (lookupTask h (dropTask h st)).
  now rewrite lookupTask_dropTask, Nat.eqb_refl.
Qed.

Lemma activeJobs_finish h job st :
  JsMap.get (id job) (activeJobs (finish h job st)) = None.
Proof.
  cbn [finish activeJobs updateQueueStats withStats withActiveJobs dropTask
       withTasks].
  now rewrite JsMapFacts.get_delete, String.eqb_refl.
Qed.

(** What the caller of a job sees when the first processor call of the
    job settles while the caller is still polling.  A success is delivered
    by the next poll, the activation ends and its key leaves activeJobs.
    A failure is delivered by the next poll as well, although the job is
    then only waiting for its retry: the activation stays, with retries
    incremented, and keeps its slot. *)
Theorem first_outcome_reaches_the_caller (now : Z) (h : nat)
    (job : QueueJob) (st : State) :
  lookupTask h st
  = Some {| taskJob := job; taskPhase := AwaitProcessor false |} ->
  pollForResult (id job) st = Pending ->
  (forall res,
      let st' := settle now h (inl res) st in
      pollForResult (id job) st' = Resolved (Some res)
      /\ lookupTask h st' = None
      /\ JsMap.get (id job) (activeJobs st') = None)
  /\ (forall err,
        let st' := settle now h (inr err) st in
        pollForResult (id job) st' = Rejected err
        /\ (retries job < retryAttempts QUEUE_CONFIG ->
            lookupTask h st'
            = Some {| taskJob := {| id := id job; userId := userId job;
                                    timestamp := timestamp job;
                                    retries := retries job + 1 |};
                      taskPhase :=
                        AwaitTimer (retryDelay QUEUE_CONFIG * (retries job + 1)) |}
            /\ activeJobs st' = activeJobs st)).
Proof.
  intros Hlook _. split.
  - intros res. cbv zeta. unfold settle. rewrite Hlook.
    split; [|split].
    + unfold pollForResult.
      cbn [finish jobResults updateQueueStats withStats withActiveJobs
           dropTask withTasks withJobResults].
      now rewrite JsMapFacts.get_set, String.eqb_refl.
    + apply lookupTask_finish.
    + apply activeJobs_finish.
  - intros err. cbv zeta. unfold settle. rewrite Hlook. split.
    + unfold pollForResult, retryJob. repeat case_bool_decide;
        cbn [finish jobResults updateQueueStats withStats withActiveJobs
             dropTask withTasks withJobResults putTask emit];
        now rewrite JsMapFacts.get_set, String.eqb_refl.
    + intros Hret. unfold retryJob.
      rewrite bool_decide_eq_true_2 by assumption.
      rewrite bool_decide_eq_false_2 by lia.
      split; [|reflexivity].
      rewrite lookupTask_putTask, Nat.eqb_refl. reflexivity.
Qed.

(** One caller whose first processor call fails at 200 ms. *)
Lemma first_outcome_reaches_the_caller_witness :
  pollForResult "job_0_abc" (settle 200 0 (inr "boom"%string)
                               (run [AddJob 0 "abc" 1] initial))
  = Rejected "boom"
  /\ lookupTask 0 (settle 200 0 (inr "boom"%string)
                     (run [AddJob 0 "abc" 1] initial))
     = Some {| taskJob := {| id := "job_0_abc"; userId := 1;
                             timestamp := 0; retries := 0 + 1 |};
               taskPhase := AwaitTimer (retryDelay QUEUE_CONFIG * (0 + 1)) |}
  /\ activeJobs (settle 200 0 (inr "boom"%string)
                   (run [AddJob 0 "abc" 1] initial))
     = activeJobs (run [AddJob 0 "abc" 1] initial).
Proof.
  destruct (first_outcome_reaches_the_caller 200 0 (createJob 0 "abc" 1)
              (run [AddJob 0 "abc" 1] initial)) as [_ Hfail].
  - vm_compute. reflexivity.
  - vm_compute. reflexivity.
  - destruct (Hfail "boom"%string) as [Hpoll Hretry].
    split; [exact Hpoll|]. apply Hretry. cbn. lia.
Defined.

(** ** Reuse of a stored result *)

(** When processQueue reuses a result, the caller gets the first result
    stored in jobResults, whoever it was fetched for.  The reuse is
    triggered by any recent result whose job id ends in the decimal text
    of the caller's user id; no processor call is made. *)
Theorem reuse_delivers_first_stored_result (now : Z) (rnd : string)
    (user : Z) (st : State) (firstId : string) (first : JobResult)
    (others : list (string * JobResult)) :
  jobQueue st = [] ->
  JsMap.size (activeJobs st) < maxConcurrency QUEUE_CONFIG ->
  jobResults st = (firstId, first) :: others ->
  error first = None ->
  recentResultForUser now (createJob now rnd user) (jobResults st) = true ->
  let st' := snd (addJob now rnd user st) in
  pollForResult (fst (addJob now rnd user st)) st' = Resolved (result first)
  /\ effects st' = effects st
  /\ jobQueue st' = []
  /\ activeJobs st' = activeJobs st.
Proof.
  intros Hq Hroom Hres Herr Hrecent. destruct st as [q a r s t n e].
  cbn [jobQueue activeJobs jobResults] in *. subst q r.
  destruct first as [res err ts]. cbn [error] in Herr. subst err.
  cbv zeta. unfold addJob, processQueue. cbn [fst snd].
  cbn [withStats withJobQueue updateQueueStats jobQueue activeJobs jobResults
       queueStats tasks nextTask effects app processQueue_loop].
  rewrite bool_decide_eq_true_2 by exact Hroom.
  unfold existingResult. cbn [JsMap.values map snd List.find].
  rewrite Hrecent.
  cbn [processQueue_loop withJobResults withStats withJobQueue jobResults
       effects jobQueue activeJobs].
  unfold pollForResult.
  cbn [jobResults effects activeJobs jobQueue withJobQueue withStats
       withJobResults updateQueueStats result].
  rewrite JsMapFacts.get_set. rewrite String.eqb_refl. repeat split.
Qed.

(** User 1's data was fetched by a job whose random suffix is "7"; one
    second later a caller asks for user 7 and is handed user 1's data. *)
Lemma reuse_delivers_first_stored_result_witness :
  pollForResult (fst (addJob 1200 "xyz" 7
                        (run [AddJob 0 "7" 1; Settle 200 0 (inl "user 1")]%string
                           initial)))
    (snd (addJob 1200 "xyz" 7
            (run [AddJob 0 "7" 1; Settle 200 0 (inl "user 1")]%string initial)))
  = Resolved (Some "user 1"%string)
  /\ effects (snd (addJob 1200 "xyz" 7
                     (run [AddJob 0 "7" 1; Settle 200 0 (inl "user 1")]%string
                        initial)))
     = effects (run [AddJob 0 "7" 1; Settle 200 0 (inl "user 1")]%string initial)
  /\ jobQueue (snd (addJob 1200 "xyz" 7
                      (run [AddJob 0 "7" 1; Settle 200 0 (inl "user 1")]%string
                         initial))) = []
  /\ activeJobs (snd (addJob 1200 "xyz" 7
                        (run [AddJob 0 "7" 1; Settle 200 0 (inl "user 1")]%string
                           initial)))
     = activeJobs (run [AddJob 0 "7" 1; Settle 200 0 (inl "user 1")]%string
                     initial).
Proof.
  apply (reuse_delivers_first_stored_result 1200 "xyz" 7
           (run [AddJob 0 "7" 1; Settle 200 0 (inl "user 1")]%string initial)
           "job_0_7"
           {| result := Some "user 1"%string; error := None;
              resultTimestamp := 200 |} []).
  - reflexivity.
  - vm_compute. reflexivity.
  - vm_compute. reflexivity.
  - reflexivity.
  - vm_compute. reflexivity.
Defined.

End QueueMore.

(* ===================================================================== *)
(** * Properties of the mock user store *)
(* ===================================================================== *)

Module MockDataProofs.
Import MockData.

Lemma foldr_jsMax_finite (l : list JsNumber) (z : Z) :
  Finite z ∈ l ->
  exists m, foldr jsMax MinusInfinity l = Finite m /\ z <= m.
Proof.
  induction l as [|k l IH]; [intros []%elem_of_nil|].
  intros [<-|Hin]%elem_of_cons; cbn [foldr].
  - destruct (foldr jsMax MinusInfinity l) as [y|]; cbn [jsMax].
    + exists (Z.max z y). split; [reflexivity|lia].
    + exists z. split; [reflexivity|lia].
  - destruct (IH Hin) as (m & -> & Hle).
    destruct k as [x|]; cbn [jsMax].
    + exists (Z.max x m). split; [reflexivity|lia].
    + exists m. now split.
Qed.

Lemma foldr_jsMax_none (l : list JsNumber) :
  (forall z, Finite z ∉ l) -> foldr jsMax MinusInfinity l = MinusInfinity.
Proof.
  induction l as [|k l IH]; [reflexivity|]. intros Hno. cbn [foldr].
  rewrite IH by (intros z Hin; apply (Hno z); now apply list_elem_of_further).
  destruct k as [x|]; [|reflexivity].
  exfalso. apply (Hno x), list_elem_of_here.
Qed.

Lemma key_in_list (users : gmap JsNumber User) k :
  k ∈ map fst (map_to_list users) <-> exists user, users !! k = Some user.
Proof.
  rewrite list_elem_of_fmap. split.
  - intros ([k' user] & -> & Hin). exists user.
    now apply elem_of_map_to_list in Hin.
  - intros [user Hl]. exists (k, user). split; [reflexivity|].
    now apply elem_of_map_to_list.
Qed.

Lemma maxKey_bounds (users : gmap JsNumber User) z user :
  users !! Finite z = Some user ->
  exists m, maxKey users = Finite m /\ z <= m.
Proof.
  intros Hl. apply foldr_jsMax_finite, key_in_list. eauto.
Qed.

Lemma next_id_is_free (users : gmap JsNumber User) :
  hasFiniteKey users ->
  exists m, maxKey users = Finite m /\ users !! Finite (m + 1) = None.
Proof.
  intros (z & user & Hl).
  destruct (maxKey_bounds users z user Hl) as (m & Hm & Hzm).
  exists m. split; [exact Hm|].
  destruct (users !! Finite (m + 1)) as [u|] eqn:Hu; [|reflexivity].
  destruct (maxKey_bounds users (m + 1) u Hu) as (m' & Hm' & Hle).
  rewrite Hm in Hm'. injection Hm' as <-. lia.
Qed.

(** createUser on a store that holds at least one user with an integer
    id gives the new user the id one above the largest.  That id was
    free, the user can be read back under it, the count grows by one, and
    no other user is touched. *)
Theorem createUser_takes_next_free_id (now : Z) (userData : UserData)
    (users : gmap JsNumber User) :
  hasFiniteKey users ->
  let created := fst (createUser now userData users) in
  let users' := snd (createUser now userData users) in
  (exists m, maxKey users = Finite m /\ id created = Finite (m + 1))
  /\ users !! id created = None
  /\ getUserById (id created) users' = Some created
  /\ getUserCount users' = getUserCount users + 1
  /\ (forall other, other <> id created ->
        getUserById other users' = getUserById other users).
Proof.
  intros Hfin. cbv zeta. unfold createUser, getUserById, getUserCount.
  cbn [fst snd id].
  destruct (next_id_is_free users Hfin) as (m & Hm & Hfree).
  rewrite Hm. cbn [plusOne].
  split; [eauto|]. split; [exact Hfree|]. split; [apply lookup_insert_eq|].
  split.
  - rewrite map_size_insert_None by exact Hfree. lia.
  - intros other Hne. now apply lookup_insert_ne.
Qed.

Lemma mockUsers_hasFiniteKey : hasFiniteKey mockUsers.
Proof.
  exists 1, (mockUser 1 "John Doe" "john@example.com"). reflexivity.
Qed.

Lemma createUser_takes_next_free_id_witness :
  (exists m, maxKey mockUsers = Finite m
             /\ id (fst (createUser 1700 (mkUserData "Eve" "eve@example.com")
                            mockUsers)) = Finite (m + 1))
  /\ mockUsers !! id (fst (createUser 1700 (mkUserData "Eve" "eve@example.com")
                             mockUsers)) = None
  /\ getUserById
       (id (fst (createUser 1700 (mkUserData "Eve" "eve@example.com") mockUsers)))
       (snd (createUser 1700 (mkUserData "Eve" "eve@example.com") mockUsers))
     = Some (fst (createUser 1700 (mkUserData "Eve" "eve@example.com") mockUsers))
  /\ getUserCount (snd (createUser 1700 (mkUserData "Eve" "eve@example.com")
                          mockUsers))
     = getUserCount mockUsers + 1
  /\ (forall other,
        other <> id (fst (createUser 1700 (mkUserData "Eve" "eve@example.com")
                            mockUsers)) ->
        getUserById other
          (snd (createUser 1700 (mkUserData "Eve" "eve@example.com") mockUsers))
        = getUserById other mockUsers).
Proof.
  apply (createUser_takes_next_free_id 1700
           (mkUserData "Eve" "eve@example.com") mockUsers).
  exact mockUsers_hasFiniteKey.
Defined.

Lemma id_above_max_is_free (users : gmap JsNumber User) (m : Z) :
  maxKey users = Finite m -> users !! Finite (m + 1) = None.
Proof.
  intros Hm.
  destruct (users !! Finite (m + 1)) as [u|] eqn:Hu; [|reflexivity].
  destruct (maxKey_bounds users (m + 1) u Hu) as (m' & Hm' & Hle).
  rewrite Hm in Hm'. injection Hm' as <-. lia.
Qed.

Lemma maxKey_delete_unnamed (users : gmap JsNumber User) :
  maxKey users = MinusInfinity ->
  maxKey (delete MinusInfinity users) = MinusInfinity.
Proof.
  intros Hmax. apply foldr_jsMax_none. intros z [user Hl]%key_in_list.
  rewrite lookup_delete_ne in Hl by discriminate.
  destruct (maxKey_bounds users z user Hl) as (m & Hm & _).
  rewrite Hmax in Hm. discriminate.
Qed.

(** Ids are handed out again, in every store: when the user created last
    is deleted, the delete succeeds and the next createUser returns the
    same id.  The store after the delete is the store before the create
    without the new id; when the store held an integer id before, the new
    id was unused and the store is as before. *)
Theorem deleted_id_is_reused (t1 t2 : Z) (d1 d2 : UserData)
    (users : gmap JsNumber User) :
  let first := createUser t1 d1 users in
  let removed := deleteUser (id (fst first)) (snd first) in
  let second := createUser t2 d2 (snd removed) in
  fst removed = true
  /\ id (fst second) = id (fst first)
  /\ snd removed = delete (id (fst first)) users
  /\ (hasFiniteKey users -> snd removed = users).
Proof.
  cbv zeta.
  unfold deleteUser, createUser. cbv zeta. cbn [fst snd id].
  rewrite lookup_insert_eq. cbn [fst snd].
  rewrite delete_insert_eq.
  split; [reflexivity|]. split; [|split; [reflexivity|]].
  - destruct (maxKey users) as [m|] eqn:Hm; cbn [plusOne].
    + rewrite delete_id by now apply id_above_max_is_free.
      now rewrite Hm.
    + now rewrite maxKey_delete_unnamed.
  - intros Hfin. destruct (next_id_is_free users Hfin) as (m & Hm & Hfree).
    rewrite Hm. cbn [plusOne]. now apply delete_id.
Qed.

Lemma deleted_id_is_reused_witness :
  fst (deleteUser (id (fst (createUser 1 (mkUserData "a" "a@b.c") mockUsers)))
         (snd (createUser 1 (mkUserData "a" "a@b.c") mockUsers))) = true
  /\ id (fst (createUser 2 (mkUserData "d" "d@e.f")
                 (snd (deleteUser
                         (id (fst (createUser 1 (mkUserData "a" "a@b.c") mockUsers)))
                         (snd (createUser 1 (mkUserData "a" "a@b.c") mockUsers))))))
     = id (fst (createUser 1 (mkUserData "a" "a@b.c") mockUsers))
  /\ snd (deleteUser (id (fst (createUser 1 (mkUserData "a" "a@b.c") mockUsers)))
            (snd (createUser 1 (mkUserData "a" "a@b.c") mockUsers))) = mockUsers.
Proof.
  destruct (deleted_id_is_reused 1 2 (mkUserData "a" "a@b.c")
              (mkUserData "d" "d@e.f") mockUsers)
    as (Hdel & Hid & _ & Hsame).
  split; [exact Hdel|]. split; [exact Hid|].
  apply Hsame. exact mockUsers_hasFiniteKey.
Defined.

(** Once no user with an integer id is left (for instance after all
    have been deleted), createUser gives every new user the id -Infinity:
    each new user replaces the one before, and the store holds one user. *)
Theorem createUser_without_integer_ids (now : Z) (userData : UserData)
    (users : gmap JsNumber User) :
  (forall z, users !! Finite z = None) ->
  id (fst (createUser now userData users)) = MinusInfinity
  /\ getUserCount (snd (createUser now userData users)) = 1
  /\ (forall z, snd (createUser now userData users) !! Finite z = None).
Proof.
  intros Hno. unfold createUser, getUserCount. cbn [fst snd id].
  assert (Hmax : maxKey users = MinusInfinity).
  { apply foldr_jsMax_none. intros z [user Hl]%key_in_list.
    rewrite Hno in Hl. discriminate. }
  rewrite Hmax. cbn [plusOne]. split; [reflexivity|]. split.
  - set (u := mkUser _ _ _ _ _).
    assert (Heq : <[MinusInfinity := u]> users = {[MinusInfinity := u]}).
    { apply map_eq. intros [z|].
      - rewrite lookup_insert_ne by discriminate.
        rewrite lookup_singleton_ne by discriminate. apply Hno.
      - now rewrite lookup_insert_eq, lookup_singleton_eq. }
    rewrite Heq, map_size_singleton. reflexivity.
  - intros z. rewrite lookup_insert_ne by discriminate. apply Hno.
Qed.

Lemma createUser_without_integer_ids_witness :
  id (fst (createUser 1700 (mkUserData "Eve" "eve@example.com") ∅))
  = MinusInfinity
  /\ getUserCount (snd (createUser 1700 (mkUserData "Eve" "eve@example.com") ∅))
     = 1
  /\ (forall z, snd (createUser 1700 (mkUserData "Eve" "eve@example.com") ∅)
                !! Finite z = None).
Proof.
  apply (createUser_without_integer_ids 1700
           (mkUserData "Eve" "eve@example.com") ∅).
  intros z. apply lookup_empty.
Defined.

(** updateUser and deleteUser act on one user only.  Both report a
    missing id (null, false) and then leave the store as it is; an update
    keeps the id and the creation date and stamps the time of the update;
    a delete makes the id unknown and lowers the count by one. *)
Theorem update_and_delete_touch_one_user (now : Z) (target : JsNumber)
    (patch : UserPatch) (users : gmap JsNumber User) :
  let updated := updateUser now target patch users in
  let removed := deleteUser target users in
  (users !! target = None ->
   updated = (None, users) /\ removed = (false, users))
  /\ (forall user, users !! target = Some user ->
        (exists user',
            fst updated = Some user'
            /\ getUserById target (snd updated) = Some user'
            /\ id user' = id user
            /\ createdAt user' = createdAt user
            /\ updatedAt user' = Some now)
        /\ fst removed = true
        /\ getUserById target (snd removed) = None
        /\ getUserCount (snd removed) = getUserCount users - 1)
  /\ (forall other, other <> target ->
        getUserById other (snd updated) = getUserById other users
        /\ getUserById other (snd removed) = getUserById other users).
Proof.
  cbv zeta. unfold updateUser, deleteUser, getUserById, getUserCount.
  split; [|split].
  - intros ->. now split.
  - intros user Hl. rewrite Hl. cbn [fst snd]. split.
    + eexists. split; [reflexivity|]. split; [apply lookup_insert_eq|].
      repeat split.
    + split; [reflexivity|]. split; [apply lookup_delete_eq|].
      pose proof (map_size_delete target users) as Hsz.
      rewrite Hl in Hsz. cbn in Hsz.
      assert (0 < size users)%nat; [|lia].
      destruct (size users) eqn:Hs; [|lia].
      apply map_size_empty_iff in Hs. subst users.
      rewrite lookup_empty in Hl. discriminate.
  - intros other Hne. destruct (users !! target) as [user|]; cbn [snd].
    + split; [now apply lookup_insert_ne|now apply lookup_delete_ne].
    + now split.
Qed.

Lemma update_and_delete_touch_one_user_witness :
  getUserById (Finite 2)
    (snd (deleteUser (Finite 1) mockUsers)) = getUserById (Finite 2) mockUsers.
Proof.
  apply (update_and_delete_touch_one_user 0 (Finite 1)
           (mkUserPatch None None None) mockUsers).
  discriminate.
Defined.

End MockDataProofs.

(* ===================================================================== *)
(** * Properties of the logger *)
(* ===================================================================== *)

Module LoggerProofs.
Import Logger.

(** getLogs(k) returns the k entries logged last, in order, for k > 0
    (the whole log when it holds no more than k entries).
    For k = 0 (as when the limit is left out) it returns the whole log,
    and for a negative k it returns the log without its first |k|
    entries. *)
Theorem getLogs_limit (logs recent : list LogEntry) (k : Z) :
  (recent <> [] ->
   getLogs (Some (Z.of_nat (length recent))) (logs ++ recent) = recent)
  /\ getLogs (Some 0) logs = logs
  /\ getLogs None logs = logs
  /\ (0 < k -> Z.of_nat (length (getLogs (Some k) logs))
               = Z.min k (Z.of_nat (length logs)))
  /\ (0 < k -> getLogs (Some k) logs
               = drop (length logs - Z.to_nat k) logs)
  /\ (k < 0 -> getLogs (Some k) logs = drop (Z.to_nat (- k)) logs).
Proof.
  unfold getLogs, slice. split; [|split; [|split; [|split; [|split]]]];
    try reflexivity.
  - intros Hne.
    assert (0 < length recent)%nat by (destruct recent; [congruence|cbn; lia]).
    rewrite bool_decide_eq_false_2 by lia.
    rewrite bool_decide_eq_true_2 by lia.
    rewrite length_app.
    replace (Z.to_nat (Z.max 0 (Z.of_nat (length logs + length recent)
                                 + - Z.of_nat (length recent))))
      with (length logs) by lia.
    now rewrite drop_app_length.
  - intros Hk.
    rewrite bool_decide_eq_false_2 by lia.
    rewrite bool_decide_eq_true_2 by lia.
    rewrite length_drop. lia.
  - intros Hk.
    rewrite bool_decide_eq_false_2 by lia.
    rewrite bool_decide_eq_true_2 by lia.
    f_equal. lia.
  - intros Hk.
    rewrite bool_decide_eq_false_2 by lia.
    rewrite bool_decide_eq_false_2 by lia. reflexivity.
Qed.

Lemma getLogs_limit_witness :
  getLogs (Some (Z.of_nat (length [mkLogEntry "t2" "WARN" "w" None])))
    (logInfo "t1" "started" None [] ++ [mkLogEntry "t2" "WARN" "w" None])
  = [mkLogEntry "t2" "WARN" "w" None].
Proof.
  apply (getLogs_limit (logInfo "t1" "started" None [])
           [mkLogEntry "t2" "WARN" "w" None] 1).
  discriminate.
Defined.

End LoggerProofs.
